(** * service-tracking: trip-track aggregate, repository, hub and event handlers

    A shallow embedding of the Go sources of the tracking service
    ([internal/domain/tracking], [internal/repository], [internal/ws],
    [internal/application]) together with the properties of the
    natural-language specification that are settled against it, and of the
    chat and share packages ([internal/domain/chat], [internal/domain/share],
    their services and the chat handler) with further properties of the
    code.

    Conventions of the embedding:
    - [float64] is Rocq's primitive binary64 float ([PrimFloat.float]);
    - [uuid.UUID] is a 128-bit number, kept as [N];
    - [time.Time] is an instant, kept as a [Z] count of nanoseconds from Go's
      zero instant, so that the zero value of [time.Time] is [0];
    - [int64] is a [Z] with its wrap-around written out ([wrap64]);
    - a method with a pointer receiver returns the updated receiver;
    - a Go [error] result is an [option error] ([None] is [nil]). *)

From Stdlib Require Import ZArith NArith List Bool Ascii String Lia.
From Stdlib Require Import PrimFloat SpecFloat FloatOps FloatAxioms.
From Stdlib Require Import Sorting.Sorted Sorting.Permutation.
From stdpp Require Import base option list gmap strings.

Set Default Proof Using "Type".

(* ===================================================================== *)
(** * Part I. The embedding                                               *)
(* ===================================================================== *)

(** ** Base types shared by every package *)

Definition uuid : Type := N.
Definition Time : Type := Z.
Definition float64 : Type := float.

(** [uuid.Nil] and the zero [time.Time]. *)
Definition uuid_Nil : uuid := 0%N.
Definition zeroTime : Time := 0%Z.

(** Two's-complement wrap-around of a 64-bit signed integer. *)
Definition wrap64 (z : Z) : Z := ((z + 2 ^ 63) mod 2 ^ 64 - 2 ^ 63)%Z.

(** The double-quote character, for the JSON texts below. *)
Definition dquote : string := String (ascii_of_nat 34) EmptyString.

(** *** Errors

    The Go sources build errors with [fmt.Errorf] (optionally wrapping a cause
    with [%w]) and use three values of [lib-common/domain]: [ErrNotFound],
    [ErrOptimisticLock] and [NewInvalidStateError(current, target)].
    [Wrapf] is a [fmt.Errorf] whose format ends in [%w]; [ErrConstraint] is a
    constraint violation reported by the database and [ErrMarshal] a value
    that [encoding/json] refuses. *)
Inductive fmt_arg : Type :=
| ArgFloat (f : float64)
| ArgUUID (u : uuid).

Inductive error : Type :=
| ErrNotFound
| ErrOptimisticLock
| InvalidStateError (current target : string)
| ErrConstraint (constraint : string)
| ErrMarshal (what : string)
| Errorf (format : string) (args : list fmt_arg)
| Wrapf (format : string) (args : list fmt_arg) (cause : error).

(** [math] and [encoding/json] functions of the Go library that the service
    calls on floats.  They are outside the repository, so the embedding is
    parametric in them; square root and the arithmetic come from IEEE 754
    and are the primitive ones. *)
Class GoLib : Type := {
  math_Sin : float64 -> float64;
  math_Cos : float64 -> float64;
  math_Atan2 : float64 -> float64 -> float64;
  math_Round : float64 -> float64;
  (* the text encoding/json writes for a finite float64 *)
  json_float : float64 -> string
}.

(** [math.Pi] as a float64 constant, and [math.Sqrt]. *)
Definition math_Pi : float64 := 0x1.921fb54442d18p+1%float.
Definition math_Sqrt (x : float64) : float64 := PrimFloat.sqrt x.

(* --------------------------------------------------------------------- *)
(** ** Package [tracking] (internal/domain/tracking/trip_track.go)        *)
(* --------------------------------------------------------------------- *)

Module tracking.

(** [type TrackingStatus string] with its three constants. *)
Definition TrackingStatus : Type := string.
Definition TrackingActive : TrackingStatus := "active".
Definition TrackingCompleted : TrackingStatus := "completed".
Definition TrackingCancelled : TrackingStatus := "cancelled".

Record Waypoint : Type := mkWaypoint {
  wp_ID : uuid;
  wp_Latitude : float64;
  wp_Longitude : float64;
  wp_Speed : float64;
  wp_Heading : float64;
  wp_RecordedAt : Time
}.

(** The zero value [Waypoint{}]. *)
Definition Waypoint_zero : Waypoint :=
  mkWaypoint uuid_Nil 0%float 0%float 0%float 0%float zeroTime.

(** [NewWaypoint]; [id] is the value drawn by [uuid.New()]. *)
Definition NewWaypoint (id : uuid) (lat lng speed heading : float64)
    (recordedAt : Time) : Waypoint * option error :=
  if (lat <? -90)%float || (90 <? lat)%float then
    (Waypoint_zero,
     Some (Errorf "latitude must be between -90 and 90, got %f" [ArgFloat lat]))
  else if (lng <? -180)%float || (180 <? lng)%float then
    (Waypoint_zero,
     Some (Errorf "longitude must be between -180 and 180, got %f" [ArgFloat lng]))
  else
    let speed := if (speed <? 0)%float then 0%float else speed in
    let heading :=
      if (heading <? 0)%float || (360 <? heading)%float then 0%float else heading in
    (mkWaypoint id lat lng speed heading recordedAt, None).

(** A latitude or longitude outside, or inside, its range. *)
Definition lat_outside (lat : float64) : Prop :=
  (lat <? -90)%float = true \/ (90 <? lat)%float = true.
Definition lng_outside (lng : float64) : Prop :=
  (lng <? -180)%float = true \/ (180 <? lng)%float = true.
Definition lat_inside (lat : float64) : Prop :=
  (-90 <=? lat)%float = true /\ (lat <=? 90)%float = true.
Definition lng_inside (lng : float64) : Prop :=
  (-180 <=? lng)%float = true /\ (lng <=? 180)%float = true.

Record TripTrack : Type := mkTripTrack {
  id : uuid;
  bookingID : uuid;
  runnerID : uuid;
  status : TrackingStatus;
  totalDistanceKm : float64;
  startedAt : Time;
  completedAt : option Time;
  version : Z;
  createdAt : Time;
  updatedAt : Time
}.

(** [NewTripTrack]; [newID] is [uuid.New()] and [now] is [time.Now().UTC()]. *)
Definition NewTripTrack (newID : uuid) (now : Time) (bookingID runnerID : uuid)
    : TripTrack :=
  {| id := newID;
     bookingID := bookingID;
     runnerID := runnerID;
     status := TrackingActive;
     totalDistanceKm := 0%float;
     startedAt := now;
     completedAt := None;
     version := 1%Z;
     createdAt := now;
     updatedAt := now |}.

(** [Complete]: the receiver after the call, and the returned error. *)
Definition Complete (now : Time) (distanceKm : float64) (t : TripTrack)
    : TripTrack * option error :=
  if negb (String.eqb (status t) TrackingActive) then
    (t, Some (InvalidStateError (status t) TrackingCompleted))
  else
    ({| id := id t;
        bookingID := bookingID t;
        runnerID := runnerID t;
        status := TrackingCompleted;
        totalDistanceKm := distanceKm;
        startedAt := startedAt t;
        completedAt := Some now;
        version := version t;
        createdAt := createdAt t;
        updatedAt := now |}, None).

(** [Cancel]. *)
Definition Cancel (now : Time) (t : TripTrack) : TripTrack * option error :=
  if negb (String.eqb (status t) TrackingActive) then
    (t, Some (InvalidStateError (status t) TrackingCancelled))
  else
    ({| id := id t;
        bookingID := bookingID t;
        runnerID := runnerID t;
        status := TrackingCancelled;
        totalDistanceKm := totalDistanceKm t;
        startedAt := startedAt t;
        completedAt := completedAt t;
        version := version t;
        createdAt := createdAt t;
        updatedAt := now |}, None).

(** [IncrementVersion]: [t.version++] on an [int64], then the time stamp. *)
Definition IncrementVersion (now : Time) (t : TripTrack) : TripTrack :=
  {| id := id t;
     bookingID := bookingID t;
     runnerID := runnerID t;
     status := status t;
     totalDistanceKm := totalDistanceKm t;
     startedAt := startedAt t;
     completedAt := completedAt t;
     version := wrap64 (version t + 1);
     createdAt := createdAt t;
     updatedAt := now |}.

Definition IsActive (t : TripTrack) : bool :=
  String.eqb (status t) TrackingActive.

(** [Reconstruct] rebuilds an aggregate from persisted columns. *)
Definition Reconstruct (id bookingID runnerID : uuid) (status : TrackingStatus)
    (totalDistanceKm : float64) (startedAt : Time) (completedAt : option Time)
    (version : Z) (createdAt updatedAt : Time) : TripTrack :=
  mkTripTrack id bookingID runnerID status totalDistanceKm startedAt
    completedAt version createdAt updatedAt.

End tracking.

(* --------------------------------------------------------------------- *)
(** ** Package [repository] (internal/repository/tracking_repository.go)  *)
(* --------------------------------------------------------------------- *)

Module repository.
Import tracking.

(** Rows of the [trip_tracks] and [waypoints] tables. *)
Record TripTrackModel : Type := mkTripTrackModel {
  m_ID : uuid;
  m_BookingID : uuid;
  m_RunnerID : uuid;
  m_Status : string;
  m_TotalDistanceKm : float64;
  m_StartedAt : Time;
  m_CompletedAt : option Time;
  m_Version : Z;
  m_CreatedAt : Time;
  m_UpdatedAt : Time
}.

Record WaypointModel : Type := mkWaypointModel {
  wm_ID : uuid;
  wm_TripTrackID : uuid;
  wm_Latitude : float64;
  wm_Longitude : float64;
  wm_Speed : float64;
  wm_Heading : float64;
  wm_RecordedAt : Time;
  wm_CreatedAt : Time
}.

(** [toDomain] and [toModel]. *)
Definition toDomain (model : TripTrackModel) : TripTrack :=
  Reconstruct (m_ID model) (m_BookingID model) (m_RunnerID model)
    (m_Status model) (m_TotalDistanceKm model) (m_StartedAt model)
    (m_CompletedAt model) (m_Version model) (m_CreatedAt model)
    (m_UpdatedAt model).

Definition toModel (track : TripTrack) : TripTrackModel :=
  {| m_ID := id track;
     m_BookingID := bookingID track;
     m_RunnerID := runnerID track;
     m_Status := status track;
     m_TotalDistanceKm := totalDistanceKm track;
     m_StartedAt := startedAt track;
     m_CompletedAt := completedAt track;
     m_Version := version track;
     m_CreatedAt := createdAt track;
     m_UpdatedAt := updatedAt track |}.

(** The database behind [r.db]: the two tables, rows in insertion order.
    The queries below are the SQL that the GORM calls of the source stand
    for.  A write fails on a violated constraint of the schema (migrations:
    primary keys, [booking_id UNIQUE], the foreign key of
    [waypoints.trip_track_id]) and on a number that its DECIMAL column
    cannot hold.  An instant is kept as it is given: the resolution of the
    TIMESTAMPTZ columns is not modelled. *)
Record DB : Type := mkDB {
  trip_tracks : list TripTrackModel;
  waypoints : list WaypointModel
}.

(** What PostgreSQL makes of a [float64] that is written to a column
    [DECIMAL(precision, scale)]: the number that the column then holds, as a
    [float64] reads it back, or the error for a number that the column
    cannot hold.  The conversion is the database's, so the embedding is
    parametric in it; all that is used of it is that 0 is held as 0. *)
Class Postgres : Type := {
  pg_decimal : nat -> nat -> float64 -> float64 + error;
  pg_decimal_zero : forall precision scale : nat,
    pg_decimal precision scale 0%float = inl 0%float
}.

(** [First(&model)]: the matching row with the least primary key, or
    [gorm.ErrRecordNotFound] (here [None]). *)
Fixpoint least_by_id (rows : list TripTrackModel) : option TripTrackModel :=
  match rows with
  | [] => None
  | r :: rest =>
      match least_by_id rest with
      | None => Some r
      | Some r' => if (m_ID r <=? m_ID r')%N then Some r else Some r'
      end
  end.

Definition First (cond : TripTrackModel -> bool) (rows : list TripTrackModel)
    : option TripTrackModel :=
  least_by_id (List.filter cond rows).

Definition FindByID (id : uuid) (db : DB) : TripTrack + error :=
  match First (fun r => (m_ID r =? id)%N) (trip_tracks db) with
  | None => inr ErrNotFound
  | Some model => inl (toDomain model)
  end.

Definition FindByBookingID (bookingID : uuid) (db : DB) : TripTrack + error :=
  match First (fun r => (m_BookingID r =? bookingID)%N) (trip_tracks db) with
  | None => inr ErrNotFound
  | Some model => inl (toDomain model)
  end.

Definition FindActiveByRunnerID (runnerID : uuid) (db : DB) : TripTrack + error :=
  match First (fun r => (m_RunnerID r =? runnerID)%N
                        && String.eqb (m_Status r) TrackingActive)
              (trip_tracks db) with
  | None => inr ErrNotFound
  | Some model => inl (toDomain model)
  end.

(** A row with the distance that its column holds. *)
Definition with_distance (model : TripTrackModel) (distance : float64)
    : TripTrackModel :=
  {| m_ID := m_ID model;
     m_BookingID := m_BookingID model;
     m_RunnerID := m_RunnerID model;
     m_Status := m_Status model;
     m_TotalDistanceKm := distance;
     m_StartedAt := m_StartedAt model;
     m_CompletedAt := m_CompletedAt model;
     m_Version := m_Version model;
     m_CreatedAt := m_CreatedAt model;
     m_UpdatedAt := m_UpdatedAt model |}.

(** [Create(model)] on [trip_tracks]: an INSERT of the model, its distance
    as [DECIMAL(10,3)], under the primary key and the unique index on
    [booking_id].  gorm leaves a field that holds the zero value of its type
    to the default of its column.  For the distance that default is 0.  The
    other defaults (a generated id, ['active'], version 1, [now()]) stand
    in for values that the tracks of this service never have: their id is
    a [uuid.New()], their status and version are set by [NewTripTrack], and
    their times are readings of the clock.  So the columns are written as
    the model has them. *)
Definition insert_trip_track `{Postgres} (model : TripTrackModel) (db : DB)
    : DB * option error :=
  match pg_decimal 10 3 (m_TotalDistanceKm model) with
  | inr err => (db, Some err)
  | inl distance =>
      if existsb (fun r => (m_ID r =? m_ID model)%N) (trip_tracks db) then
        (db, Some (ErrConstraint "trip_tracks_pkey"))
      else if existsb (fun r => (m_BookingID r =? m_BookingID model)%N)
                (trip_tracks db) then
        (db, Some (ErrConstraint "trip_tracks_booking_id_key"))
      else
        (mkDB (trip_tracks db ++ [with_distance model distance]) (waypoints db),
         None)
  end.

Definition Save `{Postgres} (track : TripTrack) (db : DB) : DB * option error :=
  let model := toModel track in
  match insert_trip_track model db with
  | (db', Some err) => (db', Some (Wrapf "failed to save trip track: %w" [] err))
  | (db', None) => (db', None)
  end.

(** [Where("id = ? AND version = ?", model.ID, model.Version-1).Save(model)].

    gorm's [Save] of a model whose primary key is set runs two statements.
    The first is the UPDATE of the rows that have the key of the model and
    satisfy the condition: it writes every column but the key, with
    [updated_at] set to gorm's clock, which the model keeps.  When that
    UPDATE has changed no row and has not failed, the second statement is
    [INSERT ... ON CONFLICT (id) DO UPDATE] with gorm's [UpdateAll]: where
    a row has the key of the model it writes the model over that row, but
    for the key and the columns whose default is an expression of the
    database ([started_at], [created_at] and [updated_at], default [now()]),
    which the row keeps; where no row has the key it inserts the model.
    Either statement fails on a distance that [DECIMAL(10,3)] cannot hold
    and when the [booking_id] of the model belongs to another row.  For a
    model whose primary key is the zero value [Save] is [Create].
    [RowsAffected] is that of the last statement run.

    [model.Version-1] is an [int64] subtraction; [stamp] is the reading of
    gorm's clock. *)
Definition update_cond (model : TripTrackModel) (r : TripTrackModel) : bool :=
  (m_ID r =? m_ID model)%N && (m_Version r =? wrap64 (m_Version model - 1))%Z.

(** The first statement, the UPDATE of the rows that satisfy the
    condition; the third component is the number of rows it has changed. *)
Definition update_where (model : TripTrackModel) (db : DB)
    : DB * option error * nat :=
  let hit := List.filter (update_cond model) (trip_tracks db) in
  let rest := List.filter (fun r => negb (update_cond model r)) (trip_tracks db) in
  if negb (Nat.eqb (length hit) 0)
     && existsb (fun r => (m_BookingID r =? m_BookingID model)%N) rest then
    (db, Some (ErrConstraint "trip_tracks_booking_id_key"), 0)
  else
    (mkDB (List.map (fun r => if update_cond model r then model else r)
                    (trip_tracks db))
          (waypoints db),
     None, length hit).

(** The model as the first statement writes it. *)
Definition stamped (model : TripTrackModel) (distance : float64) (stamp : Time)
    : TripTrackModel :=
  {| m_ID := m_ID model;
     m_BookingID := m_BookingID model;
     m_RunnerID := m_RunnerID model;
     m_Status := m_Status model;
     m_TotalDistanceKm := distance;
     m_StartedAt := m_StartedAt model;
     m_CompletedAt := m_CompletedAt model;
     m_Version := m_Version model;
     m_CreatedAt := m_CreatedAt model;
     m_UpdatedAt := stamp |}.

(** The row that [ON CONFLICT (id) DO UPDATE] leaves where [stored] was. *)
Definition on_conflict (stored model : TripTrackModel) : TripTrackModel :=
  {| m_ID := m_ID stored;
     m_BookingID := m_BookingID model;
     m_RunnerID := m_RunnerID model;
     m_Status := m_Status model;
     m_TotalDistanceKm := m_TotalDistanceKm model;
     m_StartedAt := m_StartedAt stored;
     m_CompletedAt := m_CompletedAt model;
     m_Version := m_Version model;
     m_CreatedAt := m_CreatedAt stored;
     m_UpdatedAt := m_UpdatedAt stored |}.

(** The second statement, [INSERT ... ON CONFLICT (id) DO UPDATE]. *)
Definition upsert (model : TripTrackModel) (db : DB) : DB * option error * nat :=
  let same_key := fun r => (m_ID r =? m_ID model)%N in
  if existsb (fun r => negb (same_key r) && (m_BookingID r =? m_BookingID model)%N)
       (trip_tracks db) then
    (db, Some (ErrConstraint "trip_tracks_booking_id_key"), 0%nat)
  else if existsb same_key (trip_tracks db) then
    (mkDB (List.map (fun r => if same_key r then on_conflict r model else r)
                    (trip_tracks db))
          (waypoints db),
     None, 1%nat)
  else
    (mkDB (trip_tracks db ++ [model]) (waypoints db), None, 1%nat).

Definition gorm_Save `{Postgres} (stamp : Time) (model : TripTrackModel) (db : DB)
    : DB * option error * nat :=
  if (m_ID model =? uuid_Nil)%N then
    match insert_trip_track model db with
    | (db', Some err) => (db', Some err, 0%nat)
    | (db', None) => (db', None, 1%nat)
    end
  else
    match pg_decimal 10 3 (m_TotalDistanceKm model) with
    | inr err => (db, Some err, 0%nat)
    | inl distance =>
        let written := stamped model distance stamp in
        match update_where written db with
        | (db', Some err, rowsAffected) => (db', Some err, rowsAffected)
        | (db', None, O) => upsert written db'
        | (db', None, rowsAffected) => (db', None, rowsAffected)
        end
    end.

(** [Update]; [stamp] is the reading of gorm's clock. *)
Definition Update `{Postgres} (stamp : Time) (track : TripTrack) (db : DB)
    : DB * option error :=
  let model := toModel track in
  match gorm_Save stamp model db with
  | (db', Some err, _) => (db', Some (Wrapf "failed to update trip track: %w" [] err))
  | (db', None, rowsAffected) =>
      if Nat.eqb rowsAffected 0 then (db', Some ErrOptimisticLock)
      else (db', None)
  end.

(** A waypoint row with the speed and the heading that its columns hold. *)
Definition with_speed_heading (model : WaypointModel) (speed heading : float64)
    : WaypointModel :=
  {| wm_ID := wm_ID model;
     wm_TripTrackID := wm_TripTrackID model;
     wm_Latitude := wm_Latitude model;
     wm_Longitude := wm_Longitude model;
     wm_Speed := speed;
     wm_Heading := heading;
     wm_RecordedAt := wm_RecordedAt model;
     wm_CreatedAt := wm_CreatedAt model |}.

(** [Create(model)] on [waypoints]: an INSERT of the model, its speed as
    [DECIMAL(6,2)] and its heading as [DECIMAL(5,2)] (latitude and longitude
    are DOUBLE PRECISION), under the primary key and the foreign key. *)
Definition insert_waypoint `{Postgres} (model : WaypointModel) (db : DB)
    : DB * option error :=
  match pg_decimal 6 2 (wm_Speed model) with
  | inr err => (db, Some err)
  | inl speed =>
      match pg_decimal 5 2 (wm_Heading model) with
      | inr err => (db, Some err)
      | inl heading =>
          if existsb (fun r => (wm_ID r =? wm_ID model)%N) (waypoints db) then
            (db, Some (ErrConstraint "waypoints_pkey"))
          else if negb (existsb (fun r => (m_ID r =? wm_TripTrackID model)%N)
                          (trip_tracks db)) then
            (db, Some (ErrConstraint "waypoints_trip_track_id_fkey"))
          else
            (mkDB (trip_tracks db)
                  (waypoints db ++ [with_speed_heading model speed heading]),
             None)
      end
  end.

(** [AddWaypoint]; [createdAt] is [time.Now().UTC()]. *)
Definition AddWaypoint `{Postgres} (createdAt : Time) (trackID : uuid)
    (waypoint : Waypoint) (db : DB) : DB * option error :=
  let model :=
    {| wm_ID := wp_ID waypoint;
       wm_TripTrackID := trackID;
       wm_Latitude := wp_Latitude waypoint;
       wm_Longitude := wp_Longitude waypoint;
       wm_Speed := wp_Speed waypoint;
       wm_Heading := wp_Heading waypoint;
       wm_RecordedAt := wp_RecordedAt waypoint;
       wm_CreatedAt := createdAt |} in
  match insert_waypoint model db with
  | (db', Some err) => (db', Some (Wrapf "failed to add waypoint: %w" [] err))
  | (db', None) => (db', None)
  end.

(** [Order("recorded_at ASC")]: rows by ascending [recorded_at].  SQL
    leaves the order of rows with equal times open; here they stay in table
    order. *)
Fixpoint insert_by_time (m : WaypointModel) (sorted : list WaypointModel)
    : list WaypointModel :=
  match sorted with
  | [] => [m]
  | x :: rest =>
      if (wm_RecordedAt m <? wm_RecordedAt x)%Z then m :: x :: rest
      else x :: insert_by_time m rest
  end.

Definition order_by_recorded_at (rows : list WaypointModel) : list WaypointModel :=
  List.fold_left (fun acc m => insert_by_time m acc) rows [].

Definition GetWaypoints (trackID : uuid) (db : DB) : list Waypoint * option error :=
  let models :=
    order_by_recorded_at
      (List.filter (fun m => (wm_TripTrackID m =? trackID)%N) (waypoints db)) in
  (List.map (fun m =>
     {| wp_ID := wm_ID m;
        wp_Latitude := wm_Latitude m;
        wp_Longitude := wm_Longitude m;
        wp_Speed := wm_Speed m;
        wp_Heading := wm_Heading m;
        wp_RecordedAt := wm_RecordedAt m |}) models, None).

(** The primary key of [trip_tracks] holds in a database state. *)
Definition pk_unique (db : DB) : Prop := List.NoDup (List.map m_ID (trip_tracks db)).

(** *** Route export *)

(** The values that [buildGeoJSONLineString] stores in its
    [map[string]interface{}]: a string and a [[][]float64]. *)
Inductive iface : Type :=
| IString (s : string)
| IFloat2D (rows : list (list float64)).

(** The raw query of [GetRouteAsGeoJSON],

    [SELECT ST_AsGeoJSON(ST_MakeLine(ST_MakePoint(w.longitude, w.latitude)
     ORDER BY w.recorded_at)) FROM waypoints w WHERE w.trip_track_id = ?].

    The repository chooses the rows, their order and the two coordinates of
    a point.  What PostGIS makes of the points, and whether it is installed
    at all, is the engine's: [st_line_geojson points] is the text that is
    scanned and the error of the call.  Over no row the aggregate is NULL,
    which gives no text. *)
Class SpatialEngine : Type := {
  st_line_geojson : list (float64 * float64) -> string * option error;
  st_line_geojson_nil :
    snd (st_line_geojson []) <> None \/ fst (st_line_geojson []) = EmptyString
}.

Definition raw_route_query `{SpatialEngine} (db : DB) (trackID : uuid)
    : string * option error :=
  st_line_geojson
    (List.map (fun m => (wm_Longitude m, wm_Latitude m))
       (order_by_recorded_at
          (List.filter (fun m => (wm_TripTrackID m =? trackID)%N) (waypoints db)))).

Section export.
Context `{GoLib} `{SpatialEngine}.

(** [json.Marshal] on the values above.  A NaN or an infinity is an
    unsupported value; the keys of a map are written in sorted order.
    The strings marshalled here hold no character that JSON escapes. *)
Definition json_quote (s : string) : string := dquote +:+ s +:+ dquote.

Definition marshal_float (f : float64) : string + error :=
  if is_nan f || is_infinity f then inr (ErrMarshal "json: unsupported value")
  else inl (json_float f).

Fixpoint marshal_each {A : Type} (enc : A -> string + error) (l : list A)
    : list string + error :=
  match l with
  | [] => inl []
  | x :: rest =>
      match enc x with
      | inr e => inr e
      | inl sx =>
          match marshal_each enc rest with
          | inr e => inr e
          | inl srest => inl (sx :: srest)
          end
      end
  end.

Definition marshal_array {A : Type} (enc : A -> string + error) (l : list A)
    : string + error :=
  match marshal_each enc l with
  | inr e => inr e
  | inl items => inl ("[" +:+ String.concat "," items +:+ "]")
  end.

Definition marshal_iface (v : iface) : string + error :=
  match v with
  | IString s => inl (json_quote s)
  | IFloat2D rows => marshal_array (marshal_array marshal_float) rows
  end.

Fixpoint insert_key (kv : string * iface) (sorted : list (string * iface))
    : list (string * iface) :=
  match sorted with
  | [] => [kv]
  | x :: rest =>
      if String.leb (fst kv) (fst x) then kv :: x :: rest
      else x :: insert_key kv rest
  end.

Definition sort_keys (m : list (string * iface)) : list (string * iface) :=
  List.fold_right insert_key [] m.

Definition marshal_map (m : list (string * iface)) : string + error :=
  match marshal_each
          (fun kv : string * iface =>
             match marshal_iface (snd kv) with
             | inr e => inr e
             | inl sv => inl (json_quote (fst kv) +:+ ":" +:+ sv)
             end)
          (sort_keys m) with
  | inr e => inr e
  | inl items => inl ("{" +:+ String.concat "," items +:+ "}")
  end.

(** The text returned for an empty route:
    [{"type":"LineString","coordinates":[]}]. *)
Definition empty_LineString : string :=
  "{" +:+ json_quote "type" +:+ ":" +:+ json_quote "LineString" +:+ ","
      +:+ json_quote "coordinates" +:+ ":[]}".

Definition buildGeoJSONLineString (waypoints : list Waypoint)
    : string * option error :=
  if Nat.eqb (length waypoints) 0 then (empty_LineString, None)
  else
    let coordinates :=
      List.map (fun wp => [wp_Longitude wp; wp_Latitude wp]) waypoints in
    let geoJSON :=
      [("type", IString "LineString"); ("coordinates", IFloat2D coordinates)] in
    match marshal_map geoJSON with
    | inr err => (EmptyString, Some (Wrapf "failed to marshal GeoJSON: %w" [] err))
    | inl data => (data, None)
    end.

Definition GetRouteAsGeoJSON (trackID : uuid) (db : DB) : string * option error :=
  let '(geoJSON, err) := raw_route_query db trackID in
  if match err with None => true | Some _ => false end
     && negb (String.eqb geoJSON EmptyString)
  then (geoJSON, None)
  else
    match GetWaypoints trackID db with
    | (_, Some err) => (EmptyString, Some err)
    | (waypoints, None) => buildGeoJSONLineString waypoints
    end.

(** The document that the export format prescribes for a list of
    waypoints, to compare [buildGeoJSONLineString] with: a GeoJSON object
    (keys in the order [json.Marshal] writes them) whose [coordinates] hold
    one [[longitude,latitude]] pair per waypoint, in the order of the list. *)
Definition point_text (wp : Waypoint) : string :=
  "[" +:+ String.concat "," [json_float (wp_Longitude wp); json_float (wp_Latitude wp)]
      +:+ "]".

Definition lineString_text (waypoints : list Waypoint) : string :=
  "{" +:+ ((json_quote "coordinates" +:+ ":"
              +:+ ("[" +:+ String.concat "," (List.map point_text waypoints) +:+ "]"))
           +:+ "," +:+ (json_quote "type" +:+ ":" +:+ json_quote "LineString"))
      +:+ "}".

(** Both coordinates of a waypoint are finite floats. *)
Definition finite_point (wp : Waypoint) : bool :=
  is_finite (wp_Longitude wp) && is_finite (wp_Latitude wp).

(** The rows of a track in the [waypoints] table. *)
Definition rows_of (trackID : uuid) (db : DB) : list WaypointModel :=
  List.filter (fun m => (wm_TripTrackID m =? trackID)%N) (waypoints db).

(** The waypoint that [GetWaypoints] builds from a row. *)
Definition of_row (m : WaypointModel) : Waypoint :=
  mkWaypoint (wm_ID m) (wm_Latitude m) (wm_Longitude m) (wm_Speed m)
    (wm_Heading m) (wm_RecordedAt m).

(** Ascending recorded time, on waypoints and on rows. *)
Definition time_le (a b : Waypoint) : Prop := (wp_RecordedAt a <= wp_RecordedAt b)%Z.
Definition row_time_le (a b : WaypointModel) : Prop :=
  (wm_RecordedAt a <= wm_RecordedAt b)%Z.

End export.

End repository.

(* --------------------------------------------------------------------- *)
(** ** Package [ws] (the hub of internal/ws)                              *)
(* --------------------------------------------------------------------- *)

Module ws.

Record TrackingUpdate : Type := mkTrackingUpdate {
  u_BookingID : uuid;
  u_RunnerID : uuid;
  u_Latitude : float64;
  u_Longitude : float64;
  u_Speed : float64;
  u_Heading : float64;
  u_Timestamp : Time
}.

Record ChatMessage : Type := mkChatMessage {
  cm_Type : string;
  cm_BookingID : uuid;
  cm_MessageID : uuid;
  cm_SenderID : uuid;
  cm_SenderRole : string;
  cm_MsgType : string;
  cm_Content : string;
  cm_CreatedAt : Time
}.

(** A marshalled message, [[]byte]. *)
Definition bytes : Type := string.

(** A buffered [chan []byte]: the queued messages (oldest first), the
    capacity given to [make], and whether [close] was called. *)
Record Chan : Type := mkChan {
  ch_buf : list bytes;
  ch_cap : nat;
  ch_closed : bool
}.

Definition make_chan (capacity : nat) : Chan := mkChan [] capacity false.

(** [select { case ch <- data: ... default: ... }]: the send is taken when
    the buffer has room, the default branch when it has none; a send on a
    closed channel panics.  (A receiver blocked on an empty buffer only
    makes room, so it is covered by the first case.) *)
Inductive send_result : Type :=
| Sent (ch : Chan)
| WouldBlock
| SendPanic.

Definition try_send (data : bytes) (ch : Chan) : send_result :=
  if ch_closed ch then SendPanic
  else if (length (ch_buf ch) <? ch_cap ch)%nat then
    Sent (mkChan (ch_buf ch ++ [data]) (ch_cap ch) false)
  else WouldBlock.

(** [close(ch)]; closing a closed channel panics ([None]). *)
Definition close_chan (ch : Chan) : option Chan :=
  if ch_closed ch then None
  else Some (mkChan (ch_buf ch) (ch_cap ch) true).

(** A [*Client] is an address; the [Client] it points to holds the room
    key and the outbound queue (the hub never touches [Conn]). *)
Definition ClientPtr : Type := positive.

Record Client : Type := mkClient {
  c_BookingID : uuid;
  c_Send : Chan
}.

(** The hub's [rooms] map (a [map[*Client]bool] is the set of its keys)
    and the clients that the pointers refer to.  A function of the hub
    returns [None] when the Go code panics. *)
Record Hub : Type := mkHub {
  rooms : gmap uuid (gset ClientPtr);
  heap : gmap ClientPtr Client
}.

(** [NewHub]. *)
Definition NewHub : Hub := mkHub ∅ ∅.

(** The [register] case of [Run]. *)
Definition on_register (client : ClientPtr) (h : Hub) : option Hub :=
  match heap h !! client with
  | None => None
  | Some c =>
      let room := default ∅ (rooms h !! c_BookingID c) in
      Some (mkHub (<[c_BookingID c := room ∪ {[client]}]> (rooms h)) (heap h))
  end.

(** [delete(clients, client); close(client.Send);
    if len(clients) == 0 { delete(h.rooms, bookingID) }], the block that
    [Run] and [broadcastToRoom] share.  [clients] is the room's own map
    object, so the deletion shows in [h.rooms]. *)
Definition remove_client (bookingID : uuid) (client : ClientPtr) (c : Client)
    (h : Hub) : option Hub :=
  match close_chan (c_Send c) with
  | None => None
  | Some closed =>
      let clients := default ∅ (rooms h !! bookingID) ∖ {[client]} in
      Some (mkHub
              (if Nat.eqb (size clients) 0 then delete bookingID (rooms h)
               else <[bookingID := clients]> (rooms h))
              (<[client := mkClient (c_BookingID c) closed]> (heap h)))
  end.

(** The [unregister] case of [Run]. *)
Definition on_unregister (client : ClientPtr) (h : Hub) : option Hub :=
  match heap h !! client with
  | None => None
  | Some c =>
      match rooms h !! c_BookingID c with
      | Some clients =>
          if bool_decide (client ∈ clients)
          then remove_client (c_BookingID c) client c h
          else Some h
      | None => Some h
      end
  end.

(** One round of the loop of [broadcastToRoom]. *)
Definition deliver (bookingID : uuid) (data : bytes) (h : Hub)
    (client : ClientPtr) : option Hub :=
  match heap h !! client with
  | None => None
  | Some c =>
      match try_send data (c_Send c) with
      | SendPanic => None
      | Sent ch =>
          Some (mkHub (rooms h) (<[client := mkClient (c_BookingID c) ch]> (heap h)))
      | WouldBlock => remove_client bookingID client c h
      end
  end.

Fixpoint range_clients (bookingID : uuid) (data : bytes)
    (order : list ClientPtr) (h : Hub) : option Hub :=
  match order with
  | [] => Some h
  | client :: rest =>
      match deliver bookingID data h client with
      | None => None
      | Some h' => range_clients bookingID data rest h'
      end
  end.

(** [broadcastToRoom].  The [range] visits the clients that are in the room
    when it starts, each once, in an order Go does not fix; the only
    entry a round deletes is its own. *)
Definition broadcastToRoom (bookingID : uuid) (data : bytes) (h : Hub)
    : option Hub :=
  match rooms h !! bookingID with
  | None => Some h
  | Some clients => range_clients bookingID data (elements clients) h
  end.

(** What [json.Marshal] gives for the two payloads of the hub. *)
Class WireFormat : Type := {
  marshal_location_update : TrackingUpdate -> bytes + error;
  marshal_chat_message : ChatMessage -> bytes + error
}.

(** The value received by the [select] of [Run]. *)
Inductive hub_msg : Type :=
| MsgRegister (client : ClientPtr)
| MsgUnregister (client : ClientPtr)
| MsgBroadcast (update : TrackingUpdate)
| MsgChat (chatMsg : ChatMessage).

(** One iteration of the loop of [Run]. *)
Definition Run_step `{WireFormat} (msg : hub_msg) (h : Hub) : option Hub :=
  match msg with
  | MsgRegister client => on_register client h
  | MsgUnregister client => on_unregister client h
  | MsgBroadcast update =>
      match marshal_location_update update with
      | inr _ => Some h
      | inl data => broadcastToRoom (u_BookingID update) data h
      end
  | MsgChat chatMsg =>
      match marshal_chat_message chatMsg with
      | inr _ => Some h
      | inl data => broadcastToRoom (cm_BookingID chatMsg) data h
      end
  end.

(** A queue is full when a send would not go through. *)
Definition queue_full (c : Client) : bool :=
  negb (length (ch_buf (c_Send c)) <? ch_cap (c_Send c))%nat.

(** The members of a room; a room that is not in the map has none. *)
Definition room_of (bookingID : uuid) (h : Hub) : gset ClientPtr :=
  default ∅ (rooms h !! bookingID).

(** A client after the message was queued, after its queue was closed, and
    after one delivery round. *)
Definition sent_client (data : bytes) (c : Client) : Client :=
  mkClient (c_BookingID c)
    (mkChan (ch_buf (c_Send c) ++ [data]) (ch_cap (c_Send c)) false).

Definition dropped_client (c : Client) : Client :=
  mkClient (c_BookingID c) (mkChan (ch_buf (c_Send c)) (ch_cap (c_Send c)) true).

Definition delivered (data : bytes) (c : Client) : Client :=
  if queue_full c then dropped_client c else sent_client data c.

(** What the loop of [Run] maintains: a member of a room is a client of
    that booking whose queue is open, and no room in the map is empty. *)
Definition hub_wf (h : Hub) : Prop :=
  (∀ (bookingID : uuid) (clients : gset ClientPtr) (client : ClientPtr),
     rooms h !! bookingID = Some clients → client ∈ clients →
     ∃ c, heap h !! client = Some c ∧ c_BookingID c = bookingID
          ∧ ch_closed (c_Send c) = false) ∧
  (∀ (bookingID : uuid), rooms h !! bookingID ≠ Some ∅).

End ws.

(* --------------------------------------------------------------------- *)
(** ** Package [application] (the tracking service)                       *)
(* --------------------------------------------------------------------- *)

Module application.
Import tracking repository.

(** *** Events of [lib-proto/events] *)

Record BookingAcceptedEvent : Type := mkBookingAcceptedEvent {
  ba_BookingID : uuid;
  ba_RunnerID : uuid
}.

Record RunnerLocationUpdateEvent : Type := mkRunnerLocationUpdateEvent {
  lu_RunnerID : uuid;
  lu_Latitude : float64;
  lu_Longitude : float64;
  lu_Speed : float64;
  lu_Heading : float64;
  lu_Timestamp : Time
}.

Record DeliveryConfirmedEvent : Type := mkDeliveryConfirmedEvent {
  dc_BookingID : uuid
}.

Record TrackingStartedEvent : Type := mkTrackingStartedEvent {
  ts_TrackID : uuid;
  ts_BookingID : uuid;
  ts_RunnerID : uuid;
  ts_StartedAt : Time;
  ts_OccurredAt : Time
}.

Record TrackingUpdatedEvent : Type := mkTrackingUpdatedEvent {
  tu_TrackID : uuid;
  tu_BookingID : uuid;
  tu_RunnerID : uuid;
  tu_Latitude : float64;
  tu_Longitude : float64;
  tu_Speed : float64;
  tu_OccurredAt : Time
}.

Record TrackingCompletedEvent : Type := mkTrackingCompletedEvent {
  tc_TrackID : uuid;
  tc_BookingID : uuid;
  tc_RunnerID : uuid;
  tc_TotalDistance : float64;
  tc_CompletedAt : Time;
  tc_OccurredAt : Time
}.

(** The [data interface{}] argument of [kafka.NewCloudEvent]. *)
Inductive EventData : Type :=
| DataStarted (e : TrackingStartedEvent)
| DataUpdated (e : TrackingUpdatedEvent)
| DataCompleted (e : TrackingCompletedEvent).

(** The event types, as the external interface of the service names them. *)
Definition TrackingStarted : string := "tracking.started".
Definition TrackingUpdated : string := "tracking.updated".
Definition TrackingCompleted : string := "tracking.completed".

(** [lib-common/kafka]: the envelope type, its constructor and the topic
    constant are outside the repository. *)
Class Kafka : Type := {
  CloudEvent : Type;
  NewCloudEvent : string -> string -> EventData -> CloudEvent + error;
  TopicTrackingEvents : string
}.

Section service.
Context `{GoLib} `{Postgres} `{Kafka}.

(** What a handler of the service can change: the database behind
    [s.repo], the buffer of the hub's [broadcast] channel behind [s.hub],
    and the events handed to [s.producer.PublishEvent] (topic and
    envelope, in call order).  The logger is left out: no handler reads
    it back.  The error that [PublishEvent] returns is only logged. *)
Record World : Type := mkWorld {
  w_db : DB;
  w_broadcast : list ws.TrackingUpdate;
  w_published : list (string * CloudEvent)
}.

(** [s.hub.Broadcast(update)]: [h.broadcast <- update]. *)
Definition hub_Broadcast (update : ws.TrackingUpdate) (w : World) : World :=
  mkWorld (w_db w) (w_broadcast w ++ [update]) (w_published w).

(** The publishing block that ends each handler: build the envelope and,
    when that succeeds, hand it to the producer; both errors are only
    logged. *)
Definition publish (eventType : string) (data : EventData) (w : World) : World :=
  match NewCloudEvent "service-tracking" eventType data with
  | inr _ => w
  | inl cloudEvt =>
      mkWorld (w_db w) (w_broadcast w)
              (w_published w ++ [(TopicTrackingEvents, cloudEvt)])
  end.

(** [haversineKm]. *)
Definition haversineKm (lat1 lon1 lat2 lon2 : float64) : float64 :=
  let earthRadiusKm := 6371%float in
  let dLat := ((lat2 - lat1) * math_Pi / 180)%float in
  let dLon := ((lon2 - lon1) * math_Pi / 180)%float in
  let lat1Rad := (lat1 * math_Pi / 180)%float in
  let lat2Rad := (lat2 * math_Pi / 180)%float in
  let a := (math_Sin (dLat / 2) * math_Sin (dLat / 2) +
            math_Cos lat1Rad * math_Cos lat2Rad
              * math_Sin (dLon / 2) * math_Sin (dLon / 2))%float in
  let c := (2 * math_Atan2 (math_Sqrt a) (math_Sqrt (1 - a)))%float in
  (earthRadiusKm * c)%float.

(** The body of the loop of [calculateTotalDistance]:
    [totalKm += haversineKm(waypoints[i-1]..., waypoints[i]...)]. *)
Definition add_segment (waypoints : list Waypoint) (totalKm : float64) (i : nat)
    : float64 :=
  (totalKm +
   haversineKm
     (wp_Latitude (List.nth (i - 1) waypoints Waypoint_zero))
     (wp_Longitude (List.nth (i - 1) waypoints Waypoint_zero))
     (wp_Latitude (List.nth i waypoints Waypoint_zero))
     (wp_Longitude (List.nth i waypoints Waypoint_zero)))%float.

(** [calculateTotalDistance]: the loop runs [i] from [1] to
    [len(waypoints) - 1]; both indices it reads are in range. *)
Definition calculateTotalDistance (waypoints : list Waypoint) : float64 :=
  if (length waypoints <? 2)%nat then 0%float
  else
    let totalKm :=
      List.fold_left (add_segment waypoints)
        (List.seq 1 (length waypoints - 1)) 0%float in
    (math_Round (totalKm * 1000) / 1000)%float.

(** The reading of the specification, to compare [calculateTotalDistance]
    with: the great-circle distances between consecutive points, summed
    from the first segment on and rounded to three decimals; 0 for fewer
    than two points. *)
Fixpoint consecutive (waypoints : list Waypoint) : list (Waypoint * Waypoint) :=
  match waypoints with
  | a :: rest =>
      match rest with
      | b :: _ => (a, b) :: consecutive rest
      | [] => []
      end
  | [] => []
  end.

Definition segmentKm (ab : Waypoint * Waypoint) : float64 :=
  haversineKm (wp_Latitude (fst ab)) (wp_Longitude (fst ab))
              (wp_Latitude (snd ab)) (wp_Longitude (snd ab)).

Definition sumKm (segments : list float64) : float64 :=
  List.fold_left (fun acc d => (acc + d)%float) segments 0%float.

Definition round3 (km : float64) : float64 :=
  (math_Round (km * 1000) / 1000)%float.

Definition totalDistance_spec (waypoints : list Waypoint) : float64 :=
  match waypoints with
  | [] => 0%float
  | [_] => 0%float
  | _ => round3 (sumKm (List.map segmentKm (consecutive waypoints)))
  end.

(** [HandleBookingAccepted]; [newID] and [now] are the draws of
    [NewTripTrack], [occurredAt] the later [time.Now().UTC()]. *)
Definition HandleBookingAccepted (newID : uuid) (now occurredAt : Time)
    (event : BookingAcceptedEvent) (w : World) : World * option error :=
  let existing :=
    match FindByBookingID (ba_BookingID event) (w_db w) with
    | inl t => Some t
    | inr _ => None
    end in
  match existing with
  | Some _ => (w, None)
  | None =>
      let track := NewTripTrack newID now (ba_BookingID event) (ba_RunnerID event) in
      match Save track (w_db w) with
      | (db', Some err) =>
          (mkWorld db' (w_broadcast w) (w_published w),
           Some (Wrapf "failed to save trip track: %w" [] err))
      | (db', None) =>
          let startedEvt :=
            {| ts_TrackID := id track;
               ts_BookingID := bookingID track;
               ts_RunnerID := runnerID track;
               ts_StartedAt := startedAt track;
               ts_OccurredAt := occurredAt |} in
          (publish TrackingStarted (DataStarted startedEvt)
             (mkWorld db' (w_broadcast w) (w_published w)),
           None)
      end
  end.

(** [HandleRunnerLocationUpdate]; [wpID] is the [uuid.New()] of
    [NewWaypoint], [createdAt] the clock read by [AddWaypoint]. *)
Definition HandleRunnerLocationUpdate (wpID : uuid) (createdAt occurredAt : Time)
    (event : RunnerLocationUpdateEvent) (w : World) : World * option error :=
  match FindActiveByRunnerID (lu_RunnerID event) (w_db w) with
  | inr _ => (w, None)
  | inl track =>
      match NewWaypoint wpID (lu_Latitude event) (lu_Longitude event)
              (lu_Speed event) (lu_Heading event) (lu_Timestamp event) with
      | (_, Some _) => (w, None)
      | (waypoint, None) =>
          match AddWaypoint createdAt (id track) waypoint (w_db w) with
          | (db', Some err) =>
              (mkWorld db' (w_broadcast w) (w_published w),
               Some (Wrapf "failed to add waypoint: %w" [] err))
          | (db', None) =>
              let update :=
                {| ws.u_BookingID := bookingID track;
                   ws.u_RunnerID := runnerID track;
                   ws.u_Latitude := lu_Latitude event;
                   ws.u_Longitude := lu_Longitude event;
                   ws.u_Speed := lu_Speed event;
                   ws.u_Heading := lu_Heading event;
                   ws.u_Timestamp := lu_Timestamp event |} in
              let updatedEvt :=
                {| tu_TrackID := id track;
                   tu_BookingID := bookingID track;
                   tu_RunnerID := runnerID track;
                   tu_Latitude := lu_Latitude event;
                   tu_Longitude := lu_Longitude event;
                   tu_Speed := lu_Speed event;
                   tu_OccurredAt := occurredAt |} in
              (publish TrackingUpdated (DataUpdated updatedEvt)
                 (hub_Broadcast update
                    (mkWorld db' (w_broadcast w) (w_published w))),
               None)
          end
      end
  end.

(** [HandleDeliveryConfirmed]; [now] is the clock read by [Complete],
    [stamp] the reading of gorm's clock in [Update].
    An error of [GetWaypoints] is only logged; [*track.CompletedAt()] is
    read after a successful [Complete], which has set it. *)
Definition HandleDeliveryConfirmed (now stamp occurredAt : Time)
    (event : DeliveryConfirmedEvent) (w : World) : World * option error :=
  match FindByBookingID (dc_BookingID event) (w_db w) with
  | inr err =>
      (w, Some (Wrapf "tracking not found for booking %s: %w"
                  [ArgUUID (dc_BookingID event)] err))
  | inl track =>
      if negb (IsActive track) then (w, None)
      else
        let '(waypoints, _) := GetWaypoints (id track) (w_db w) in
        let totalDistance := calculateTotalDistance waypoints in
        match Complete now totalDistance track with
        | (_, Some err) =>
            (w, Some (Wrapf "failed to complete tracking: %w" [] err))
        | (track, None) =>
            match Update stamp track (w_db w) with
            | (db', Some err) =>
                (mkWorld db' (w_broadcast w) (w_published w),
                 Some (Wrapf "failed to update tracking: %w" [] err))
            | (db', None) =>
                let completedEvt :=
                  {| tc_TrackID := id track;
                     tc_BookingID := bookingID track;
                     tc_RunnerID := runnerID track;
                     tc_TotalDistance := totalDistance;
                     tc_CompletedAt := default zeroTime (completedAt track);
                     tc_OccurredAt := occurredAt |} in
                (publish TrackingCompleted (DataCompleted completedEvt)
                   (mkWorld db' (w_broadcast w) (w_published w)),
                 None)
            end
        end
  end.

End service.

End application.

(* --------------------------------------------------------------------- *)
(** ** Sample data, used to run the definitions                           *)
(* --------------------------------------------------------------------- *)

Module samples.
Import tracking repository application.

(** A library instance for running the definitions: the small-angle
    readings of the trigonometric functions and a constant float text. *)
Definition small_angle_lib : GoLib :=
  {| math_Sin := fun x => x;
     math_Cos := fun _ => 1%float;
     math_Atan2 := fun y x => (y / x)%float;
     math_Round := fun x => x;
     json_float := fun _ => "0" |}.

(** A database engine without the spatial extension, and one that answers
    with the number of points it was given (no GeoJSON, but enough to see
    what the query hands over). *)
Definition no_postgis : SpatialEngine :=
  {| st_line_geojson := fun _ =>
       (EmptyString, Some (Errorf "function st_makeline does not exist" []));
     st_line_geojson_nil := or_introl (fun e => eq_ind (Some (Errorf "function st_makeline does not exist" [])) (fun o => match o with Some _ => True | None => False end) I None e) |}.

Definition counting_postgis : SpatialEngine :=
  {| st_line_geojson := fun points =>
       (String.concat "," (List.map (fun _ => "point") points), None);
     st_line_geojson_nil := or_intror eq_refl |}.

(** Columns that hold every number as it is given, and columns that
    refuse a number of 10000 or more. *)
Definition wide_columns : Postgres :=
  {| pg_decimal := fun _ _ x => inl x;
     pg_decimal_zero := fun _ _ => eq_refl |}.

Definition narrow_columns : Postgres :=
  {| pg_decimal := fun _ _ x =>
       if (x <? 10000)%float then inl x
       else inr (Errorf "numeric field overflow" []);
     pg_decimal_zero := fun _ _ => eq_refl |}.

(** Envelopes kept as the triple they are built from. *)
Definition plain_kafka : Kafka :=
  {| CloudEvent := string * string * EventData;
     NewCloudEvent := fun source eventType data => inl (source, eventType, data);
     TopicTrackingEvents := "tracking.events" |}.

(** A fresh track of booking 2 and runner 3, and the same track once
    completed. *)
Definition active_track : TripTrack := NewTripTrack 1%N 100%Z 2%N 3%N.
Definition completed_track : TripTrack := fst (Complete 200%Z 5%float active_track).

(** Waypoints along the parallel of latitude 1. *)
Definition wp_a : Waypoint := mkWaypoint 11%N 1%float 1%float 0%float 0%float 110%Z.
Definition wp_b : Waypoint := mkWaypoint 12%N 1%float 2%float 0%float 0%float 120%Z.
Definition wp_c : Waypoint := mkWaypoint 13%N 1%float 3%float 0%float 0%float 130%Z.

(** A database that holds [active_track] and nothing else. *)
Definition db_one_active : DB := mkDB [toModel active_track] [].

(** The same with three waypoint rows of the track, stored out of time
    order. *)
Definition row_of (wp : Waypoint) : WaypointModel :=
  mkWaypointModel (wp_ID wp) 1%N (wp_Latitude wp) (wp_Longitude wp)
    (wp_Speed wp) (wp_Heading wp) (wp_RecordedAt wp) 500%Z.
Definition db_with_route : DB :=
  mkDB [toModel active_track] [row_of wp_b; row_of wp_c; row_of wp_a].

(** Sample worlds: the empty one, and the sample database with nothing
    queued or published. *)
Definition empty_world : @World plain_kafka := @mkWorld plain_kafka (mkDB [] []) [] [].
Definition quiet_world : @World plain_kafka := @mkWorld plain_kafka db_one_active [] [].

(** A hub with one room, of booking 2: client 1 with a full queue and
    client 2 with an empty one. *)
Definition slow_client : ws.Client :=
  ws.mkClient 2%N (ws.mkChan ["m1"; "m2"] 2 false).
Definition ready_client : ws.Client := ws.mkClient 2%N (ws.make_chan 2).
Definition sample_hub : ws.Hub :=
  ws.mkHub {[ 2%N := {[ 1%positive ]} ∪ {[ 2%positive ]} ]}
           (<[ 1%positive := slow_client ]> (<[ 2%positive := ready_client ]> ∅)).

End samples.

(* --------------------------------------------------------------------- *)
(** ** Callers of the aggregate and invariants of the tables              *)
(* --------------------------------------------------------------------- *)

Module lifecycle.
Import tracking repository.

(** A call of one of the three mutating methods of [TripTrack], with the
    clock value it reads.  A caller that goes on after an error keeps the
    receiver, which the failed call has left as it was. *)
Inductive call : Type :=
| CallComplete (now : Time) (totalDistanceKm : float64)
| CallCancel (now : Time)
| CallIncrementVersion (now : Time).

Definition invoke (t : TripTrack) (c : call) : TripTrack :=
  match c with
  | CallComplete now km => fst (Complete now km t)
  | CallCancel now => fst (Cancel now t)
  | CallIncrementVersion now => IncrementVersion now t
  end.

Definition invoke_all (calls : list call) (t : TripTrack) : TripTrack :=
  List.fold_left invoke calls t.

Definition is_increment (c : call) : bool :=
  match c with CallIncrementVersion _ => true | _ => false end.

(** The shapes a track can have: active and not yet completed, completed
    with its completion time, cancelled without one. *)
Definition track_shape (t : TripTrack) : Prop :=
  (status t = TrackingActive /\ completedAt t = None
   /\ totalDistanceKm t = 0%float) \/
  (status t = TrackingCompleted /\ exists at_, completedAt t = Some at_) \/
  (status t = TrackingCancelled /\ completedAt t = None
   /\ totalDistanceKm t = 0%float).

(** What [AddWaypoint] inserts, as a row. *)
Definition waypoint_row (createdAt : Time) (trackID : uuid) (wp : Waypoint)
    : WaypointModel :=
  mkWaypointModel (wp_ID wp) trackID (wp_Latitude wp) (wp_Longitude wp)
    (wp_Speed wp) (wp_Heading wp) (wp_RecordedAt wp) createdAt.

(** The constraints of the schema on a database state: the primary key of
    [trip_tracks] ([pk_unique]), [booking_id UNIQUE], the primary key of
    [waypoints] and the foreign key of [waypoints.trip_track_id]. *)
Definition booking_unique (db : DB) : Prop :=
  List.NoDup (List.map m_BookingID (trip_tracks db)).

Definition waypoint_pk_unique (db : DB) : Prop :=
  List.NoDup (List.map wm_ID (waypoints db)).

Definition waypoint_fk (db : DB) : Prop :=
  forall w, List.In w (waypoints db) ->
    exists r, List.In r (trip_tracks db) /\ m_ID r = wm_TripTrackID w.

Definition constraints_hold (db : DB) : Prop :=
  pk_unique db /\ booking_unique db /\ waypoint_pk_unique db /\ waypoint_fk db.

(** The speed and the heading that [NewWaypoint] stores. *)
Definition stored_speed (speed : float64) : float64 :=
  if (speed <? 0)%float then 0%float else speed.
Definition stored_heading (heading : float64) : float64 :=
  if (heading <? 0)%float || (360 <? heading)%float then 0%float else heading.

End lifecycle.

(* --------------------------------------------------------------------- *)
(** ** Package [application]: the read side of the tracking service      *)
(* --------------------------------------------------------------------- *)

Module queries.
Import tracking repository.

Record WaypointDTO : Type := mkWaypointDTO {
  dto_ID : uuid;
  dto_Latitude : float64;
  dto_Longitude : float64;
  dto_Speed : float64;
  dto_Heading : float64;
  dto_RecordedAt : Time
}.

Record TrackingDTO : Type := mkTrackingDTO {
  dto_TrackID : uuid;
  dto_BookingID : uuid;
  dto_RunnerID : uuid;
  dto_Status : string;
  dto_TotalDistanceKm : float64;
  dto_StartedAt : Time;
  dto_CompletedAt : option Time;
  dto_Waypoints : list WaypointDTO
}.

(** The errors of the read side: [domain.NewNotFoundError(resource, id)] of
    [lib-common], or an error of the layers below. *)
Inductive query_error : Type :=
| NotFoundError (resource : string) (id : uuid)
| QueryFailed (err : error).

(** [GetTracking].  An error of [GetWaypoints] is logged and leaves the
    waypoints [nil]. *)
Definition GetTracking (bookingID : uuid) (db : DB) : TrackingDTO + query_error :=
  match FindByBookingID bookingID db with
  | inr _ => inr (NotFoundError "tracking" bookingID)
  | inl track =>
      let waypoints :=
        match GetWaypoints (id track) db with
        | (_, Some _) => []
        | (waypoints, None) => waypoints
        end in
      let waypointDTOs :=
        List.map (fun wp =>
          {| dto_ID := wp_ID wp;
             dto_Latitude := wp_Latitude wp;
             dto_Longitude := wp_Longitude wp;
             dto_Speed := wp_Speed wp;
             dto_Heading := wp_Heading wp;
             dto_RecordedAt := wp_RecordedAt wp |}) waypoints in
      inl {| dto_TrackID := id track;
             dto_BookingID := tracking.bookingID track;
             dto_RunnerID := runnerID track;
             dto_Status := status track;
             dto_TotalDistanceKm := totalDistanceKm track;
             dto_StartedAt := startedAt track;
             dto_CompletedAt := completedAt track;
             dto_Waypoints := waypointDTOs |}
  end.

(** [GetRouteGeoJSON] of the service. *)
Definition GetRouteGeoJSON `{GoLib} `{SpatialEngine} (bookingID : uuid) (db : DB)
    : string * option query_error :=
  match FindByBookingID bookingID db with
  | inr _ => (EmptyString, Some (NotFoundError "tracking" bookingID))
  | inl track =>
      match GetRouteAsGeoJSON (id track) db with
      | (_, Some err) =>
          (EmptyString,
           Some (QueryFailed (Wrapf "failed to get route GeoJSON: %w" [] err)))
      | (geoJSON, None) => (geoJSON, None)
      end
  end.

End queries.
(* --------------------------------------------------------------------- *)
(** ** Package [ws]: connections and the write pump                       *)
(* --------------------------------------------------------------------- *)

Module session.
Import ws.

(** The client that [HandleWebSocket] builds after the upgrade:
    [&ws.Client{Conn: conn, BookingID: bookingID, Send: make(chan []byte, 256)}]. *)
Definition new_client (bookingID : uuid) : Client :=
  mkClient bookingID (make_chan 256).

(** A receive [message, ok := <-ch]: the oldest queued message with [ok]
    true, also on a closed channel that still holds messages; the zero
    value with [ok] false on a closed and empty channel; nothing ([None])
    while the channel is open and empty. *)
Definition recv (ch : Chan) : option (option bytes * Chan) :=
  match ch_buf ch with
  | message :: rest => Some (Some message, mkChan rest (ch_cap ch) (ch_closed ch))
  | [] => if ch_closed ch then Some (None, ch) else None
  end.

Definition newline : bytes := String (ascii_of_nat 10) EmptyString.

(** The loop [for i := 0; i < n; i++ { w.Write("\n"); w.Write(<-c.Send) }]
    of [WritePump], on the text written so far.  A receive from a closed
    and empty channel gives the empty message; on a receive that would
    block, the loop stops behind the newline it has written. *)
Fixpoint drain (n : nat) (written : bytes) (ch : Chan) : bytes * Chan :=
  match n with
  | O => (written, ch)
  | S n' =>
      match recv ch with
      | Some (Some message, ch') => drain n' (written +:+ newline +:+ message) ch'
      | Some (None, ch') => drain n' (written +:+ newline) ch'
      | None => (written +:+ newline, ch)
      end
  end.

(** One turn of the loop of [WritePump] on the [c.Send] case of its
    [select].  [nextWriterOk] and [closeOk] tell whether
    [c.Conn.NextWriter] and [w.Close] succeed. *)
Inductive pump_turn : Type :=
| PumpWaits
| PumpCloses
| PumpWriterFailed (ch : Chan)
| PumpWrote (frame : bytes) (ch : Chan) (continues : bool).

Definition WritePump_turn (nextWriterOk closeOk : bool) (ch : Chan) : pump_turn :=
  match recv ch with
  | None => PumpWaits
  | Some (None, _) => PumpCloses
  | Some (Some message, ch1) =>
      if negb nextWriterOk then PumpWriterFailed ch1
      else
        let n := length (ch_buf ch1) in
        let '(frame, ch2) := drain n message ch1 in
        PumpWrote frame ch2 closeOk
  end.

(** The queue of a client after a turn of its write pump. *)
Definition pumped (nextWriterOk closeOk : bool) (c : Client) : Client :=
  match WritePump_turn nextWriterOk closeOk (c_Send c) with
  | PumpWriterFailed ch => mkClient (c_BookingID c) ch
  | PumpWrote _ ch _ => mkClient (c_BookingID c) ch
  | _ => c
  end.

(** What reaches the hub and its clients: a connection being accepted
    ([HandleWebSocket]: a new client, then [hub.Register]), the
    [hub.Unregister] of a read pump that ends, a message on one of the two
    broadcast channels, and a turn of a client's write pump. *)
Inductive input : Type :=
| Connect (client : ClientPtr) (bookingID : uuid)
| Disconnect (client : ClientPtr)
| Location (update : TrackingUpdate)
| Chat (chatMsg : ChatMessage)
| Pump (client : ClientPtr) (nextWriterOk closeOk : bool).

Definition serve `{WireFormat} (h : Hub) (i : input) : option Hub :=
  match i with
  | Connect client bookingID =>
      Run_step (MsgRegister client)
        (mkHub (rooms h) (<[client := new_client bookingID]> (heap h)))
  | Disconnect client => Run_step (MsgUnregister client) h
  | Location update => Run_step (MsgBroadcast update) h
  | Chat chatMsg => Run_step (MsgChat chatMsg) h
  | Pump client nextWriterOk closeOk =>
      Some (mkHub (rooms h) (alter (pumped nextWriterOk closeOk) client (heap h)))
  end.

Fixpoint serve_all `{WireFormat} (inputs : list input) (h : Hub) : option Hub :=
  match inputs with
  | [] => Some h
  | i :: rest =>
      match serve h i with
      | None => None
      | Some h' => serve_all rest h'
      end
  end.

(** The addresses in a sequence of inputs make sense: a connection gets an
    address that no client has yet, and a read pump unregisters a client
    that exists. *)
Fixpoint addressed (inputs : list input) (allocated : gset ClientPtr) : Prop :=
  match inputs with
  | [] => True
  | Connect client _ :: rest =>
      (client ∉ allocated) /\ addressed rest ({[client]} ∪ allocated)
  | Disconnect client :: rest => (client ∈ allocated) /\ addressed rest allocated
  | _ :: rest => addressed rest allocated
  end.

(** No queue holds more messages than its capacity. *)
Definition queues_bounded (h : Hub) : Prop :=
  forall client c, heap h !! client = Some c ->
    (length (ch_buf (c_Send c)) <= ch_cap (c_Send c))%nat.

(** Several messages broadcast to a room, one after the other. *)
Fixpoint broadcast_all (bookingID : uuid) (msgs : list bytes) (h : Hub) : option Hub :=
  match msgs with
  | [] => Some h
  | data :: rest =>
      match broadcastToRoom bookingID data h with
      | None => None
      | Some h' => broadcast_all bookingID rest h'
      end
  end.

End session.

(** Sample values of the [ws] package. *)
Module session_samples.
Import ws session.

(** A wire format that keeps the content of a chat message and writes a
    fixed text for a location update. *)
Definition plain_wire : WireFormat :=
  {| marshal_location_update := fun _ => inl "location_update";
     marshal_chat_message := fun chatMsg => inl (cm_Content chatMsg) |}.

Definition update_of_booking (bookingID : uuid) : TrackingUpdate :=
  mkTrackingUpdate bookingID 3%N 1%float 2%float 0%float 0%float 299%Z.

Definition chat_of_booking (bookingID : uuid) (content : string) : ChatMessage :=
  mkChatMessage "chat_message" bookingID 70%N 4%N "owner" "text" content 300%Z.

(** Two viewers of booking 2 connect, a location and a chat message are
    broadcast, the first viewer's pump runs, the first viewer leaves twice
    over (its read pump ends after the hub was told once already), and
    another location is broadcast. *)
Definition busy_session : list input :=
  [Connect 1%positive 2%N; Connect 2%positive 2%N;
   Location (update_of_booking 2%N); Chat (chat_of_booking 2%N "hello");
   Pump 1%positive true true; Disconnect 1%positive; Disconnect 1%positive;
   Location (update_of_booking 2%N)].

End session_samples.
(* --------------------------------------------------------------------- *)
(** ** Package [chat] and the chat service                                *)
(* --------------------------------------------------------------------- *)

Module chat.

Definition MessageType : Type := string.
Definition MessageTypeText : MessageType := "text".
Definition MessageTypeImage : MessageType := "image".
Definition MessageTypeQuickReply : MessageType := "quick_reply".

(** [IsValid]. *)
Definition IsValid (m : MessageType) : bool :=
  String.eqb m MessageTypeText || String.eqb m MessageTypeImage
  || String.eqb m MessageTypeQuickReply.

Record ChatMessage : Type := mkMessage {
  msg_id : uuid;
  msg_bookingID : uuid;
  msg_senderID : uuid;
  msg_senderRole : string;
  msg_msgType : MessageType;
  msg_content : string;
  msg_createdAt : Time
}.

(** The errors that [SendMessage] returns: the two [fmt.Errorf] values of
    [NewChatMessage], [invalid message type: %s] with its argument and
    [message content is required], and the error of the repository, which
    is passed on as it is. *)
Inductive chat_error : Type :=
| InvalidMessageType (msgType : MessageType)
| ContentRequired
| RepositoryError (err : error).

(** [NewChatMessage]; [id] is the value drawn by [uuid.New()] and [now] the
    clock. *)
Definition NewChatMessage (id : uuid) (now : Time) (bookingID senderID : uuid)
    (senderRole : string) (msgType : MessageType) (content : string)
    : ChatMessage + chat_error :=
  if negb (IsValid msgType) then inr (InvalidMessageType msgType)
  else if String.eqb content EmptyString then inr ContentRequired
  else inl (mkMessage id bookingID senderID senderRole msgType content now).

(** [Reconstruct]. *)
Definition Reconstruct (id bookingID senderID : uuid) (senderRole : string)
    (msgType : MessageType) (content : string) (createdAt : Time) : ChatMessage :=
  mkMessage id bookingID senderID senderRole msgType content createdAt.

(** The interface [ChatRepository], over the state of its implementation.
    [FindByBookingID] returns the messages, the total and the error. *)
Class ChatRepository : Type := {
  chat_store : Type;
  chat_Save : ChatMessage -> chat_store -> chat_store * option error;
  chat_FindByBookingID :
    uuid -> Z -> Z -> chat_store -> list ChatMessage * Z * option error
}.

End chat.

Module chat_application.
Import chat.

Record SendMessageRequest : Type := mkSendMessageRequest {
  req_MessageType : string;
  req_Content : string
}.

Record ChatMessageDTO : Type := mkChatMessageDTO {
  cd_ID : uuid;
  cd_BookingID : uuid;
  cd_SenderID : uuid;
  cd_SenderRole : string;
  cd_MsgType : string;
  cd_Content : string;
  cd_CreatedAt : Time
}.

Definition toChatDTO (m : ChatMessage) : ChatMessageDTO :=
  {| cd_ID := msg_id m;
     cd_BookingID := msg_bookingID m;
     cd_SenderID := msg_senderID m;
     cd_SenderRole := msg_senderRole m;
     cd_MsgType := msg_msgType m;
     cd_Content := msg_content m;
     cd_CreatedAt := msg_createdAt m |}.

Section service.
Context `{ChatRepository}.

(** What the chat service acts on: the state of its repository and the
    messages sent on the hub's [chatBcast] channel, oldest first. *)
Record ChatWorld : Type := mkChatWorld {
  cw_store : chat_store;
  cw_chatBcast : list ws.ChatMessage
}.

(** [hub.BroadcastChat]. *)
Definition hub_BroadcastChat (chatMsg : ws.ChatMessage) (w : ChatWorld) : ChatWorld :=
  mkChatWorld (cw_store w) (cw_chatBcast w ++ [chatMsg]).

(** [SendMessage]; [newID] and [now] are the id and the clock read by
    [NewChatMessage]. *)
Definition SendMessage (newID : uuid) (now : Time) (bookingID senderID : uuid)
    (senderRole : string) (req : SendMessageRequest) (w : ChatWorld)
    : ChatWorld * (ChatMessageDTO + chat_error) :=
  match NewChatMessage newID now bookingID senderID senderRole
          (req_MessageType req) (req_Content req) with
  | inr err => (w, inr err)
  | inl msg =>
      match chat_Save msg (cw_store w) with
      | (store', Some err) =>
          (mkChatWorld store' (cw_chatBcast w), inr (RepositoryError err))
      | (store', None) =>
          (hub_BroadcastChat
             {| ws.cm_Type := "chat_message";
                ws.cm_BookingID := bookingID;
                ws.cm_MessageID := msg_id msg;
                ws.cm_SenderID := senderID;
                ws.cm_SenderRole := senderRole;
                ws.cm_MsgType := msg_msgType msg;
                ws.cm_Content := msg_content msg;
                ws.cm_CreatedAt := msg_createdAt msg |}
             (mkChatWorld store' (cw_chatBcast w)),
           inl (toChatDTO msg))
      end
  end.

(** [GetMessages]; [page] and [limit] are Go [int]s, 64 bits wide. *)
Definition GetMessages (bookingID : uuid) (page limit : Z) (store : chat_store)
    : list ChatMessageDTO * Z * option error :=
  let offset := wrap64 (wrap64 (page - 1) * limit) in
  match chat_FindByBookingID bookingID limit offset store with
  | (_, _, Some err) => ([], 0%Z, Some err)
  | (messages, total, None) => (List.map toChatDTO messages, total, None)
  end.

End service.

(** [parseChatPagination] of the chat handler, on the two integers that
    [strconv.Atoi] returns for the query parameters; its error is dropped. *)
Definition parseChatPagination (page limit : Z) : Z * Z :=
  let page := if (page <? 1)%Z then 1%Z else page in
  let limit := if (limit <? 1)%Z then 50%Z else limit in
  let limit := if (100 <? limit)%Z then 100%Z else limit in
  (page, limit).

End chat_application.

(* --------------------------------------------------------------------- *)
(** ** Package [share] and the share service                              *)
(* --------------------------------------------------------------------- *)

Module share.

Record SharedTrip : Type := mkSharedTrip {
  st_id : uuid;
  st_bookingID : uuid;
  st_shareToken : string;
  st_expiresAt : Time;
  st_createdAt : Time
}.

(** [time.Hour]: a [time.Duration] counts nanoseconds, and so do the
    instants of this package. *)
Definition time_Hour : Z := 3600000000000%Z.

(** [hex.EncodeToString]: two lower-case digits per byte, the high half
    first. *)
Definition hextable (v : N) : ascii :=
  match v with
  | 0 => "0" | 1 => "1" | 2 => "2" | 3 => "3" | 4 => "4" | 5 => "5"
  | 6 => "6" | 7 => "7" | 8 => "8" | 9 => "9" | 10 => "a" | 11 => "b"
  | 12 => "c" | 13 => "d" | 14 => "e" | _ => "f"
  end%N%char.

Fixpoint hex_EncodeToString (src : list N) : string :=
  match src with
  | [] => EmptyString
  | v :: rest =>
      String (hextable (N.shiftr v 4))
        (String (hextable (N.land v 15)) (hex_EncodeToString rest))
  end.

(** [generateToken]; [entropy] is the buffer of 16 bytes as [rand.Read]
    leaves it, or the error of [rand.Read]. *)
Definition generateToken (entropy : list N + error) : string + error :=
  match entropy with
  | inr err => inr err
  | inl b => inl (hex_EncodeToString b)
  end.

(** [NewSharedTrip]; [id] is the value drawn by [uuid.New()] and [now] the
    clock. *)
Definition NewSharedTrip (entropy : list N + error) (id : uuid) (now : Time)
    (bookingID : uuid) : SharedTrip + error :=
  match generateToken entropy with
  | inr err => inr err
  | inl token =>
      inl (mkSharedTrip id bookingID token (now + 24 * time_Hour)%Z now)
  end.

(** [Reconstruct]. *)
Definition Reconstruct (id bookingID : uuid) (shareToken : string)
    (expiresAt createdAt : Time) : SharedTrip :=
  mkSharedTrip id bookingID shareToken expiresAt createdAt.

(** [IsExpired] at the instant [now]: [now.After(expiresAt)]. *)
Definition IsExpired (now : Time) (s : SharedTrip) : bool :=
  (st_expiresAt s <? now)%Z.

(** The interface [SharedTripRepository], over the state of its
    implementation. *)
Class SharedTripRepository : Type := {
  share_store : Type;
  share_Save : SharedTrip -> share_store -> share_store * option error;
  share_FindByToken : string -> share_store -> SharedTrip + error;
  share_FindByBookingID : uuid -> share_store -> SharedTrip + error
}.

End share.

Module share_application.
Import tracking repository share.

Record SharedTripDTO : Type := mkSharedTripDTO {
  sd_ID : uuid;
  sd_BookingID : uuid;
  sd_ShareToken : string;
  sd_ShareURL : string;
  sd_ExpiresAt : Time
}.

(** [WaypointDTO] as it is declared beside the share service: a waypoint
    without its id. *)
Record SharedWaypointDTO : Type := mkSharedWaypointDTO {
  sw_Latitude : float64;
  sw_Longitude : float64;
  sw_Speed : float64;
  sw_Heading : float64;
  sw_RecordedAt : Time
}.

Record SharedTrackingDTO : Type := mkSharedTrackingDTO {
  sh_BookingID : uuid;
  sh_Status : string;
  sh_Waypoints : list SharedWaypointDTO;
  sh_ExpiresAt : Time
}.

Definition shared_waypoint (wp : Waypoint) : SharedWaypointDTO :=
  {| sw_Latitude := wp_Latitude wp;
     sw_Longitude := wp_Longitude wp;
     sw_Speed := wp_Speed wp;
     sw_Heading := wp_Heading wp;
     sw_RecordedAt := wp_RecordedAt wp |}.

Section service.
Context `{SharedTripRepository}.

(** [CreateShareLink]. *)
Definition CreateShareLink (entropy : list N + error) (id : uuid) (now : Time)
    (bookingID : uuid) (store : share_store)
    : share_store * (SharedTripDTO + error) :=
  match NewSharedTrip entropy id now bookingID with
  | inr err => (store, inr (Wrapf "failed to create share link: %w" [] err))
  | inl st =>
      match share_Save st store with
      | (store', Some err) =>
          (store', inr (Wrapf "failed to save share link: %w" [] err))
      | (store', None) =>
          (store',
           inl {| sd_ID := st_id st;
                  sd_BookingID := st_bookingID st;
                  sd_ShareToken := st_shareToken st;
                  sd_ShareURL := "/api/v1/tracking/shared/" +:+ st_shareToken st;
                  sd_ExpiresAt := st_expiresAt st |})
      end
  end.

(** [GetSharedTracking]; [now] is the clock read by [IsExpired]. *)
Definition GetSharedTracking (now : Time) (token : string) (store : share_store)
    (db : DB) : SharedTrackingDTO + error :=
  match share_FindByToken token store with
  | inr _ => inr (Errorf "share link not found" [])
  | inl st =>
      if IsExpired now st then inr (Errorf "share link has expired" [])
      else
        match FindByBookingID (st_bookingID st) db with
        | inr _ => inr (Errorf "tracking data not found" [])
        | inl track =>
            match GetWaypoints (tracking.id track) db with
            | (_, Some err) => inr (Wrapf "failed to get waypoints: %w" [] err)
            | (waypoints, None) =>
                inl {| sh_BookingID := st_bookingID st;
                       sh_Status := status track;
                       sh_Waypoints := List.map shared_waypoint waypoints;
                       sh_ExpiresAt := st_expiresAt st |}
            end
        end
  end.

End service.

End share_application.

(** Sample values of the chat and share packages. *)
Module service_samples.
Import tracking repository chat share samples.

(** Repositories kept in a list, for running the definitions: the primary
    key is checked on insertion and, for shared trips, the unique token. *)
Definition list_chat_repo : ChatRepository :=
  {| chat_store := list ChatMessage;
     chat_Save := fun msg store =>
       if existsb (fun m => (msg_id m =? msg_id msg)%N) store
       then (store, Some (ErrConstraint "chat_messages_pkey"))
       else (store ++ [msg], None);
     chat_FindByBookingID := fun bookingID limit offset store =>
       let found :=
         List.filter (fun m => (msg_bookingID m =? bookingID)%N) store in
       (List.firstn (Z.to_nat limit) (List.skipn (Z.to_nat offset) found),
        Z.of_nat (length found), None) |}.

Definition list_share_repo : SharedTripRepository :=
  {| share_store := list SharedTrip;
     share_Save := fun st store =>
       if existsb (fun s => (st_id s =? st_id st)%N) store
       then (store, Some (ErrConstraint "shared_trips_pkey"))
       else if existsb (fun s => String.eqb (st_shareToken s) (st_shareToken st)) store
       then (store, Some (ErrConstraint "idx_shared_trips_share_token"))
       else (store ++ [st], None);
     share_FindByToken := fun token store =>
       match List.find (fun s => String.eqb (st_shareToken s) token) store with
       | Some st => inl st
       | None => inr ErrNotFound
       end;
     share_FindByBookingID := fun bookingID store =>
       match List.find (fun s => (st_bookingID s =? bookingID)%N) (List.rev store) with
       | Some st => inl st
       | None => inr ErrNotFound
       end |}.

(** Sixteen bytes of entropy. *)
Definition sixteen_bytes : list N :=
  [0; 1; 2; 3; 4; 5; 6; 7; 8; 9; 10; 171; 205; 239; 254; 255]%N.

(** A waypoint whose latitude is not a number, and a database that holds
    it for [active_track]. *)
Definition wp_nan : Waypoint := mkWaypoint 14%N nan 1%float 0%float 0%float 140%Z.
Definition db_with_nan : DB := mkDB [toModel active_track] [row_of wp_nan].

End service_samples.

(* --------------------------------------------------------------------- *)
(** ** The other repositories                                             *)
(* --------------------------------------------------------------------- *)


(** The conversions of [chat_repository.go] and [share_repository.go]. *)
Module chat_repository.
Import chat.

Record ChatMessageModel : Type := mkChatMessageModel {
  cmm_ID : uuid;
  cmm_BookingID : uuid;
  cmm_SenderID : uuid;
  cmm_SenderRole : string;
  cmm_MsgType : string;
  cmm_Content : string;
  cmm_CreatedAt : Time
}.

Definition toChatModel (m : ChatMessage) : ChatMessageModel :=
  {| cmm_ID := msg_id m;
     cmm_BookingID := msg_bookingID m;
     cmm_SenderID := msg_senderID m;
     cmm_SenderRole := msg_senderRole m;
     cmm_MsgType := msg_msgType m;
     cmm_Content := msg_content m;
     cmm_CreatedAt := msg_createdAt m |}.

Definition toChatDomain (m : ChatMessageModel) : ChatMessage :=
  chat.Reconstruct (cmm_ID m) (cmm_BookingID m) (cmm_SenderID m) (cmm_SenderRole m)
    (cmm_MsgType m) (cmm_Content m) (cmm_CreatedAt m).

End chat_repository.

Module share_repository.
Import share.

Record SharedTripModel : Type := mkSharedTripModel {
  stm_ID : uuid;
  stm_BookingID : uuid;
  stm_ShareToken : string;
  stm_ExpiresAt : Time;
  stm_CreatedAt : Time
}.

Definition toShareModel (s : SharedTrip) : SharedTripModel :=
  {| stm_ID := st_id s;
     stm_BookingID := st_bookingID s;
     stm_ShareToken := st_shareToken s;
     stm_ExpiresAt := st_expiresAt s;
     stm_CreatedAt := st_createdAt s |}.

Definition toShareDomain (m : SharedTripModel) : SharedTrip :=
  share.Reconstruct (stm_ID m) (stm_BookingID m) (stm_ShareToken m)
    (stm_ExpiresAt m) (stm_CreatedAt m).

End share_repository.


(* ===================================================================== *)
(** * Part II. Properties                                                 *)
(* ===================================================================== *)

(** ** Order facts on binary64 floats *)

Section float_order.

Lemma SFcompare_antisym (x y : spec_float) :
  SFcompare y x = option_map CompOpp (SFcompare x y).
Proof.
  destruct x as [sx|sx| |sx mx ex], y as [sy|sy| |sy my ey]; simpl;
    try reflexivity;
    try (destruct sx; reflexivity); try (destruct sy; reflexivity);
    try (destruct sx, sy; reflexivity).
  destruct sx, sy; simpl; try reflexivity;
    rewrite (Z.compare_antisym ex ey);
    destruct (ex ?= ey)%Z eqn:E; simpl; try reflexivity;
    rewrite (Pos.compare_cont_antisym mx my Eq); simpl;
    destruct (Pos.compare_cont Eq my mx); reflexivity.
Qed.

(** [x <= y] excludes [y < x]. *)
Lemma float_leb_ltb (x y : float64) :
  (x <=? y)%float = true -> (y <? x)%float = false.
Proof.
  rewrite leb_spec, ltb_spec. unfold SFleb, SFltb.
  rewrite (SFcompare_antisym (Prim2SF x) (Prim2SF y)).
  destruct (SFcompare (Prim2SF x) (Prim2SF y)) as [[]|]; simpl; congruence.
Qed.

End float_order.

(** ** The trip-track aggregate *)

Module tracking_props.
Import tracking samples.

Lemma status_active_eqb (t : TripTrack) :
  status t = TrackingActive -> String.eqb (status t) TrackingActive = true.
Proof. intros ->. apply String.eqb_refl. Qed.

Lemma status_inactive_eqb (t : TripTrack) :
  status t <> TrackingActive -> String.eqb (status t) TrackingActive = false.
Proof. intros Hne. now apply String.eqb_neq. Qed.

Lemma wrap64_succ (v : Z) :
  (- 2 ^ 63 <= v < 2 ^ 63 - 1)%Z -> wrap64 (v + 1) = (v + 1)%Z.
Proof.
  intros Hv. unfold wrap64.
  rewrite Z.mod_small; lia.
Qed.

(** What [Complete] does on an active track: it succeeds, sets the status
    to completed, stores the distance, sets the completion time (and the
    update time) to the clock value and assigns no other field, the version
    counter included. *)
Lemma Complete_active (t : TripTrack) (now : Time) (distanceKm : float64) :
  status t = TrackingActive ->
  snd (Complete now distanceKm t) = None /\
  (let t' := fst (Complete now distanceKm t) in
   status t' = TrackingCompleted /\
   totalDistanceKm t' = distanceKm /\
   completedAt t' = Some now /\
   updatedAt t' = now /\
   version t' = version t /\
   id t' = id t /\ bookingID t' = bookingID t /\ runnerID t' = runnerID t /\
   startedAt t' = startedAt t /\ createdAt t' = createdAt t).
Proof.
  intros Hact. unfold Complete.
  rewrite (status_active_eqb t Hact). simpl.
  repeat split; reflexivity.
Qed.

(** The version counter moves in [IncrementVersion], by one. *)
Lemma IncrementVersion_bumps (t : TripTrack) (now : Time) :
  version (IncrementVersion now t) = wrap64 (version t + 1) /\
  ((- 2 ^ 63 <= version t < 2 ^ 63 - 1)%Z ->
   version (IncrementVersion now t) = (version t + 1)%Z).
Proof.
  split; [reflexivity |]. intros Hv. now apply wrap64_succ.
Qed.

(** C1 on a fresh track.  Completing an active track of version 1 succeeds,
    sets the status, the distance and the completion time, and leaves the
    version at 1: the counter is not incremented. *)
Theorem Complete_keeps_version :
  status active_track = TrackingActive /\
  version active_track = 1%Z /\
  snd (Complete 200%Z 5%float active_track) = None /\
  status (fst (Complete 200%Z 5%float active_track)) = TrackingCompleted /\
  totalDistanceKm (fst (Complete 200%Z 5%float active_track)) = 5%float /\
  completedAt (fst (Complete 200%Z 5%float active_track)) = Some 200%Z /\
  version (fst (Complete 200%Z 5%float active_track)) = 1%Z /\
  version (fst (Complete 200%Z 5%float active_track)) <> (version active_track + 1)%Z.
Proof. repeat split; try reflexivity. vm_compute. discriminate. Qed.

(** C5.  On a track that is not active, [Complete] and [Cancel] return the
    invalid-state error that carries the current status and the target
    status, and the track they leave is the track they were given. *)
Theorem transition_inactive (t : TripTrack) (now : Time) (distanceKm : float64) :
  status t <> TrackingActive ->
  Complete now distanceKm t = (t, Some (InvalidStateError (status t) TrackingCompleted)) /\
  Cancel now t = (t, Some (InvalidStateError (status t) TrackingCancelled)).
Proof.
  intros Hne. unfold Complete, Cancel.
  rewrite (status_inactive_eqb t Hne). split; reflexivity.
Qed.

Lemma transition_inactive_witness :
  Complete 300%Z 9%float completed_track
    = (completed_track, Some (InvalidStateError "completed" "completed")) /\
  Cancel 300%Z completed_track
    = (completed_track, Some (InvalidStateError "completed" "cancelled")).
Proof.
  apply (transition_inactive completed_track 300%Z 9%float).
  vm_compute. discriminate.
Defined.

(** A track is completed or cancelled at most once. *)
Lemma Complete_twice (t t' : TripTrack) (now now' : Time) (d d' : float64) :
  Complete now d t = (t', None) ->
  Complete now' d' t' = (t', Some (InvalidStateError TrackingCompleted TrackingCompleted)).
Proof.
  unfold Complete. destruct (String.eqb (status t) TrackingActive); simpl.
  - intros [= <-]. reflexivity.
  - discriminate.
Qed.

Lemma Cancel_twice (t t' : TripTrack) (now now' : Time) :
  Cancel now t = (t', None) ->
  Cancel now' t' = (t', Some (InvalidStateError TrackingCancelled TrackingCancelled)).
Proof.
  unfold Cancel. destruct (String.eqb (status t) TrackingActive); simpl.
  - intros [= <-]. reflexivity.
  - discriminate.
Qed.

End tracking_props.

(** ** Waypoint validation *)

Module waypoint_props.
Import tracking samples.

Lemma lat_inside_test (lat : float64) :
  lat_inside lat -> (lat <? -90)%float || (90 <? lat)%float = false.
Proof.
  intros [Hlo Hhi].
  now rewrite (float_leb_ltb _ _ Hlo), (float_leb_ltb _ _ Hhi).
Qed.

Lemma lng_inside_test (lng : float64) :
  lng_inside lng -> (lng <? -180)%float || (180 <? lng)%float = false.
Proof.
  intros [Hlo Hhi].
  now rewrite (float_leb_ltb _ _ Hlo), (float_leb_ltb _ _ Hhi).
Qed.

Lemma NewWaypoint_outside (id : uuid) (lat lng speed heading : float64) (at_ : Time) :
  lat_outside lat \/ lng_outside lng ->
  exists err, NewWaypoint id lat lng speed heading at_ = (Waypoint_zero, Some err).
Proof.
  unfold NewWaypoint, lat_outside, lng_outside.
  intros [[H | H] | [H | H]].
  - rewrite H. simpl. eauto.
  - rewrite H, orb_true_r. eauto.
  - destruct ((lat <? -90)%float || (90 <? lat)%float); [eauto |].
    rewrite H. simpl. eauto.
  - destruct ((lat <? -90)%float || (90 <? lat)%float); [eauto |].
    rewrite H, orb_true_r. eauto.
Qed.

Lemma NewWaypoint_inside (id : uuid) (lat lng speed heading : float64) (at_ : Time) :
  lat_inside lat -> lng_inside lng ->
  NewWaypoint id lat lng speed heading at_ =
    (mkWaypoint id lat lng
       (if (speed <? 0)%float then 0%float else speed)
       (if (heading <? 0)%float || (360 <? heading)%float then 0%float else heading)
       at_, None).
Proof.
  intros Hlat Hlng. unfold NewWaypoint.
  now rewrite (lat_inside_test lat Hlat), (lng_inside_test lng Hlng).
Qed.

(** C3, as the code has it.  A latitude outside [-90,90] or a longitude
    outside [-180,180] gives an error; a pair inside the ranges gives a
    waypoint with these coordinates, in which a negative speed is replaced
    by 0 and a heading below 0 or above 360 is replaced by 0, while a
    speed that is not negative and a heading in the closed range [0,360],
    360 included, are kept. *)
Theorem NewWaypoint_validation (id : uuid) (lat lng speed heading : float64)
    (recordedAt : Time) :
  (lat_outside lat \/ lng_outside lng ->
   exists err, snd (NewWaypoint id lat lng speed heading recordedAt) = Some err) /\
  (lat_inside lat -> lng_inside lng ->
   let r := NewWaypoint id lat lng speed heading recordedAt in
   snd r = None /\
   wp_ID (fst r) = id /\ wp_Latitude (fst r) = lat /\ wp_Longitude (fst r) = lng /\
   wp_RecordedAt (fst r) = recordedAt /\
   ((speed <? 0)%float = true -> wp_Speed (fst r) = 0%float) /\
   ((speed <? 0)%float = false -> wp_Speed (fst r) = speed) /\
   ((heading <? 0)%float = true \/ (360 <? heading)%float = true ->
    wp_Heading (fst r) = 0%float) /\
   ((0 <=? heading)%float = true -> (heading <=? 360)%float = true ->
    wp_Heading (fst r) = heading)).
Proof.
  split.
  - intros Hout.
    destruct (NewWaypoint_outside id lat lng speed heading recordedAt Hout) as [err ->].
    eauto.
  - intros Hlat Hlng. rewrite (NewWaypoint_inside _ _ _ _ _ _ Hlat Hlng). simpl.
    repeat split.
    + now intros ->.
    + now intros ->.
    + intros [-> | ->]; [reflexivity | now rewrite orb_true_r].
    + intros Hlo Hhi.
      now rewrite (float_leb_ltb _ _ Hlo), (float_leb_ltb _ _ Hhi).
Qed.

Lemma NewWaypoint_validation_witness :
  (exists err, snd (NewWaypoint 7%N 91%float 0%float 0%float 0%float 5%Z) = Some err) /\
  snd (NewWaypoint 7%N 1%float 2%float (-5)%float 400%float 5%Z) = None /\
  wp_Speed (fst (NewWaypoint 7%N 1%float 2%float (-5)%float 400%float 5%Z)) = 0%float /\
  wp_Heading (fst (NewWaypoint 7%N 1%float 2%float (-5)%float 400%float 5%Z)) = 0%float.
Proof.
  split.
  - apply (NewWaypoint_validation 7%N 91%float 0%float 0%float 0%float 5%Z).
    left. right. reflexivity.
  - destruct (NewWaypoint_validation 7%N 1%float 2%float (-5)%float 400%float 5%Z)
      as [_ Hin].
    destruct (Hin (conj eq_refl eq_refl) (conj eq_refl eq_refl))
      as (Herr & _ & _ & _ & _ & Hspeed & _ & Hheading & _).
    split; [exact Herr |].
    split; [apply Hspeed; reflexivity | apply Hheading; right; reflexivity].
Defined.

(** C3 as stated fails at the heading 360: it lies outside [0,360), and the
    waypoint keeps it. *)
Lemma NewWaypoint_keeps_heading_360 :
  lat_inside 1%float /\ lng_inside 2%float /\
  ((0 <=? 360)%float && (360 <? 360)%float = false) /\
  NewWaypoint 7%N 1%float 2%float 0%float 360%float 5%Z
    = (mkWaypoint 7%N 1%float 2%float 0%float 360%float 5%Z, None) /\
  wp_Heading (fst (NewWaypoint 7%N 1%float 2%float 0%float 360%float 5%Z)) <> 0%float.
Proof.
  repeat split; try reflexivity.
  simpl. intros Heq.
  assert (Hc : (0 <? 360)%float = (0 <? 0)%float) by (rewrite Heq; reflexivity).
  vm_compute in Hc. discriminate.
Qed.

End waypoint_props.

(** ** Conversion between the aggregate and its row *)

Module conversion_props.
Import tracking repository samples.


Lemma toModel_toDomain (m : TripTrackModel) : toModel (toDomain m) = m.
Proof. destruct m. reflexivity. Qed.

Lemma toDomain_toModel_fields (t : TripTrack) :
  let t' := toDomain (toModel t) in
  id t' = id t /\ bookingID t' = bookingID t /\ runnerID t' = runnerID t /\
  status t' = status t /\ totalDistanceKm t' = totalDistanceKm t /\
  startedAt t' = startedAt t /\ completedAt t' = completedAt t /\
  version t' = version t /\ createdAt t' = createdAt t /\
  updatedAt t' = updatedAt t.
Proof. destruct t. simpl. repeat split. Qed.

End conversion_props.

(** ** Distance of a route *)

Module distance_props.
Import tracking application samples.

Section distance.
Context `{GoLib}.

Lemma add_segment_shift (a : Waypoint) (l : list Waypoint) (acc : float64) (i : nat) :
  (1 <= i)%nat -> add_segment (a :: l) acc (S i) = add_segment l acc i.
Proof.
  intros Hi. unfold add_segment.
  replace (S i - 1)%nat with (S (i - 1)) by lia. reflexivity.
Qed.

Lemma loop_shift (a : Waypoint) (l : list Waypoint) (n k : nat) (acc : float64) :
  (1 <= k)%nat ->
  List.fold_left (add_segment (a :: l)) (List.seq (S k) n) acc
  = List.fold_left (add_segment l) (List.seq k n) acc.
Proof.
  revert k acc. induction n as [|n IH]; intros k acc Hk; simpl; [reflexivity |].
  rewrite add_segment_shift by assumption. apply IH. lia.
Qed.

Lemma loop_is_sum (a : Waypoint) (l : list Waypoint) (acc : float64) :
  List.fold_left (add_segment (a :: l)) (List.seq 1 (length l)) acc
  = List.fold_left (fun s d => (s + d)%float)
      (List.map segmentKm (consecutive (a :: l))) acc.
Proof.
  revert a acc. induction l as [|b l IH]; intros a acc; [reflexivity |].
  cbn [length List.seq List.fold_left consecutive List.map].
  rewrite loop_shift by lia. rewrite IH. reflexivity.
Qed.

Lemma calculateTotalDistance_refines (waypoints : list Waypoint) :
  calculateTotalDistance waypoints = totalDistance_spec waypoints.
Proof.
  destruct waypoints as [|a [|b l]]; try reflexivity.
  unfold calculateTotalDistance, totalDistance_spec, round3, sumKm.
  cbn [length Nat.ltb Nat.leb Nat.sub].
  change (List.fold_left _ (List.seq 1 (S (length l))) 0%float)
    with (List.fold_left (add_segment (a :: b :: l)) (List.seq 1 (length (b :: l))) 0%float).
  now rewrite loop_is_sum.
Qed.

(** C4.  [calculateTotalDistance] is exactly 0 on a sequence of length 0
    or 1; on a longer sequence it is the sum, from the first segment on,
    of the haversine distances between consecutive waypoints, rounded
    to three decimals ([math.Round(km*1000)/1000]); and the haversine
    distance of a segment is the Earth radius 6371 times the central angle
    [2 * atan2(sqrt a, sqrt (1 - a))] of the haversine formula. *)
Theorem calculateTotalDistance_correct (waypoints : list Waypoint) :
  ((length waypoints < 2)%nat -> calculateTotalDistance waypoints = 0%float) /\
  ((2 <= length waypoints)%nat ->
   calculateTotalDistance waypoints
   = round3 (sumKm (List.map segmentKm (consecutive waypoints))) /\
   length (consecutive waypoints) = (length waypoints - 1)%nat) /\
  (forall lat1 lon1 lat2 lon2 : float64,
     let dLat := ((lat2 - lat1) * math_Pi / 180)%float in
     let dLon := ((lon2 - lon1) * math_Pi / 180)%float in
     let a := (math_Sin (dLat / 2) * math_Sin (dLat / 2) +
               math_Cos (lat1 * math_Pi / 180) * math_Cos (lat2 * math_Pi / 180)
                 * math_Sin (dLon / 2) * math_Sin (dLon / 2))%float in
     haversineKm lat1 lon1 lat2 lon2
     = (6371 * (2 * math_Atan2 (math_Sqrt a) (math_Sqrt (1 - a))))%float).
Proof.
  split; [| split].
  - intros Hlen. unfold calculateTotalDistance.
    apply Nat.ltb_lt in Hlen. now rewrite Hlen.
  - intros Hlen. rewrite calculateTotalDistance_refines.
    destruct waypoints as [|a [|b l]]; simpl in Hlen; try lia.
    split; [reflexivity |].
    clear Hlen. revert a b. induction l as [|c l IH]; intros a b; [reflexivity |].
    change (consecutive (a :: b :: c :: l)) with ((a, b) :: consecutive (b :: c :: l)).
    cbn [length]. rewrite IH. cbn [length]. lia.
  - intros. reflexivity.
Qed.

End distance.

(** Two points give one segment, three points two segments. *)
Lemma calculateTotalDistance_witness :
  @calculateTotalDistance small_angle_lib [wp_a] = 0%float /\
  @calculateTotalDistance small_angle_lib [wp_a; wp_b; wp_c]
  = @round3 small_angle_lib
      (@sumKm (List.map (@segmentKm small_angle_lib) [(wp_a, wp_b); (wp_b, wp_c)])).
Proof.
  split.
  - destruct (@calculateTotalDistance_correct small_angle_lib [wp_a]) as [Hshort _].
    apply Hshort. simpl. lia.
  - destruct (@calculateTotalDistance_correct small_angle_lib [wp_a; wp_b; wp_c])
      as (_ & Hlong & _).
    apply Hlong. simpl. lia.
Defined.

End distance_props.

(** ** The repository *)

Module repository_props.
Import tracking repository samples.

Lemma least_by_id_None (rows : list TripTrackModel) :
  least_by_id rows = None <-> rows = [].
Proof.
  destruct rows as [|r rest]; simpl; [tauto |].
  destruct (least_by_id rest) as [r'|]; [destruct (m_ID r <=? m_ID r')%N |];
    split; discriminate.
Qed.

Lemma least_by_id_In (rows : list TripTrackModel) (r : TripTrackModel) :
  least_by_id rows = Some r -> List.In r rows.
Proof.
  revert r. induction rows as [|x rest IH]; simpl; intros r; [discriminate |].
  destruct (least_by_id rest) as [r'|].
  - destruct (m_ID x <=? m_ID r')%N; intros [= <-]; auto.
  - intros [= <-]. auto.
Qed.

Lemma First_None (cond : TripTrackModel -> bool) (rows : list TripTrackModel) :
  First cond rows = None <-> (forall r, List.In r rows -> cond r = false).
Proof.
  unfold First. rewrite least_by_id_None. split.
  - intros Hnil r Hin. destruct (cond r) eqn:Hc; [| reflexivity].
    assert (Hf : List.In r (List.filter cond rows)) by (apply List.filter_In; auto).
    rewrite Hnil in Hf. destruct Hf.
  - intros Hall. induction rows as [|x rest IH]; simpl; [reflexivity |].
    rewrite (Hall x (or_introl eq_refl)). apply IH.
    intros r Hin. apply Hall. now right.
Qed.

Lemma First_Some (cond : TripTrackModel -> bool) (rows : list TripTrackModel)
    (r : TripTrackModel) :
  First cond rows = Some r -> List.In r rows /\ cond r = true.
Proof.
  unfold First. intros Hl. apply least_by_id_In in Hl.
  now apply List.filter_In in Hl.
Qed.

Lemma First_is_Some (cond : TripTrackModel -> bool) (rows : list TripTrackModel)
    (r : TripTrackModel) :
  List.In r rows -> cond r = true -> exists r', First cond rows = Some r'.
Proof.
  intros Hin Hc. destruct (First cond rows) as [r'|] eqn:HF; [eauto |].
  rewrite First_None in HF. rewrite (HF r Hin) in Hc. discriminate.
Qed.

(** [FindByBookingID] reports [ErrNotFound] exactly when no row carries the
    booking id. *)
Lemma FindByBookingID_not_found (bookingID : uuid) (db : DB) :
  FindByBookingID bookingID db = inr ErrNotFound <->
  (forall r, List.In r (trip_tracks db) -> m_BookingID r <> bookingID).
Proof.
  unfold FindByBookingID.
  destruct (First _ (trip_tracks db)) as [model|] eqn:HF.
  - split; [discriminate |]. intros Hall.
    apply First_Some in HF as [Hin Hc]. apply N.eqb_eq in Hc.
    destruct (Hall model Hin Hc).
  - split; [| reflexivity]. intros _ r Hin.
    rewrite First_None in HF. specialize (HF r Hin). now apply N.eqb_neq.
Qed.


Lemma FindByBookingID_exists (bookingID : uuid) (db : DB) (r : TripTrackModel) :
  List.In r (trip_tracks db) -> m_BookingID r = bookingID ->
  exists t, FindByBookingID bookingID db = inl t.
Proof.
  intros Hin Hb. unfold FindByBookingID.
  destruct (First_is_Some (fun r => (m_BookingID r =? bookingID)%N) _ r Hin) as [r' ->].
  - now apply N.eqb_eq.
  - eauto.
Qed.

(** [FindActiveByRunnerID] reports [ErrNotFound] when the runner has no
    active row. *)
Lemma FindActiveByRunnerID_not_found (runnerID : uuid) (db : DB) :
  (forall r, List.In r (trip_tracks db) ->
     ~ (m_RunnerID r = runnerID /\ m_Status r = TrackingActive)) <->
  FindActiveByRunnerID runnerID db = inr ErrNotFound.
Proof.
  unfold FindActiveByRunnerID.
  destruct (First _ (trip_tracks db)) as [model|] eqn:HF.
  - split; [| discriminate]. intros Hall.
    apply First_Some in HF as [Hin Hc]. apply andb_true_iff in Hc as [Hr Hs].
    apply N.eqb_eq in Hr. apply String.eqb_eq in Hs.
    destruct (Hall model Hin (conj Hr Hs)).
  - split; [reflexivity |]. intros _ r Hin [Hr Hs].
    rewrite First_None in HF. specialize (HF r Hin). simpl in HF.
    rewrite Hr, Hs, N.eqb_refl, String.eqb_refl in HF. discriminate.
Qed.

Lemma existsb_false_iff {A : Type} (f : A -> bool) (l : list A) :
  existsb f l = false <-> (forall x, List.In x l -> f x = false).
Proof.
  induction l as [|a l IH]; simpl.
  - split; [intros _ x [] | reflexivity].
  - rewrite orb_false_iff, IH. split.
    + intros [Ha Hl] x [<- | Hx]; auto.
    + intros Hall. split; [apply Hall; auto | intros x Hx; apply Hall; auto].
Qed.

Section writes.
Context `{Postgres}.

Lemma with_distance_same (model : TripTrackModel) :
  with_distance model (m_TotalDistanceKm model) = model.
Proof. now destruct model. Qed.

(** [Save] appends the row of a track at distance 0 when neither its id nor
    its booking id is taken. *)
Lemma Save_fresh (track : TripTrack) (db : DB) :
  totalDistanceKm track = 0%float ->
  (forall r, List.In r (trip_tracks db) -> m_ID r <> id track) ->
  (forall r, List.In r (trip_tracks db) -> m_BookingID r <> bookingID track) ->
  Save track db = (mkDB (trip_tracks db ++ [toModel track]) (waypoints db), None).
Proof.
  intros Hzero Hid Hb. unfold Save, insert_trip_track.
  cbn [m_TotalDistanceKm toModel]. rewrite Hzero, pg_decimal_zero.
  replace (existsb _ (trip_tracks db)) with false.
  2:{ symmetry. apply existsb_false_iff. intros r Hin. apply N.eqb_neq. now apply Hid. }
  replace (existsb _ (trip_tracks db)) with false.
  2:{ symmetry. apply existsb_false_iff. intros r Hin. apply N.eqb_neq. now apply Hb. }
  rewrite <- Hzero.
  change (totalDistanceKm track) with (m_TotalDistanceKm (toModel track)).
  now rewrite with_distance_same.
Qed.

(** [Save] refuses a second row for a booking and leaves the tables alone. *)
Lemma Save_duplicate_booking (track : TripTrack) (db : DB) (r : TripTrackModel) :
  List.In r (trip_tracks db) -> m_BookingID r = bookingID track ->
  exists err, Save track db = (db, Some err).
Proof.
  intros Hin Hb. unfold Save, insert_trip_track.
  destruct (pg_decimal 10 3 _) as [distance | err]; [| eauto].
  destruct (existsb (fun r0 => (m_ID r0 =? m_ID (toModel track))%N) (trip_tracks db));
    [eauto |].
  replace (existsb _ (trip_tracks db)) with true; [eauto |].
  symmetry. apply existsb_exists. exists r. split; [assumption |].
  now apply N.eqb_eq.
Qed.

(** What [Save] does to the rows: nothing, or one more row with the id and
    the booking id of the track, neither of which was in the table. *)
Lemma Save_rows (track : TripTrack) (db : DB) :
  (fst (Save track db) = db /\ snd (Save track db) <> None) \/
  (exists distance,
     pg_decimal 10 3 (totalDistanceKm track) = inl distance /\
     Save track db
     = (mkDB (trip_tracks db ++ [with_distance (toModel track) distance])
             (waypoints db), None) /\
     (forall r, List.In r (trip_tracks db) -> m_ID r <> id track) /\
     (forall r, List.In r (trip_tracks db) -> m_BookingID r <> bookingID track)).
Proof.
  unfold Save, insert_trip_track. cbn [m_TotalDistanceKm m_ID m_BookingID toModel].
  destruct (pg_decimal 10 3 (totalDistanceKm track)) as [distance | err];
    [| left; split; [reflexivity | discriminate]].
  destruct (existsb (fun r => (m_ID r =? id track)%N) (trip_tracks db)) eqn:Hid;
    [left; split; [reflexivity | discriminate] |].
  destruct (existsb (fun r => (m_BookingID r =? bookingID track)%N) (trip_tracks db))
    eqn:Hb; [left; split; [reflexivity | discriminate] |].
  right. exists distance. split; [reflexivity |]. split; [reflexivity |].
  rewrite existsb_false_iff in Hid, Hb.
  split; intros r Hin; apply N.eqb_neq; auto.
Qed.

Lemma Save_pk_unique (track : TripTrack) (db db' : DB) :
  pk_unique db -> Save track db = (db', None) -> pk_unique db'.
Proof.
  intros Hnd Hsave.
  destruct (Save_rows track db) as [[_ Herr] | (distance & _ & Heq & Hid & _)].
  - rewrite Hsave in Herr. now destruct Herr.
  - rewrite Heq in Hsave. injection Hsave as <-.
    unfold pk_unique in *. simpl. rewrite List.map_app. simpl.
    apply List.NoDup_app; [assumption | repeat constructor; intros [] |].
    intros x Hx [<- | []].
    apply List.in_map_iff in Hx as (r & Hr & Hin). now apply (Hid r Hin).
Qed.

End writes.

Lemma pk_unique_inj (db : DB) (r r' : TripTrackModel) :
  pk_unique db -> List.In r (trip_tracks db) -> List.In r' (trip_tracks db) ->
  m_ID r = m_ID r' -> r = r'.
Proof.
  unfold pk_unique. induction (trip_tracks db) as [|x rows IH]; simpl; [tauto |].
  intros Hnd. inversion Hnd as [|? ? Hnotin Hnd']; subst.
  intros [<- | Hr] [<- | Hr'] Heq; auto.
  - exfalso. apply Hnotin. rewrite Heq. now apply List.in_map.
  - exfalso. apply Hnotin. rewrite <- Heq. now apply List.in_map.
Qed.

Lemma wrap64_pred_neq (v : Z) : wrap64 (v - 1) <> v.
Proof.
  unfold wrap64. intros Heq.
  pose proof (Z.mod_pos_bound (v - 1 + 2 ^ 63) (2 ^ 64) ltac:(lia)) as Hb.
  assert (Hv : (- 2 ^ 63 <= v < 2 ^ 63)%Z) by lia.
  destruct (Z.eq_dec v (- 2 ^ 63)%Z) as [-> | Hne].
  - vm_compute in Heq. discriminate.
  - rewrite Z.mod_small in Heq; lia.
Qed.

Lemma map_no_hit {A : Type} (cond : A -> bool) (new : A) (l : list A) :
  (forall x, List.In x l -> cond x = false) ->
  List.map (fun x => if cond x then new else x) l = l.
Proof.
  induction l as [|a l IH]; simpl; intros Hall; [reflexivity |].
  rewrite (Hall a (or_introl eq_refl)). f_equal. apply IH. auto.
Qed.

Lemma filter_no_hit {A : Type} (cond : A -> bool) (l : list A) :
  (forall x, List.In x l -> cond x = false) -> List.filter cond l = [].
Proof.
  induction l as [|a l IH]; simpl; intros Hall; [reflexivity |].
  rewrite (Hall a (or_introl eq_refl)). apply IH. auto.
Qed.

(** *** gorm's [Save] on a stored row *)

(** The first statement changes nothing when no row satisfies the
    condition. *)
Lemma update_where_no_hit (model : TripTrackModel) (db : DB) :
  (forall r, List.In r (trip_tracks db) -> update_cond model r = false) ->
  update_where model db = (db, None, 0%nat).
Proof.
  intros Hno. unfold update_where.
  rewrite (filter_no_hit _ _ Hno). cbn [length Nat.eqb negb andb].
  rewrite (map_no_hit _ _ _ Hno). now destruct db.
Qed.

(** In a table with unique ids and unique booking ids, a row that shares
    the booking id of a stored row has its id. *)
Lemma booking_owner (db : DB) (stored r : TripTrackModel) :
  List.NoDup (List.map m_BookingID (trip_tracks db)) ->
  List.In stored (trip_tracks db) -> List.In r (trip_tracks db) ->
  m_BookingID r = m_BookingID stored -> r = stored.
Proof.
  induction (trip_tracks db) as [|x rows IH]; simpl; [tauto |].
  intros Hnd. inversion Hnd as [|? ? Hnotin Hnd']; subst.
  intros [<- | Hs] [<- | Hr] Heq; auto.
  - exfalso. apply Hnotin. rewrite <- Heq. now apply List.in_map.
  - exfalso. apply Hnotin. rewrite Heq. now apply List.in_map.
Qed.

Lemma map_by_key (db : DB) (stored new : TripTrackModel)
    (cond : TripTrackModel -> bool) :
  pk_unique db -> List.In stored (trip_tracks db) -> cond stored = true ->
  (forall r, cond r = true -> m_ID r = m_ID stored) ->
  List.map (fun r => if cond r then new else r) (trip_tracks db)
  = List.map (fun r => if (m_ID r =? m_ID stored)%N then new else r) (trip_tracks db).
Proof.
  intros Hpk Hin Hc Hkey. apply List.map_ext_in. intros r Hr.
  destruct (N.eqb_spec (m_ID r) (m_ID stored)) as [Heq | Hne].
  - rewrite (pk_unique_inj db r stored Hpk Hr Hin Heq). now rewrite Hc.
  - destruct (cond r) eqn:Hcr; [| reflexivity]. now apply Hkey in Hcr.
Qed.

Section saving.
Context `{Postgres}.

(** [Update] of a track over the stored row that has its id and its booking
    id, whatever the version of that row: the row is replaced by a row with
    the columns of the track, and [Update] returns [nil].  When the stored
    row is one version behind the track the first statement writes it, and
    otherwise the second does. *)
Lemma Update_stored (stamp : Time) (track : TripTrack) (db : DB)
    (stored : TripTrackModel) (distance : float64) :
  pk_unique db -> List.NoDup (List.map m_BookingID (trip_tracks db)) ->
  List.In stored (trip_tracks db) ->
  m_ID stored = id track -> m_BookingID stored = bookingID track ->
  id track <> uuid_Nil ->
  pg_decimal 10 3 (totalDistanceKm track) = inl distance ->
  exists row,
    Update stamp track db
    = (mkDB (List.map (fun r => if (m_ID r =? id track)%N then row else r)
                      (trip_tracks db))
            (waypoints db), None) /\
    m_ID row = id track /\ m_BookingID row = bookingID track /\
    m_RunnerID row = runnerID track /\ m_Status row = status track /\
    m_TotalDistanceKm row = distance /\ m_CompletedAt row = completedAt track /\
    m_Version row = version track.
Proof.
  intros Hpk Hbk Hin Hid Hb Hnil Hdec.
  set (written := stamped (toModel track) distance stamp).
  assert (Hfree : forall r, List.In r (trip_tracks db) ->
                    m_BookingID r = bookingID track -> m_ID r = id track).
  { intros r Hr Hrb. rewrite (booking_owner db stored r Hbk Hin Hr); congruence. }
  unfold Update, gorm_Save. cbn [m_ID m_TotalDistanceKm toModel].
  replace (id track =? uuid_Nil)%N with false by (symmetry; now apply N.eqb_neq).
  rewrite Hdec. fold written.
  destruct (update_cond written stored) eqn:Hhit.
  - (* the first statement writes the row *)
    exists written. split; [| now repeat split].
    unfold update_where.
    replace (existsb (fun r => (m_BookingID r =? m_BookingID written)%N)
               (List.filter (fun r => negb (update_cond written r)) (trip_tracks db)))
      with false.
    2:{ symmetry. apply existsb_false_iff. intros r Hr.
        apply List.filter_In in Hr as [Hr Hc]. apply N.eqb_neq. intros Hrb.
        assert (r = stored) as ->
          by (apply (pk_unique_inj db r stored Hpk Hr Hin);
              rewrite Hid; now apply Hfree).
        rewrite Hhit in Hc. discriminate. }
    rewrite andb_false_r.
    destruct (length (List.filter (update_cond written) (trip_tracks db))) eqn:Hn.
    { apply List.length_zero_iff_nil in Hn.
      assert (Hf : List.In stored (List.filter (update_cond written) (trip_tracks db)))
        by (apply List.filter_In; auto).
      rewrite Hn in Hf. destruct Hf. }
    cbn [Nat.eqb].
    rewrite (map_by_key db stored written (update_cond written) Hpk Hin Hhit).
    + now rewrite Hid.
    + intros r Hc. unfold update_cond in Hc. apply andb_true_iff in Hc as [Hc _].
      apply N.eqb_eq in Hc. simpl in Hc. congruence.
  - (* the first statement finds no row, the second writes over the row *)
    exists (on_conflict stored written). split; [| now repeat split].
    rewrite update_where_no_hit.
    2:{ intros r Hr. destruct (update_cond written r) eqn:Hc; [| reflexivity].
        unfold update_cond in Hc. pose proof Hc as Hc'.
        apply andb_true_iff in Hc' as [Hk _]. apply N.eqb_eq in Hk. simpl in Hk.
        assert (r = stored) as ->
          by (apply (pk_unique_inj db r stored Hpk Hr Hin); congruence).
        unfold update_cond in Hhit. congruence. }
    unfold upsert. cbn [m_ID m_BookingID written stamped toModel].
    replace (existsb _ (trip_tracks db)) with false.
    2:{ symmetry. apply existsb_false_iff. intros r Hr.
        destruct (N.eqb_spec (m_ID r) (id track)) as [Hk | Hk]; [reflexivity |].
        cbn [negb andb]. apply N.eqb_neq. intros Hrb. now apply Hk, Hfree. }
    replace (existsb _ (trip_tracks db)) with true.
    2:{ symmetry. apply existsb_exists. exists stored. split; [assumption |].
        now apply N.eqb_eq. }
    cbn [Nat.eqb]. f_equal. f_equal. apply List.map_ext_in. intros r Hr.
    destruct (N.eqb_spec (m_ID r) (id track)) as [Hk | Hk]; [| reflexivity].
    now rewrite (pk_unique_inj db r stored Hpk Hr Hin) by congruence.
Qed.

(** [Update] fails, and leaves the tables alone, on a distance that the
    column cannot hold. *)
Lemma Update_overflow (stamp : Time) (track : TripTrack) (db : DB)
    (err : error) :
  pg_decimal 10 3 (totalDistanceKm track) = inr err ->
  Update stamp track db
  = (db, Some (Wrapf "failed to update trip track: %w" [] err)).
Proof.
  intros Hdec. unfold Update, gorm_Save, insert_trip_track.
  cbn [m_ID m_TotalDistanceKm toModel]. rewrite Hdec.
  now destruct (id track =? uuid_Nil)%N.
Qed.

End saving.

End repository_props.

(** ** The event handlers *)

Module handler_props.
Import tracking repository application samples repository_props.

Section handlers.
Context `{GoLib} `{Postgres} `{Kafka}.

(** C7.  When the runner of a location update has no active track, the
    handler returns [nil] and leaves the world as it was: no waypoint row is
    added, nothing is sent to the hub, no event is handed to the producer. *)
Theorem HandleRunnerLocationUpdate_no_active_track
    (wpID : uuid) (createdAt occurredAt : Time)
    (event : RunnerLocationUpdateEvent) (w : World) :
  (forall r, List.In r (trip_tracks (w_db w)) ->
     ~ (m_RunnerID r = lu_RunnerID event /\ m_Status r = TrackingActive)) ->
  let r := HandleRunnerLocationUpdate wpID createdAt occurredAt event w in
  snd r = None /\
  fst r = w /\
  waypoints (w_db (fst r)) = waypoints (w_db w) /\
  w_broadcast (fst r) = w_broadcast w /\
  w_published (fst r) = w_published w.
Proof.
  intros Hnone. unfold HandleRunnerLocationUpdate.
  apply FindActiveByRunnerID_not_found in Hnone. rewrite Hnone. simpl.
  repeat split.
Qed.

(** Booking accepted for a booking that has a track: nothing happens. *)
Lemma HandleBookingAccepted_existing (newID : uuid) (now occurredAt : Time)
    (event : BookingAcceptedEvent) (w : World) (r : TripTrackModel) :
  List.In r (trip_tracks (w_db w)) -> m_BookingID r = ba_BookingID event ->
  HandleBookingAccepted newID now occurredAt event w = (w, None).
Proof.
  intros Hin Hb. unfold HandleBookingAccepted.
  destruct (FindByBookingID_exists _ _ r Hin Hb) as [t ->]. reflexivity.
Qed.

(** Booking accepted for a booking without a track: one row, one event. *)
Lemma HandleBookingAccepted_new (newID : uuid) (now occurredAt : Time)
    (event : BookingAcceptedEvent) (w : World) (cloudEvt : CloudEvent) :
  (forall r, List.In r (trip_tracks (w_db w)) -> m_BookingID r <> ba_BookingID event) ->
  (forall r, List.In r (trip_tracks (w_db w)) -> m_ID r <> newID) ->
  NewCloudEvent "service-tracking" TrackingStarted
    (DataStarted (mkTrackingStartedEvent newID (ba_BookingID event)
                    (ba_RunnerID event) now occurredAt)) = inl cloudEvt ->
  HandleBookingAccepted newID now occurredAt event w
  = (mkWorld
       (mkDB (trip_tracks (w_db w)
                ++ [toModel (NewTripTrack newID now (ba_BookingID event)
                               (ba_RunnerID event))])
             (waypoints (w_db w)))
       (w_broadcast w)
       (w_published w ++ [(TopicTrackingEvents, cloudEvt)]),
     None).
Proof.
  intros Hnone Hfresh Hce. unfold HandleBookingAccepted.
  apply FindByBookingID_not_found in Hnone. rewrite Hnone.
  rewrite Save_fresh.
  - unfold publish. simpl. rewrite Hce. reflexivity.
  - reflexivity.
  - exact Hfresh.
  - simpl. now apply FindByBookingID_not_found.
Qed.

(** C6.  [HandleBookingAccepted] creates at most once per booking.  If a
    track exists for the booking id, it returns [nil] and changes nothing:
    no row saved, no event handed to the producer.  Otherwise (the id drawn
    for the track being unused and the envelope being built) it returns
    [nil], adds exactly one row to [trip_tracks], with status active,
    distance 0 and version 1, and then hands one tracking-started event to
    the producer; a second delivery of the event changes nothing more. *)
Theorem HandleBookingAccepted_idempotent (newID : uuid) (now occurredAt : Time)
    (event : BookingAcceptedEvent) (w : World) :
  ((exists r, List.In r (trip_tracks (w_db w)) /\ m_BookingID r = ba_BookingID event) ->
   HandleBookingAccepted newID now occurredAt event w = (w, None)) /\
  ((forall r, List.In r (trip_tracks (w_db w)) -> m_BookingID r <> ba_BookingID event) ->
   (forall r, List.In r (trip_tracks (w_db w)) -> m_ID r <> newID) ->
   forall cloudEvt,
   NewCloudEvent "service-tracking" TrackingStarted
     (DataStarted (mkTrackingStartedEvent newID (ba_BookingID event)
                     (ba_RunnerID event) now occurredAt)) = inl cloudEvt ->
   let r := HandleBookingAccepted newID now occurredAt event w in
   snd r = None /\
   (exists row,
      trip_tracks (w_db (fst r)) = trip_tracks (w_db w) ++ [row] /\
      m_ID row = newID /\
      m_BookingID row = ba_BookingID event /\ m_RunnerID row = ba_RunnerID event /\
      m_Status row = TrackingActive /\ m_TotalDistanceKm row = 0%float /\
      m_Version row = 1%Z /\ m_StartedAt row = now /\ m_CompletedAt row = None) /\
   waypoints (w_db (fst r)) = waypoints (w_db w) /\
   w_broadcast (fst r) = w_broadcast w /\
   w_published (fst r) = w_published w ++ [(TopicTrackingEvents, cloudEvt)] /\
   (forall newID' now' occurredAt',
      HandleBookingAccepted newID' now' occurredAt' event (fst r) = (fst r, None))).
Proof.
  split.
  - intros (r & Hin & Hb). now apply (HandleBookingAccepted_existing _ _ _ _ _ r).
  - intros Hnone Hfresh cloudEvt Hce.
    rewrite (HandleBookingAccepted_new _ _ _ _ _ cloudEvt Hnone Hfresh Hce).
    simpl. split; [reflexivity |]. split; [| repeat split].
    + eexists. split; [reflexivity |]. simpl. repeat split.
    + intros newID' now' occurredAt'.
      apply (HandleBookingAccepted_existing _ _ _ _ _
               (toModel (NewTripTrack newID now (ba_BookingID event) (ba_RunnerID event)))).
      * simpl. apply List.in_or_app. right. now left.
      * reflexivity.
Qed.







End handlers.

(** C7 on the sample world: runner 9 has no track. *)
Lemma HandleRunnerLocationUpdate_no_active_track_witness :
  snd (@HandleRunnerLocationUpdate wide_columns plain_kafka 50%N 300%Z 301%Z
         (mkRunnerLocationUpdateEvent 9%N 1%float 1%float 10%float 90%float 299%Z)
         quiet_world) = None /\
  fst (@HandleRunnerLocationUpdate wide_columns plain_kafka 50%N 300%Z 301%Z
         (mkRunnerLocationUpdateEvent 9%N 1%float 1%float 10%float 90%float 299%Z)
         quiet_world) = quiet_world.
Proof.
  destruct (@HandleRunnerLocationUpdate_no_active_track wide_columns plain_kafka 50%N 300%Z 301%Z
              (mkRunnerLocationUpdateEvent 9%N 1%float 1%float 10%float 90%float 299%Z)
              quiet_world) as (Herr & Hw & _).
  - intros r Hin [Hr _]. simpl in Hin. destruct Hin as [<- | []].
    vm_compute in Hr. discriminate.
  - split; assumption.
Defined.

(** C6 on the empty sample world: the first event creates the row and hands
    out the event, and the world it leaves absorbs the second one. *)
Lemma HandleBookingAccepted_idempotent_witness :
  (snd (@HandleBookingAccepted wide_columns plain_kafka 1%N 100%Z 101%Z
          (mkBookingAcceptedEvent 2%N 3%N) empty_world) = None /\
   w_published (fst (@HandleBookingAccepted wide_columns plain_kafka 1%N 100%Z 101%Z
                       (mkBookingAcceptedEvent 2%N 3%N) empty_world))
   = [("tracking.events",
       ("service-tracking", "tracking.started",
        DataStarted (mkTrackingStartedEvent 1%N 2%N 3%N 100%Z 101%Z)))]) /\
  @HandleBookingAccepted wide_columns plain_kafka 8%N 400%Z 401%Z
    (mkBookingAcceptedEvent 2%N 3%N) quiet_world
  = (quiet_world, None).
Proof.
  split.
  - destruct (@HandleBookingAccepted_idempotent wide_columns plain_kafka 1%N 100%Z 101%Z
                (mkBookingAcceptedEvent 2%N 3%N) empty_world) as [_ Hnew].
    destruct (Hnew (fun r (Hin : False) => match Hin with end)
                   (fun r (Hin : False) => match Hin with end) _ eq_refl)
      as (Herr & _ & _ & _ & Hpub & _).
    split; [exact Herr | exact Hpub].
  - apply (@HandleBookingAccepted_idempotent wide_columns plain_kafka 8%N 400%Z 401%Z
             (mkBookingAcceptedEvent 2%N 3%N) quiet_world).
    exists (toModel active_track). split; [now left | reflexivity].
Defined.


End handler_props.

(** ** Route export *)

Module export_props.
Import tracking repository samples.

(** *** Waypoints come back in recorded-time order *)

Lemma insert_by_time_perm (m : WaypointModel) (l : list WaypointModel) :
  Permutation (m :: l) (insert_by_time m l).
Proof.
  induction l as [|x l IH]; simpl; [reflexivity |].
  destruct (wm_RecordedAt m <? wm_RecordedAt x)%Z; [reflexivity |].
  rewrite perm_swap. now constructor.
Qed.

Lemma insert_by_time_sorted (m : WaypointModel) (l : list WaypointModel) :
  StronglySorted row_time_le l -> StronglySorted row_time_le (insert_by_time m l).
Proof.
  induction 1 as [|x l Hs IH Hx]; simpl.
  - repeat constructor.
  - destruct (Z.ltb_spec (wm_RecordedAt m) (wm_RecordedAt x)) as [Hlt | Hge].
    + constructor; [now constructor |].
      constructor; [unfold row_time_le; lia |].
      eapply List.Forall_impl; [| exact Hx].
      unfold row_time_le. intros y Hy. lia.
    + constructor; [assumption |].
      apply (Permutation_Forall (insert_by_time_perm m l)).
      constructor; [exact Hge | exact Hx].
Qed.

Lemma order_by_recorded_at_acc (rows acc : list WaypointModel) :
  StronglySorted row_time_le acc ->
  StronglySorted row_time_le (List.fold_left (fun a m => insert_by_time m a) rows acc) /\
  Permutation (rows ++ acc) (List.fold_left (fun a m => insert_by_time m a) rows acc).
Proof.
  revert acc. induction rows as [|m rows IH]; intros acc Hacc; simpl.
  - split; [assumption | reflexivity].
  - destruct (IH (insert_by_time m acc) (insert_by_time_sorted m acc Hacc)) as [Hs Hp].
    split; [assumption |].
    rewrite <- Hp. rewrite <- (insert_by_time_perm m acc).
    now rewrite Permutation_middle.
Qed.

Lemma order_by_recorded_at_sorted (rows : list WaypointModel) :
  StronglySorted row_time_le (order_by_recorded_at rows) /\
  Permutation rows (order_by_recorded_at rows).
Proof.
  destruct (order_by_recorded_at_acc rows [] (SSorted_nil _)) as [Hs Hp].
  rewrite List.app_nil_r in Hp. now split.
Qed.

Lemma StronglySorted_of_row (l : list WaypointModel) :
  StronglySorted row_time_le l -> StronglySorted time_le (List.map of_row l).
Proof.
  induction 1 as [|x l Hs IH Hx]; simpl; constructor; [assumption |].
  apply List.Forall_map. exact Hx.
Qed.

(** [GetWaypoints] succeeds and returns the rows of the track, each once, by
    ascending recorded time. *)
Lemma GetWaypoints_ordered (trackID : uuid) (db : DB) :
  snd (GetWaypoints trackID db) = None /\
  StronglySorted time_le (fst (GetWaypoints trackID db)) /\
  Permutation (List.map of_row (rows_of trackID db)) (fst (GetWaypoints trackID db)).
Proof.
  unfold GetWaypoints, rows_of. simpl.
  destruct (order_by_recorded_at_sorted
              (List.filter (fun m => (wm_TripTrackID m =? trackID)%N) (waypoints db)))
    as [Hs Hp].
  split; [reflexivity |]. split.
  - now apply StronglySorted_of_row.
  - now apply Permutation_map.
Qed.

Lemma GetWaypoints_none (trackID : uuid) (db : DB) :
  rows_of trackID db = [] -> GetWaypoints trackID db = ([], None).
Proof. unfold GetWaypoints, rows_of. now intros ->. Qed.

(** *** The document *)

Section document.
Context `{GoLib} `{SpatialEngine}.

Lemma marshal_point (wp : Waypoint) :
  marshal_array marshal_float [wp_Longitude wp; wp_Latitude wp]
  = if finite_point wp then inl (point_text wp)
    else inr (ErrMarshal "json: unsupported value").
Proof.
  unfold marshal_array, marshal_each, marshal_float, finite_point, is_finite, point_text.
  destruct (is_nan (wp_Longitude wp) || is_infinity (wp_Longitude wp)); simpl;
    [reflexivity |].
  destruct (is_nan (wp_Latitude wp) || is_infinity (wp_Latitude wp)); reflexivity.
Qed.

Lemma marshal_points (waypoints : list Waypoint) :
  marshal_each (marshal_array marshal_float)
    (List.map (fun wp => [wp_Longitude wp; wp_Latitude wp]) waypoints)
  = if forallb finite_point waypoints then inl (List.map point_text waypoints)
    else inr (ErrMarshal "json: unsupported value").
Proof.
  induction waypoints as [|wp l IH]; [reflexivity |].
  cbn [List.map marshal_each forallb]. rewrite marshal_point.
  destruct (finite_point wp); simpl; [| reflexivity].
  rewrite IH. destruct (forallb finite_point l); reflexivity.
Qed.

(** What [buildGeoJSONLineString] computes on a route that is not empty. *)
Lemma buildGeoJSONLineString_cons (wp : Waypoint) (l : list Waypoint) :
  buildGeoJSONLineString (wp :: l)
  = if forallb finite_point (wp :: l) then (lineString_text (wp :: l), None)
    else (EmptyString,
          Some (Wrapf "failed to marshal GeoJSON: %w" []
                  (ErrMarshal "json: unsupported value"))).
Proof.
  unfold buildGeoJSONLineString.
  cbn [length Nat.eqb].
  unfold marshal_map. cbn [sort_keys List.fold_right insert_key fst snd].
  change (String.leb "type" "coordinates") with false. cbv iota.
  cbn [marshal_each marshal_iface fst snd]. unfold marshal_array at 1.
  rewrite marshal_points.
  destruct (forallb finite_point (wp :: l)); reflexivity.
Qed.

(** The spatial query over a track without rows gives an error or no text. *)
Lemma raw_route_query_none (trackID : uuid) (db : DB) :
  rows_of trackID db = [] ->
  snd (raw_route_query db trackID) <> None \/
  fst (raw_route_query db trackID) = EmptyString.
Proof.
  unfold raw_route_query, rows_of. intros ->. exact st_line_geojson_nil.
Qed.

(** C9.  The export of an empty route is the text
    [{"type":"LineString","coordinates":[]}] (given below by its character
    codes) with no error, from [buildGeoJSONLineString] and, for every
    track without waypoint rows, from [GetRouteAsGeoJSON].  On a route that
    is not empty the only error of [buildGeoJSONLineString] is a coordinate
    that JSON cannot hold, and the document is the LineString with one
    [[longitude,latitude]] pair per waypoint in the order of the list.
    [GetRouteAsGeoJSON] returns the text of the spatial query when the
    query succeeds with a text, and the document built from the track's
    waypoints by ascending recorded time otherwise; the line of the spatial
    query has one point per waypoint row of the track, longitude first, by
    ascending recorded time. *)
Theorem route_export (trackID : uuid) (db : DB) (waypoints : list Waypoint) :
  buildGeoJSONLineString [] = (empty_LineString, None) /\
  list_ascii_of_string empty_LineString
  = List.map ascii_of_nat
      [123; 34; 116; 121; 112; 101; 34; 58; 34; 76; 105; 110; 101; 83; 116; 114;
       105; 110; 103; 34; 44; 34; 99; 111; 111; 114; 100; 105; 110; 97; 116; 101;
       115; 34; 58; 91; 93; 125]%nat /\
  (rows_of trackID db = [] ->
   GetRouteAsGeoJSON trackID db = (empty_LineString, None)) /\
  (waypoints <> [] ->
   (forallb finite_point waypoints = true ->
    buildGeoJSONLineString waypoints = (lineString_text waypoints, None)) /\
   (forall doc, buildGeoJSONLineString waypoints = (doc, None) ->
                doc = lineString_text waypoints) /\
   length (List.map point_text waypoints) = length waypoints) /\
  ((snd (raw_route_query db trackID) <> None \/
    fst (raw_route_query db trackID) = EmptyString) ->
   GetRouteAsGeoJSON trackID db
   = buildGeoJSONLineString (fst (GetWaypoints trackID db)) /\
   StronglySorted time_le (fst (GetWaypoints trackID db)) /\
   Permutation (List.map of_row (rows_of trackID db)) (fst (GetWaypoints trackID db))) /\
  (forall geoJSON,
     raw_route_query db trackID = (geoJSON, None) -> geoJSON <> EmptyString ->
     GetRouteAsGeoJSON trackID db = (geoJSON, None)) /\
  (exists rows,
     StronglySorted row_time_le rows /\
     Permutation (rows_of trackID db) rows /\
     raw_route_query db trackID
     = st_line_geojson (List.map (fun m => (wm_Longitude m, wm_Latitude m)) rows) /\
     length (List.map (fun m => (wm_Longitude m, wm_Latitude m)) rows)
     = length (rows_of trackID db)).
Proof.
  assert (Hfallback :
    (snd (raw_route_query db trackID) <> None \/
     fst (raw_route_query db trackID) = EmptyString) ->
    GetRouteAsGeoJSON trackID db
    = buildGeoJSONLineString (fst (GetWaypoints trackID db))).
  { intros Hraw. unfold GetRouteAsGeoJSON.
    destruct (raw_route_query db trackID) as [geoJSON err]. simpl in Hraw.
    assert (Hcond : match err with None => true | Some _ => false end
                    && negb (String.eqb geoJSON EmptyString) = false).
    { destruct Hraw as [Herr | ->].
      - destruct err; [reflexivity | congruence].
      - destruct err; reflexivity. }
    rewrite Hcond. reflexivity. }
  split; [reflexivity |]. split; [reflexivity |].
  split; [| split; [| split; [| split]]].
  - intros Hrows. rewrite (Hfallback (raw_route_query_none trackID db Hrows)).
    now rewrite (GetWaypoints_none trackID db Hrows).
  - intros Hne. destruct waypoints as [|wp l]; [congruence |].
    rewrite buildGeoJSONLineString_cons. split; [| split].
    + now intros ->.
    + intros doc. destruct (forallb finite_point (wp :: l)); [| discriminate].
      now intros [= <-].
    + apply List.length_map.
  - intros Hraw. split; [exact (Hfallback Hraw) |].
    destruct (GetWaypoints_ordered trackID db) as (_ & Hs & Hp). now split.
  - intros geoJSON Hraw Hne. unfold GetRouteAsGeoJSON. rewrite Hraw.
    apply String.eqb_neq in Hne. now rewrite Hne.
  - destruct (order_by_recorded_at_sorted (rows_of trackID db)) as [Hs Hp].
    exists (order_by_recorded_at (rows_of trackID db)).
    split; [exact Hs |]. split; [exact Hp |]. split; [reflexivity |].
    rewrite List.length_map. symmetry. now apply Permutation_length.
Qed.

End document.

(** C9 on the samples: a track without rows, and the route of three rows
    stored out of order, first with the engine that lacks the spatial
    query, then with the engine that answers: its answer is returned, and
    it was given the three points of the track. *)
Lemma route_export_witness :
  @GetRouteAsGeoJSON small_angle_lib no_postgis 1%N db_one_active
    = (empty_LineString, None) /\
  @GetRouteAsGeoJSON small_angle_lib no_postgis 1%N db_with_route
    = (@lineString_text small_angle_lib [wp_a; wp_b; wp_c], None) /\
  @GetRouteAsGeoJSON small_angle_lib counting_postgis 1%N db_one_active
    = (empty_LineString, None) /\
  @GetRouteAsGeoJSON small_angle_lib counting_postgis 1%N db_with_route
    = ("point,point,point", None).
Proof.
  split; [| split; [| split]].
  - destruct (@route_export small_angle_lib no_postgis 1%N db_one_active [])
      as (_ & _ & Hempty & _).
    now apply Hempty.
  - destruct (@route_export small_angle_lib no_postgis 1%N db_with_route
                [wp_a; wp_b; wp_c]) as (_ & _ & _ & Hdoc & Hroute & _).
    destruct Hroute as (-> & _); [left; discriminate |].
    apply Hdoc; [discriminate | reflexivity].
  - destruct (@route_export small_angle_lib counting_postgis 1%N db_one_active [])
      as (_ & _ & Hempty & _).
    now apply Hempty.
  - destruct (@route_export small_angle_lib counting_postgis 1%N db_with_route [])
      as (_ & _ & _ & _ & _ & Hanswer & _).
    apply Hanswer; [reflexivity | discriminate].
Defined.

End export_props.

(** ** The hub *)

Module hub_props.
Import ws.

Lemma room_of_lookup (bookingID : uuid) (h : Hub) (clients : gset ClientPtr) :
  rooms h !! bookingID = Some clients -> room_of bookingID h = clients.
Proof. unfold room_of. now intros ->. Qed.

Lemma size_zero_empty (s : gset ClientPtr) : Nat.eqb (size s) 0 = true <-> s = ∅.
Proof.
  rewrite Nat.eqb_eq. split.
  - intros Hs. now apply size_empty_iff, leibniz_equiv in Hs.
  - intros ->. apply size_empty.
Qed.

(** The block shared by [Run] and [broadcastToRoom], on an open queue. *)
Lemma remove_client_open (bookingID : uuid) (client : ClientPtr) (c : Client) (h : Hub) :
  ch_closed (c_Send c) = false ->
  exists h1, remove_client bookingID client c h = Some h1 /\
    heap h1 = <[client := dropped_client c]> (heap h) /\
    room_of bookingID h1 = room_of bookingID h ∖ {[client]} /\
    (forall b, b <> bookingID -> rooms h1 !! b = rooms h !! b) /\
    rooms h1 !! bookingID <> Some ∅.
Proof.
  intros Hopen. unfold remove_client, close_chan. rewrite Hopen.
  eexists. split; [reflexivity |]. simpl.
  fold (room_of bookingID h).
  split; [reflexivity |].
  destruct (Nat.eqb (size (room_of bookingID h ∖ {[client]})) 0) eqn:Hsz.
  - apply size_zero_empty in Hsz. repeat split.
    + unfold room_of at 1. simpl. now rewrite lookup_delete_eq, Hsz.
    + intros b Hb. now rewrite lookup_delete_ne.
    + now rewrite lookup_delete_eq.
  - repeat split.
    + unfold room_of at 1. simpl. now rewrite lookup_insert_eq.
    + intros b Hb. now rewrite lookup_insert_ne.
    + rewrite lookup_insert_eq. intros [= Hempty].
      rewrite Hempty in Hsz. now rewrite size_empty in Hsz.
Qed.

(** One round of the loop. *)
Lemma deliver_step (bookingID : uuid) (data : bytes) (h : Hub)
    (client : ClientPtr) (c : Client) :
  heap h !! client = Some c -> ch_closed (c_Send c) = false ->
  exists h1, deliver bookingID data h client = Some h1 /\
    heap h1 = <[client := delivered data c]> (heap h) /\
    room_of bookingID h1
      = (if queue_full c then room_of bookingID h ∖ {[client]}
         else room_of bookingID h) /\
    (forall b, b <> bookingID -> rooms h1 !! b = rooms h !! b) /\
    (rooms h !! bookingID <> Some ∅ -> rooms h1 !! bookingID <> Some ∅).
Proof.
  intros Hc Hopen. unfold deliver, try_send, delivered, queue_full.
  rewrite Hc, Hopen.
  destruct (length (ch_buf (c_Send c)) <? ch_cap (c_Send c))%nat; simpl.
  - eexists. split; [reflexivity |]. simpl. repeat split; auto.
  - destruct (remove_client_open bookingID client c h Hopen)
      as (h1 & -> & Hheap & Hroom & Hother & Hne).
    exists h1. repeat split; auto.
Qed.

(** The whole loop, over clients that are pairwise distinct and whose queues
    are open. *)
Lemma range_clients_spec (bookingID : uuid) (data : bytes) (order : list ClientPtr) :
  forall h : Hub,
  List.NoDup order ->
  (forall x, List.In x order ->
     exists c, heap h !! x = Some c /\ ch_closed (c_Send c) = false) ->
  exists h', range_clients bookingID data order h = Some h' /\
    (forall x c, List.In x order -> heap h !! x = Some c ->
       heap h' !! x = Some (delivered data c)) /\
    (forall x, ~ List.In x order -> heap h' !! x = heap h !! x) /\
    (forall x, x ∈ room_of bookingID h' <->
       x ∈ room_of bookingID h /\
       ~ (List.In x order /\ exists c, heap h !! x = Some c /\ queue_full c = true)) /\
    (forall b, b <> bookingID -> rooms h' !! b = rooms h !! b) /\
    (rooms h !! bookingID <> Some ∅ -> rooms h' !! bookingID <> Some ∅).
Proof.
  induction order as [|client rest IH]; intros h Hnd Hopen.
  - exists h. simpl. repeat split; auto; try tauto.
  - inversion Hnd as [|? ? Hnotin Hnd']; subst.
    destruct (Hopen client (or_introl eq_refl)) as (c & Hc & Hco).
    destruct (deliver_step bookingID data h client c Hc Hco)
      as (h1 & Hd & Hheap1 & Hroom1 & Hother1 & Hne1).
    assert (Hrest : forall x, List.In x rest -> heap h1 !! x = heap h !! x).
    { intros x Hx. rewrite Hheap1. apply lookup_insert_ne. intros ->. contradiction. }
    destruct (IH h1 Hnd') as (h' & Hrun & Hin & Hout & Hroom & Hother & Hne).
    { intros x Hx. rewrite (Hrest x Hx). apply Hopen. now right. }
    exists h'. simpl. rewrite Hd. split; [exact Hrun |].
    split; [| split; [| split; [| split]]].
    + intros x cx [<- | Hx] Hcx.
      * rewrite Hout by assumption. rewrite Hheap1, lookup_insert_eq. congruence.
      * apply Hin; [assumption |]. now rewrite (Hrest x Hx).
    + intros x Hx. rewrite Hout by tauto. rewrite Hheap1.
      apply lookup_insert_ne. intros ->. apply Hx. now left.
    + intros x. rewrite Hroom, Hroom1. split.
      * intros [Hmem Hnot].
        assert (Hxm : x ∈ room_of bookingID h /\ (queue_full c = true -> x <> client)).
        { destruct (queue_full c); [| auto].
          apply elem_of_difference in Hmem as [? Hns]. split; [assumption |].
          intros _ ->. apply Hns. now apply elem_of_singleton. }
        destruct Hxm as [Hxm Hxc]. split; [assumption |].
        intros [[<- | Hx] (cx & Hcx & Hfull)].
        -- apply Hxc; congruence.
        -- apply Hnot. split; [assumption |]. exists cx.
           now rewrite (Hrest x Hx).
      * intros [Hmem Hnot]. split.
        -- destruct (queue_full c) eqn:Hfull; [| assumption].
           apply elem_of_difference. split; [assumption |].
           intros ->%elem_of_singleton. apply Hnot. split; [now left |]. eauto.
        -- intros [Hx (cx & Hcx & Hfull)]. apply Hnot. split; [now right |].
           exists cx. now rewrite <- (Hrest x Hx).
    + intros b Hb. now rewrite Hother, Hother1.
    + auto.
Qed.

(** The loop over the members of a room of a well-formed hub. *)
Lemma broadcastToRoom_run (bookingID : uuid) (data : bytes) (h : Hub)
    (clients : gset ClientPtr) :
  hub_wf h -> rooms h !! bookingID = Some clients ->
  exists h', range_clients bookingID data (elements clients) h = Some h' /\
    (forall x c, x ∈ clients -> heap h !! x = Some c ->
       heap h' !! x = Some (delivered data c)) /\
    (forall x, x ∉ clients -> heap h' !! x = heap h !! x) /\
    (forall x, x ∈ room_of bookingID h' <->
       x ∈ clients /\ ~ (exists c, heap h !! x = Some c /\ queue_full c = true)) /\
    (forall b, b <> bookingID -> rooms h' !! b = rooms h !! b) /\
    rooms h' !! bookingID <> Some ∅.
Proof.
  intros [Hmem Hnonempty] Hroom.
  pose proof (room_of_lookup _ _ _ Hroom) as Hro.
  assert (HinE : forall x, List.In x (elements clients) <-> x ∈ clients).
  { intros x. rewrite <- elem_of_elements. symmetry. apply list_elem_of_In. }
  destruct (range_clients_spec bookingID data (elements clients) h)
    as (h' & Hrun & Hin & Hout & Hroom' & Hother & Hne).
  { apply NoDup_ListNoDup, NoDup_elements. }
  { intros x Hx. apply HinE in Hx.
    destruct (Hmem _ _ _ Hroom Hx) as (c & Hc & _ & Hopen). eauto. }
  exists h'. split; [exact Hrun |].
  split; [| split; [| split; [| split]]].
  - intros x c Hx. apply Hin. now apply HinE.
  - intros x Hx. apply Hout. now rewrite HinE.
  - intros x. rewrite Hroom', Hro. split.
    + intros [Hx Hnot]. split; [assumption |].
      intros Hfull. apply Hnot. split; [now apply HinE | assumption].
    + intros [Hx Hnot]. split; [assumption |]. intros [_ Hfull]. auto.
  - exact Hother.
  - apply Hne, Hnonempty.
Qed.

(** [broadcastToRoom] returns and keeps the hub well formed. *)
Lemma broadcastToRoom_wf (bookingID : uuid) (data : bytes) (h : Hub) :
  hub_wf h -> exists h', broadcastToRoom bookingID data h = Some h' /\ hub_wf h'.
Proof.
  intros Hwf. unfold broadcastToRoom.
  destruct (rooms h !! bookingID) as [clients|] eqn:Hroom; [| eauto].
  destruct (broadcastToRoom_run bookingID data h clients Hwf Hroom)
    as (h' & Hrun & Hin & Hout & Hroom' & Hother & Hne).
  destruct Hwf as [Hmem Hnonempty].
  exists h'. split; [exact Hrun |]. split.
  - intros b s x Hs Hx.
    destruct (N.eq_dec b bookingID) as [-> | Hb].
    + assert (Hx' : x ∈ room_of bookingID h') by (unfold room_of; now rewrite Hs).
      apply Hroom' in Hx' as [Hxm Hnot].
      destruct (Hmem _ _ _ Hroom Hxm) as (c & Hc & Hbid & Hopen).
      exists (delivered data c). split; [now apply Hin |].
      unfold delivered. destruct (queue_full c) eqn:Hfull.
      * exfalso. apply Hnot. eauto.
      * simpl. auto.
    + rewrite (Hother b Hb) in Hs.
      destruct (Hmem _ _ _ Hs Hx) as (c & Hc & Hbid & Hopen).
      exists c. split; [| auto].
      rewrite Hout; [assumption |].
      intros Hx'.
      destruct (Hmem _ _ _ Hroom Hx') as (c' & Hc' & Hbid' & _). congruence.
  - intros b. destruct (N.eq_dec b bookingID) as [-> | Hb]; [exact Hne |].
    rewrite (Hother b Hb). apply Hnonempty.
Qed.

(** C8.  In a hub state that [Run] maintains, [broadcastToRoom] returns (no
    send blocks, nothing panics) and keeps the state well formed.  A member
    of the room whose queue is full is no longer in the room and its queue is
    closed, the messages it held untouched; every other member is still in
    the room and has the message at the end of its queue; the room leaves
    the map when no member remains; clients outside the room and all other
    rooms are as before. *)
Theorem broadcastToRoom_delivers (bookingID : uuid) (data : bytes) (h : Hub) :
  hub_wf h ->
  exists h', broadcastToRoom bookingID data h = Some h' /\
    hub_wf h' /\
    (forall client c, client ∈ room_of bookingID h -> heap h !! client = Some c ->
       (queue_full c = true ->
        (client ∉ room_of bookingID h') /\
        heap h' !! client = Some (dropped_client c)) /\
       (queue_full c = false ->
        (client ∈ room_of bookingID h') /\
        heap h' !! client = Some (sent_client data c))) /\
    (room_of bookingID h' = ∅ -> rooms h' !! bookingID = None) /\
    (forall client, client ∉ room_of bookingID h ->
       heap h' !! client = heap h !! client) /\
    (forall b, b <> bookingID -> rooms h' !! b = rooms h !! b).
Proof.
  intros Hwf.
  destruct (broadcastToRoom_wf bookingID data h Hwf) as (h' & Hrun & Hwf').
  exists h'. split; [exact Hrun |]. split; [exact Hwf' |].
  unfold broadcastToRoom in Hrun.
  destruct (rooms h !! bookingID) as [clients|] eqn:Hroom.
  2:{ injection Hrun as <-. unfold room_of. rewrite Hroom. simpl.
      repeat split; auto; set_solver. }
  destruct (broadcastToRoom_run bookingID data h clients Hwf Hroom)
    as (h'' & Hrun' & Hin & Hout & Hroom' & Hother & Hne).
  rewrite Hrun in Hrun'. injection Hrun' as <-.
  rewrite (room_of_lookup _ _ _ Hroom).
  split; [| split; [| split]].
  - intros client c Hcm Hc. split; intros Hfull.
    + split.
      * intros Hx'. apply Hroom' in Hx' as [_ Hnot]. apply Hnot. eauto.
      * rewrite (Hin client c Hcm Hc). unfold delivered. now rewrite Hfull.
    + split.
      * apply Hroom'. split; [assumption |].
        intros (c' & Hc' & Hfull'). congruence.
      * rewrite (Hin client c Hcm Hc). unfold delivered. now rewrite Hfull.
  - unfold room_of. intros Hempty.
    destruct (rooms h' !! bookingID) as [s|] eqn:Hs; [| reflexivity].
    simpl in Hempty. subst s. now destruct Hne.
  - exact Hout.
  - exact Hother.
Qed.

(** [register] and [unregister] keep the hub well formed, so every state
    that [Run] reaches from [NewHub] is. *)
Lemma NewHub_wf : hub_wf NewHub.
Proof.
  split; unfold NewHub; simpl.
  - intros b s x Hs. rewrite lookup_empty in Hs. discriminate.
  - intros b. rewrite lookup_empty. discriminate.
Qed.

Lemma on_register_wf (client : ClientPtr) (c : Client) (h : Hub) :
  hub_wf h -> heap h !! client = Some c -> ch_closed (c_Send c) = false ->
  exists h', on_register client h = Some h' /\ hub_wf h' /\
             client ∈ room_of (c_BookingID c) h'.
Proof.
  intros [Hmem Hnonempty] Hc Hopen. unfold on_register. rewrite Hc.
  eexists. split; [reflexivity |]. split; [split |].
  - intros b s x. simpl.
    destruct (N.eq_dec b (c_BookingID c)) as [-> | Hb].
    + rewrite lookup_insert_eq. intros [= <-] Hx.
      apply elem_of_union in Hx as [Hx | ->%elem_of_singleton]; [| eauto].
      destruct (rooms h !! c_BookingID c) as [s|] eqn:Hs; simpl in Hx.
      * apply (Hmem _ _ _ Hs Hx).
      * now apply not_elem_of_empty in Hx.
    + rewrite lookup_insert_ne by congruence. apply Hmem.
  - intros b. simpl. destruct (N.eq_dec b (c_BookingID c)) as [-> | Hb].
    + rewrite lookup_insert_eq. intros [= Hempty].
      assert (Hin : client ∈ (∅ : gset ClientPtr)) by (rewrite <- Hempty; set_solver).
      now apply not_elem_of_empty in Hin.
    + rewrite lookup_insert_ne by congruence. apply Hnonempty.
  - unfold room_of. simpl. rewrite lookup_insert_eq. simpl. set_solver.
Qed.

Lemma on_unregister_wf (client : ClientPtr) (c : Client) (h : Hub) :
  hub_wf h -> heap h !! client = Some c ->
  exists h', on_unregister client h = Some h' /\ hub_wf h' /\
             client ∉ room_of (c_BookingID c) h'.
Proof.
  intros Hwf Hc. pose proof Hwf as [Hmem Hnonempty].
  unfold on_unregister. rewrite Hc.
  destruct (rooms h !! c_BookingID c) as [clients|] eqn:Hroom.
  2:{ exists h. split; [reflexivity |]. split; [assumption |].
      unfold room_of. rewrite Hroom. simpl. apply not_elem_of_empty. }
  destruct (bool_decide (client ∈ clients)) eqn:Hdec.
  2:{ apply bool_decide_eq_false in Hdec.
      exists h. split; [reflexivity |]. split; [assumption |].
      unfold room_of. now rewrite Hroom. }
  apply bool_decide_eq_true in Hdec.
  destruct (Hmem _ _ _ Hroom Hdec) as (c' & Hc' & _ & Hopen).
  assert (c' = c) as -> by congruence.
  destruct (remove_client_open (c_BookingID c) client c h Hopen)
    as (h1 & -> & Hheap & Hroom1 & Hother & Hne).
  exists h1. split; [reflexivity |]. split; [split |].
  - intros b s x Hs Hx.
    assert (Hxc : x <> client).
    { intros ->. destruct (N.eq_dec b (c_BookingID c)) as [-> | Hb].
      - assert (Hin : client ∈ room_of (c_BookingID c) h1)
          by (unfold room_of; now rewrite Hs).
        rewrite Hroom1 in Hin. apply elem_of_difference in Hin as [_ Hn].
        apply Hn. now apply elem_of_singleton.
      - rewrite (Hother b Hb) in Hs.
        destruct (Hmem _ _ _ Hs Hx) as (c2 & Hc2 & Hbid & _). congruence. }
    rewrite Hheap, lookup_insert_ne by congruence.
    destruct (N.eq_dec b (c_BookingID c)) as [-> | Hb].
    + assert (Hin : x ∈ room_of (c_BookingID c) h1)
        by (unfold room_of; now rewrite Hs).
      rewrite Hroom1, (room_of_lookup _ _ _ Hroom) in Hin.
      apply (Hmem _ _ _ Hroom). now apply elem_of_difference in Hin as [? _].
    + rewrite (Hother b Hb) in Hs. apply (Hmem _ _ _ Hs Hx).
  - intros b. destruct (N.eq_dec b (c_BookingID c)) as [-> | Hb]; [exact Hne |].
    rewrite (Hother b Hb). apply Hnonempty.
  - rewrite Hroom1. intros [_ Hn]%elem_of_difference.
    apply Hn. now apply elem_of_singleton.
Qed.

(** Unregistering twice is harmless: the second call changes nothing. *)
Lemma on_unregister_idempotent (client : ClientPtr) (c : Client) (h h' : Hub) :
  hub_wf h -> heap h !! client = Some c ->
  on_unregister client h = Some h' -> on_unregister client h' = Some h'.
Proof.
  intros Hwf Hc Hun.
  destruct (on_unregister_wf client c h Hwf Hc) as (h1 & Hun1 & Hwf1 & Hout).
  assert (h1 = h') as -> by congruence.
  assert (Hc' : exists c', heap h' !! client = Some c' /\ c_BookingID c' = c_BookingID c).
  { revert Hun. unfold on_unregister. rewrite Hc.
    destruct (rooms h !! c_BookingID c) as [clients|]; [| intros [= <-]; eauto].
    destruct (bool_decide (client ∈ clients)); [| intros [= <-]; eauto].
    unfold remove_client. destruct (close_chan (c_Send c)); [| discriminate].
    intros [= <-]. simpl. rewrite lookup_insert_eq. eauto. }
  destruct Hc' as (c' & Hc' & Hbid).
  unfold on_unregister. rewrite Hc', Hbid.
  destruct (rooms h' !! c_BookingID c) as [s|] eqn:Hs; [| reflexivity].
  unfold room_of in Hout. rewrite Hs in Hout. simpl in Hout.
  now rewrite bool_decide_eq_false_2.
Qed.

(** One iteration of [Run] on a registered client or a message keeps the
    hub well formed. *)
Lemma Run_step_wf `{WireFormat} (msg : hub_msg) (h : Hub) :
  hub_wf h ->
  match msg with
  | MsgRegister client =>
      exists c, heap h !! client = Some c /\ ch_closed (c_Send c) = false
  | MsgUnregister client => exists c, heap h !! client = Some c
  | _ => True
  end ->
  exists h', Run_step msg h = Some h' /\ hub_wf h'.
Proof.
  intros Hwf Hmsg. destruct msg as [client | client | update | chatMsg]; simpl.
  - destruct Hmsg as (c & Hc & Hopen).
    destruct (on_register_wf client c h Hwf Hc Hopen) as (h' & ? & ? & _). eauto.
  - destruct Hmsg as (c & Hc).
    destruct (on_unregister_wf client c h Hwf Hc) as (h' & ? & ? & _). eauto.
  - destruct (marshal_location_update update); [| eauto].
    now apply broadcastToRoom_wf.
  - destruct (marshal_chat_message chatMsg); [| eauto].
    now apply broadcastToRoom_wf.
Qed.

(** The sample hub is well formed. *)
Lemma sample_hub_wf : hub_wf samples.sample_hub.
Proof.
  split.
  - intros b s x Hs Hx. unfold samples.sample_hub in *. simpl in *.
    apply lookup_singleton_Some in Hs as [<- <-].
    apply elem_of_union in Hx as [->%elem_of_singleton | ->%elem_of_singleton].
    + eexists. split; [reflexivity |]. split; reflexivity.
    + eexists. split; [reflexivity |]. split; reflexivity.
  - intros b Hs. unfold samples.sample_hub in Hs. simpl in Hs.
    apply lookup_singleton_Some in Hs as [_ Hempty].
    assert (Hin : 1%positive ∈ (∅ : gset ClientPtr)) by (rewrite <- Hempty; set_solver).
    now apply not_elem_of_empty in Hin.
Qed.

(** C8 on the sample hub: client 1 has a full queue, client 2 has room. *)
Lemma broadcastToRoom_delivers_witness :
  exists h', broadcastToRoom 2%N "ping" samples.sample_hub = Some h' /\
    hub_wf h' /\
    heap h' !! 1%positive = Some (dropped_client samples.slow_client) /\
    heap h' !! 2%positive = Some (sent_client "ping" samples.ready_client).
Proof.
  destruct (broadcastToRoom_delivers 2%N "ping" samples.sample_hub sample_hub_wf)
    as (h' & Hrun & Hwf & Hmembers & _).
  assert (Hroom : room_of 2%N samples.sample_hub = {[ 1%positive ]} ∪ {[ 2%positive ]}).
  { unfold room_of, samples.sample_hub. simpl. now rewrite lookup_singleton_eq. }
  destruct (Hmembers 1%positive samples.slow_client) as [Hslow _].
  { rewrite Hroom. apply elem_of_union_l. now apply elem_of_singleton. }
  { reflexivity. }
  destruct (Hmembers 2%positive samples.ready_client) as [_ Hready].
  { rewrite Hroom. apply elem_of_union_r. now apply elem_of_singleton. }
  { reflexivity. }
  exists h'. split; [exact Hrun |]. split; [exact Hwf |]. split.
  - now apply Hslow.
  - now apply Hready.
Defined.

End hub_props.

(** ** Sequences of calls on the aggregate *)

Module lifecycle_props.
Import tracking repository lifecycle samples.

Lemma invoke_inactive (t : TripTrack) (c : call) :
  status t <> TrackingActive ->
  status (invoke t c) = status t /\
  totalDistanceKm (invoke t c) = totalDistanceKm t /\
  completedAt (invoke t c) = completedAt t.
Proof.
  intros Hne. pose proof (tracking_props.status_inactive_eqb t Hne) as Hb.
  destruct c as [now km | now | now]; simpl; unfold Complete, Cancel;
    try rewrite Hb; simpl; repeat split.
Qed.

Lemma invoke_identity (t : TripTrack) (c : call) :
  id (invoke t c) = id t /\ bookingID (invoke t c) = bookingID t /\
  runnerID (invoke t c) = runnerID t /\ startedAt (invoke t c) = startedAt t /\
  createdAt (invoke t c) = createdAt t.
Proof.
  destruct c as [now km | now | now]; simpl; unfold Complete, Cancel;
    try destruct (negb (String.eqb (status t) TrackingActive)); simpl; repeat split.
Qed.

(** Completed and cancelled are final.  Whatever calls follow on a track
    that is not active, in any number and order, its status, its distance
    and its completion time stay what they are, and the identifiers and the
    start time of a track never change at all. *)
Theorem terminal_state_is_final (calls : list call) (t : TripTrack) :
  (status t <> TrackingActive ->
   status (invoke_all calls t) = status t /\
   totalDistanceKm (invoke_all calls t) = totalDistanceKm t /\
   completedAt (invoke_all calls t) = completedAt t) /\
  id (invoke_all calls t) = id t /\
  bookingID (invoke_all calls t) = bookingID t /\
  runnerID (invoke_all calls t) = runnerID t /\
  startedAt (invoke_all calls t) = startedAt t /\
  createdAt (invoke_all calls t) = createdAt t.
Proof.
  unfold invoke_all. revert t. induction calls as [|c calls IH]; intros t; simpl.
  - repeat split.
  - destruct (IH (invoke t c)) as (Hfinal & Hid & Hb & Hr & Hs & Hc).
    destruct (invoke_identity t c) as (Hid' & Hb' & Hr' & Hs' & Hc').
    split; [| repeat split; congruence].
    intros Hne. destruct (invoke_inactive t c Hne) as (Hst & Hkm & Hat).
    destruct Hfinal as (Hst2 & Hkm2 & Hat2); [congruence |].
    repeat split; congruence.
Qed.

Lemma terminal_state_is_final_witness :
  status (invoke_all [CallCancel 300%Z; CallIncrementVersion 301%Z;
                      CallComplete 302%Z 9%float] completed_track) = TrackingCompleted /\
  totalDistanceKm (invoke_all [CallCancel 300%Z; CallIncrementVersion 301%Z;
                               CallComplete 302%Z 9%float] completed_track) = 5%float.
Proof.
  destruct (terminal_state_is_final
              [CallCancel 300%Z; CallIncrementVersion 301%Z; CallComplete 302%Z 9%float]
              completed_track) as [Hfinal _].
  destruct Hfinal as (Hst & Hkm & _); [vm_compute; discriminate |].
  split; [exact Hst | exact Hkm].
Defined.

(** The three shapes of a track. *)
Lemma invoke_shape (t : TripTrack) (c : call) :
  track_shape t -> track_shape (invoke t c).
Proof.
  unfold track_shape. intros Hs.
  destruct c as [now km | now | now]; simpl; unfold Complete, Cancel.
  - destruct Hs as [(Hs & Hc & Hd) | [(Hs & at_ & Hc) | (Hs & Hc & Hd)]];
      rewrite Hs; simpl; eauto 10.
  - destruct Hs as [(Hs & Hc & Hd) | [(Hs & at_ & Hc) | (Hs & Hc & Hd)]];
      rewrite Hs; simpl; eauto 10.
  - exact Hs.
Qed.

(** Every track that starts in [NewTripTrack] and is changed by its methods
    alone is active with no completion time and distance 0, or completed
    with a completion time, or cancelled with no completion time and
    distance 0: a completion time is there exactly when the track is
    completed. *)
Theorem track_has_one_of_three_shapes (newID : uuid) (now : Time)
    (bookingID runnerID : uuid) (calls : list call) :
  track_shape (invoke_all calls (NewTripTrack newID now bookingID runnerID)).
Proof.
  assert (Hstart : track_shape (NewTripTrack newID now bookingID runnerID)).
  { left. repeat split. }
  unfold invoke_all. revert Hstart.
  generalize (NewTripTrack newID now bookingID runnerID) as t.
  induction calls as [|c calls IH]; intros t Hs; simpl; [exact Hs |].
  apply IH. now apply invoke_shape.
Qed.

Lemma invoke_version (t : TripTrack) (c : call) :
  version (invoke t c)
  = if is_increment c then wrap64 (version t + 1) else version t.
Proof.
  destruct c as [now km | now | now]; simpl; unfold Complete, Cancel;
    try destruct (negb (String.eqb (status t) TrackingActive)); reflexivity.
Qed.

(** The version counter counts the calls of [IncrementVersion] and nothing
    else: while the counter stays inside [int64], the version after a
    sequence of calls is the version before plus the number of
    [IncrementVersion] among them; [Complete] and [Cancel] do not move it. *)
Theorem version_counts_increments (calls : list call) (t : TripTrack) :
  (- 2 ^ 63 <= version t)%Z ->
  (version t + Z.of_nat (length (List.filter is_increment calls)) < 2 ^ 63)%Z ->
  version (invoke_all calls t)
  = (version t + Z.of_nat (length (List.filter is_increment calls)))%Z.
Proof.
  unfold invoke_all. revert t.
  induction calls as [|c calls IH]; intros t Hlo Hhi;
    cbn [List.filter List.fold_left] in *.
  - simpl. lia.
  - pose proof (invoke_version t c) as Hv.
    destruct (is_increment c); cbn [length] in *.
    + rewrite Nat2Z.inj_succ in *.
      rewrite tracking_props.wrap64_succ in Hv by lia.
      rewrite IH by (rewrite Hv; lia). rewrite Hv. lia.
    + rewrite IH by (rewrite Hv; lia). rewrite Hv. lia.
Qed.

Lemma version_counts_increments_witness :
  version (invoke_all [CallIncrementVersion 150%Z; CallComplete 200%Z 5%float;
                       CallIncrementVersion 201%Z] active_track) = 3%Z.
Proof.
  apply (version_counts_increments
           [CallIncrementVersion 150%Z; CallComplete 200%Z 5%float;
            CallIncrementVersion 201%Z] active_track); vm_compute; congruence.
Defined.

End lifecycle_props.

(** ** Constraints of the tables *)

Module constraint_props.
Import tracking repository lifecycle samples repository_props.

Lemma NoDup_map_snoc {A B : Type} (f : A -> B) (l : list A) (x : A) :
  List.NoDup (List.map f l) -> (forall r, List.In r l -> f r <> f x) ->
  List.NoDup (List.map f (l ++ [x])).
Proof.
  intros Hnd Hfresh. rewrite List.map_app. simpl.
  apply List.NoDup_app; [assumption | repeat constructor; intros [] |].
  intros y Hy [<- | []]. apply List.in_map_iff in Hy as (r & Hr & Hin).
  now apply (Hfresh r Hin).
Qed.

Lemma waypoint_fk_ids (db db' : DB) :
  List.map m_ID (trip_tracks db') = List.map m_ID (trip_tracks db) ->
  waypoints db' = waypoints db -> waypoint_fk db -> waypoint_fk db'.
Proof.
  intros Hids Hw Hfk w Hin. rewrite Hw in Hin.
  destruct (Hfk w Hin) as (r & Hr & Hid).
  assert (Hm : List.In (wm_TripTrackID w) (List.map m_ID (trip_tracks db'))).
  { rewrite Hids, <- Hid. now apply List.in_map. }
  apply List.in_map_iff in Hm as (r' & Hr' & Hin'). eauto.
Qed.

(** One more row of [trip_tracks], with a new id and a new booking id. *)
Lemma append_row_keeps_constraints (db : DB) (row : TripTrackModel) :
  constraints_hold db ->
  (forall r, List.In r (trip_tracks db) -> m_ID r <> m_ID row) ->
  (forall r, List.In r (trip_tracks db) -> m_BookingID r <> m_BookingID row) ->
  constraints_hold (mkDB (trip_tracks db ++ [row]) (waypoints db)).
Proof.
  intros (Hpk & Hbk & Hwpk & Hfk) Hid Hb.
  split; [| split; [| split]].
  - now apply (NoDup_map_snoc m_ID).
  - now apply (NoDup_map_snoc m_BookingID).
  - exact Hwpk.
  - intros w Hin. destruct (Hfk w Hin) as (r & Hr & Hrid).
    exists r. split; [| assumption]. simpl. apply List.in_or_app. now left.
Qed.

(** Rows rewritten in place: the ids stay when the rewriting keeps them. *)
Lemma replace_rows_ids (cond : TripTrackModel -> bool)
    (f : TripTrackModel -> TripTrackModel) (rows : list TripTrackModel) :
  (forall r, cond r = true -> m_ID (f r) = m_ID r) ->
  List.map m_ID (List.map (fun r => if cond r then f r else r) rows)
  = List.map m_ID rows.
Proof.
  intros Hkeep. induction rows as [|r rows IH]; simpl; [reflexivity |].
  rewrite IH. f_equal. destruct (cond r) eqn:Hc; [now apply Hkeep | reflexivity].
Qed.

(** Rows of one id rewritten in place with a booking id that no other row
    has: the booking ids stay unique. *)
Lemma replace_rows_booking (cond : TripTrackModel -> bool)
    (f : TripTrackModel -> TripTrackModel) (key booking : uuid)
    (rows : list TripTrackModel) :
  List.NoDup (List.map m_ID rows) -> List.NoDup (List.map m_BookingID rows) ->
  (forall r, cond r = true -> m_ID r = key) ->
  (forall r, m_BookingID (f r) = booking) ->
  (forall r, List.In r rows -> cond r = false -> m_BookingID r <> booking) ->
  List.NoDup (List.map m_BookingID
                (List.map (fun r => if cond r then f r else r) rows)).
Proof.
  intros Hids Hbks Hkey Hfb.
  induction rows as [|r rows IH]; simpl; intros Hrest; [constructor |].
  inversion Hids as [|? ? Hidr Hids']; subst.
  inversion Hbks as [|? ? Hbkr Hbks']; subst.
  destruct (cond r) eqn:Hc.
  - assert (Hno : forall x, List.In x rows -> cond x = false).
    { intros x Hx. destruct (cond x) eqn:Hcx; [| reflexivity].
      exfalso. apply Hidr. rewrite (Hkey r Hc), <- (Hkey x Hcx).
      now apply List.in_map. }
    replace (List.map (fun r0 => if cond r0 then f r0 else r0) rows) with rows.
    2:{ rewrite <- (List.map_id rows) at 1. apply List.map_ext_in.
        intros x Hx. now rewrite (Hno x Hx). }
    constructor; [| assumption].
    rewrite Hfb. intros Hin. apply List.in_map_iff in Hin as (x & Hx & Hxin).
    apply (Hrest x); auto.
  - constructor.
    + intros Hin. apply List.in_map_iff in Hin as (y & Hy & Hyin).
      apply List.in_map_iff in Hyin as (x & Hx & Hxin).
      destruct (cond x) eqn:Hcx; subst y.
      * rewrite Hfb in Hy. apply (Hrest r); auto.
      * apply Hbkr. rewrite <- Hy. now apply List.in_map.
    + apply IH; auto.
Qed.

Lemma update_cond_id (model r : TripTrackModel) :
  update_cond model r = true -> m_ID r = m_ID model.
Proof. unfold update_cond. intros [Hid _]%andb_true_iff. now apply N.eqb_eq. Qed.

(** The first statement of gorm's [Save] keeps the constraints. *)
Lemma update_where_keeps_constraints (model : TripTrackModel) (db : DB) :
  constraints_hold db -> constraints_hold (fst (fst (update_where model db))).
Proof.
  intros (Hpk & Hbk & Hwpk & Hfk). unfold update_where.
  destruct (negb (Nat.eqb (length (List.filter (update_cond model) (trip_tracks db))) 0)
            && existsb (fun r => (m_BookingID r =? m_BookingID model)%N)
                 (List.filter (fun r => negb (update_cond model r)) (trip_tracks db)))
    eqn:Hclash; [now repeat split |].
  cbn [fst].
  assert (Hids : List.map m_ID
                   (List.map (fun r => if update_cond model r then model else r)
                             (trip_tracks db))
                 = List.map m_ID (trip_tracks db)).
  { apply (replace_rows_ids (update_cond model) (fun _ => model)).
    intros r Hc. symmetry. now apply update_cond_id. }
  split; [| split; [| split]].
  - unfold pk_unique. simpl. now rewrite Hids.
  - unfold booking_unique. simpl.
    apply andb_false_iff in Hclash as [Hnone | Hfree].
    + apply negb_false_iff, Nat.eqb_eq, List.length_zero_iff_nil in Hnone.
      rewrite map_no_hit; [exact Hbk |].
      intros x Hx. destruct (update_cond model x) eqn:Hcx; [| reflexivity].
      assert (Hin : List.In x (List.filter (update_cond model) (trip_tracks db)))
        by (apply List.filter_In; auto).
      rewrite Hnone in Hin. destruct Hin.
    + apply (replace_rows_booking (update_cond model) (fun _ => model)
               (m_ID model) (m_BookingID model));
        [exact Hpk | exact Hbk | apply update_cond_id | reflexivity |].
      intros r Hin Hc. rewrite existsb_false_iff in Hfree.
      apply N.eqb_neq, Hfree. apply List.filter_In. now rewrite Hc.
  - exact Hwpk.
  - now apply (waypoint_fk_ids db).
Qed.

(** The second statement of gorm's [Save] keeps the constraints. *)
Lemma upsert_keeps_constraints (model : TripTrackModel) (db : DB) :
  constraints_hold db -> constraints_hold (fst (fst (upsert model db))).
Proof.
  intros Hc. pose proof Hc as (Hpk & Hbk & Hwpk & Hfk). unfold upsert.
  destruct (existsb (fun r => negb (m_ID r =? m_ID model)%N
                              && (m_BookingID r =? m_BookingID model)%N)
              (trip_tracks db)) eqn:Hclash; [exact Hc |].
  rewrite existsb_false_iff in Hclash.
  assert (Hfree : forall r, List.In r (trip_tracks db) ->
                    (m_ID r =? m_ID model)%N = false ->
                    m_BookingID r <> m_BookingID model).
  { intros r Hin Hk Hb. specialize (Hclash r Hin). rewrite Hk in Hclash.
    apply N.eqb_eq in Hb. rewrite Hb in Hclash. discriminate. }
  destruct (existsb (fun r => (m_ID r =? m_ID model)%N) (trip_tracks db)) eqn:Hkey;
    cbn [fst].
  - assert (Hids : List.map m_ID
                     (List.map (fun r => if (m_ID r =? m_ID model)%N
                                         then on_conflict r model else r)
                               (trip_tracks db))
                   = List.map m_ID (trip_tracks db))
      by now apply (replace_rows_ids (fun r => (m_ID r =? m_ID model)%N)
                      (fun r => on_conflict r model)).
    split; [| split; [| split]].
    + unfold pk_unique. simpl. now rewrite Hids.
    + unfold booking_unique. simpl.
      apply (replace_rows_booking (fun r => (m_ID r =? m_ID model)%N)
               (fun r => on_conflict r model) (m_ID model) (m_BookingID model));
        [exact Hpk | exact Hbk | | reflexivity | exact Hfree].
      intros r Hr. now apply N.eqb_eq.
    + exact Hwpk.
    + now apply (waypoint_fk_ids db).
  - rewrite existsb_false_iff in Hkey.
    apply append_row_keeps_constraints; [exact Hc | |].
    + intros r Hin. apply N.eqb_neq. now apply Hkey.
    + intros r Hin. apply Hfree; [exact Hin | now apply Hkey].
Qed.

Section writes.
Context `{Postgres}.

Lemma insert_trip_track_keeps_constraints (model : TripTrackModel) (db : DB) :
  constraints_hold db -> constraints_hold (fst (insert_trip_track model db)).
Proof.
  intros Hc. unfold insert_trip_track.
  destruct (pg_decimal 10 3 (m_TotalDistanceKm model)) as [distance | err];
    [| exact Hc].
  destruct (existsb (fun r => (m_ID r =? m_ID model)%N) (trip_tracks db)) eqn:Hid;
    [exact Hc |].
  destruct (existsb (fun r => (m_BookingID r =? m_BookingID model)%N) (trip_tracks db))
    eqn:Hb; [exact Hc |].
  rewrite existsb_false_iff in Hid, Hb. cbn [fst].
  apply append_row_keeps_constraints; [exact Hc | |];
    intros r Hin; apply N.eqb_neq; auto.
Qed.

(** [Save] keeps the constraints. *)
Lemma Save_keeps_constraints (track : TripTrack) (db : DB) :
  constraints_hold db -> constraints_hold (fst (Save track db)).
Proof.
  intros Hc. unfold Save.
  pose proof (insert_trip_track_keeps_constraints (toModel track) db Hc) as Hi.
  destruct (insert_trip_track (toModel track) db) as [db' [err |]]; exact Hi.
Qed.

Lemma gorm_Save_keeps_constraints (stamp : Time) (model : TripTrackModel) (db : DB) :
  constraints_hold db -> constraints_hold (fst (fst (gorm_Save stamp model db))).
Proof.
  intros Hc. unfold gorm_Save.
  destruct (m_ID model =? uuid_Nil)%N.
  - pose proof (insert_trip_track_keeps_constraints model db Hc) as Hi.
    destruct (insert_trip_track model db) as [db' [err |]]; exact Hi.
  - destruct (pg_decimal 10 3 (m_TotalDistanceKm model)) as [distance | err];
      [| exact Hc].
    pose proof (update_where_keeps_constraints (stamped model distance stamp) db Hc)
      as Hu.
    destruct (update_where (stamped model distance stamp) db)
      as [[db' [err |]] rowsAffected]; [exact Hu |].
    destruct rowsAffected; [| exact Hu].
    now apply upsert_keeps_constraints.
Qed.

Lemma Update_db (stamp : Time) (track : TripTrack) (db : DB) :
  fst (Update stamp track db) = fst (fst (gorm_Save stamp (toModel track) db)).
Proof.
  unfold Update.
  destruct (gorm_Save stamp (toModel track) db) as [[db' [err |]] rowsAffected];
    [reflexivity |].
  now destruct (Nat.eqb rowsAffected 0).
Qed.

(** [Update] keeps the constraints. *)
Lemma Update_keeps_constraints (stamp : Time) (track : TripTrack) (db : DB) :
  constraints_hold db -> constraints_hold (fst (Update stamp track db)).
Proof.
  intros Hc. rewrite Update_db. now apply gorm_Save_keeps_constraints.
Qed.

(** [AddWaypoint] keeps the constraints. *)
Lemma AddWaypoint_keeps_constraints (createdAt : Time) (trackID : uuid)
    (waypoint : Waypoint) (db : DB) :
  constraints_hold db ->
  constraints_hold (fst (AddWaypoint createdAt trackID waypoint db)).
Proof.
  intros Hc. pose proof Hc as (Hpk & Hbk & Hwpk & Hfk).
  unfold AddWaypoint, insert_waypoint.
  cbn [wm_ID wm_TripTrackID wm_Speed wm_Heading].
  destruct (pg_decimal 6 2 (wp_Speed waypoint)) as [speed | err]; [| exact Hc].
  destruct (pg_decimal 5 2 (wp_Heading waypoint)) as [heading | err]; [| exact Hc].
  destruct (existsb (fun r => (wm_ID r =? wp_ID waypoint)%N) (waypoints db)) eqn:Hid;
    [exact Hc |].
  destruct (existsb (fun r => (m_ID r =? trackID)%N) (trip_tracks db)) eqn:Hfkb;
    cbn [negb fst]; [| exact Hc].
  rewrite existsb_false_iff in Hid. apply existsb_exists in Hfkb as (r & Hr & Hrid).
  apply N.eqb_eq in Hrid.
  split; [exact Hpk |]. split; [exact Hbk |]. split.
  - apply (NoDup_map_snoc wm_ID); [exact Hwpk |].
    intros w Hin. apply N.eqb_neq. now apply Hid.
  - intros w Hin. simpl in Hin. apply List.in_app_or in Hin as [Hin | [<- | []]].
    + apply (Hfk w Hin).
    + exists r. now split.
Qed.

End writes.

Lemma db_one_active_constraints : constraints_hold db_one_active.
Proof.
  repeat split; try (repeat constructor; simpl; tauto).
  intros w [].
Qed.

End constraint_props.

(** ** Updates and reads of the repository *)

Module store_props.
Import tracking repository lifecycle samples repository_props export_props.

Lemma FindByID_found (key : uuid) (db : DB) (t : TripTrack) :
  FindByID key db = inl t -> List.In (toModel t) (trip_tracks db) /\ id t = key.
Proof.
  unfold FindByID.
  destruct (First _ (trip_tracks db)) as [model|] eqn:HF; [| discriminate].
  intros [= <-]. apply First_Some in HF as [Hin Hc]. apply N.eqb_eq in Hc.
  destruct model. simpl in *. auto.
Qed.

Lemma filter_replaced_other (key other : uuid) (row : TripTrackModel)
    (rows : list TripTrackModel) :
  m_ID row = key -> other <> key ->
  List.filter (fun r => (m_ID r =? other)%N)
    (List.map (fun r => if (m_ID r =? key)%N then row else r) rows)
  = List.filter (fun r => (m_ID r =? other)%N) rows.
Proof.
  intros Hr Hother. induction rows as [|r rows IH]; [reflexivity |].
  cbn [List.map List.filter]. rewrite IH.
  destruct (N.eqb_spec (m_ID r) key) as [Hk | Hk]; [| reflexivity].
  replace (m_ID row =? other)%N with false by (symmetry; apply N.eqb_neq; congruence).
  replace (m_ID r =? other)%N with false by (symmetry; apply N.eqb_neq; congruence).
  reflexivity.
Qed.

(** The lookups by id after the row of [key] has been replaced. *)
Lemma FindByID_replaced (key : uuid) (db : DB) (stored row : TripTrackModel) :
  List.In stored (trip_tracks db) -> m_ID stored = key -> m_ID row = key ->
  let db' := mkDB (List.map (fun r => if (m_ID r =? key)%N then row else r)
                            (trip_tracks db))
                  (waypoints db) in
  FindByID key db' = inl (toDomain row) /\
  (forall other, other <> key -> FindByID other db' = FindByID other db).
Proof.
  intros Hin Hs Hr db'. split.
  - unfold FindByID.
    destruct (First (fun r => (m_ID r =? key)%N) (trip_tracks db')) as [model|] eqn:HF.
    + apply First_Some in HF as [Hm Hc]. apply N.eqb_eq in Hc.
      apply List.in_map_iff in Hm as (r0 & Hr0 & Hr0in).
      destruct (m_ID r0 =? key)%N eqn:Hk; [now subst model |].
      apply N.eqb_neq in Hk. congruence.
    + rewrite First_None in HF. specialize (HF row).
      cbn beta in HF. rewrite Hr, N.eqb_refl in HF.
      assert (Hrow : List.In row (trip_tracks db')).
      { apply List.in_map_iff. exists stored. split; [| assumption].
        now rewrite Hs, N.eqb_refl. }
      specialize (HF Hrow). discriminate.
  - intros other Hother. unfold FindByID, First. cbn [trip_tracks db'].
    now rewrite filter_replaced_other.
Qed.

(** The keys of the table after the row of [key] has been replaced by a
    row of the same id and booking id. *)
Lemma replaced_keys (key : uuid) (db : DB) (stored row : TripTrackModel) :
  pk_unique db -> List.In stored (trip_tracks db) ->
  m_ID stored = key -> m_ID row = key -> m_BookingID row = m_BookingID stored ->
  let rows' := List.map (fun r => if (m_ID r =? key)%N then row else r)
                        (trip_tracks db) in
  List.map m_ID rows' = List.map m_ID (trip_tracks db) /\
  List.map m_BookingID rows' = List.map m_BookingID (trip_tracks db) /\
  List.In row rows'.
Proof.
  intros Hpk Hin Hs Hr Hb rows'. split; [| split].
  - unfold rows'. rewrite List.map_map. apply List.map_ext_in. intros r Hrin.
    destruct (N.eqb_spec (m_ID r) key); congruence.
  - unfold rows'. rewrite List.map_map. apply List.map_ext_in. intros r Hrin.
    destruct (N.eqb_spec (m_ID r) key) as [Hk | Hk]; [| reflexivity].
    rewrite (pk_unique_inj db r stored Hpk Hrin Hin) by congruence. exact Hb.
  - apply List.in_map_iff. exists stored. split; [| assumption].
    now rewrite Hs, N.eqb_refl.
Qed.

Section writes.
Context `{Postgres}.

(** What [gorm_Save] reports: with no error, at least one row. *)
Lemma gorm_Save_rows (stamp : Time) (model : TripTrackModel) (db : DB) :
  snd (fst (gorm_Save stamp model db)) = None ->
  snd (gorm_Save stamp model db) <> 0%nat.
Proof.
  unfold gorm_Save.
  destruct (m_ID model =? uuid_Nil)%N.
  - destruct (insert_trip_track model db) as [db' [err |]]; [discriminate |].
    intros _. discriminate.
  - destruct (pg_decimal 10 3 (m_TotalDistanceKm model)) as [distance | err];
      [| discriminate].
    destruct (update_where (stamped model distance stamp) db)
      as [[db' [err |]] rowsAffected]; [discriminate |].
    destruct rowsAffected; [| intros _; discriminate].
    unfold upsert.
    destruct (existsb _ (trip_tracks db')); [discriminate |].
    destruct (existsb _ (trip_tracks db')); intros _; discriminate.
Qed.

Lemma Update_no_lock (stamp : Time) (track : TripTrack) (db : DB) :
  snd (Update stamp track db) <> Some ErrOptimisticLock.
Proof.
  unfold Update. pose proof (gorm_Save_rows stamp (toModel track) db) as Hrows.
  destruct (gorm_Save stamp (toModel track) db) as [[db' [err |]] rowsAffected];
    [discriminate |].
  cbn [fst snd] in Hrows. specialize (Hrows eq_refl).
  destruct rowsAffected; [congruence | discriminate].
Qed.

(** [Update] over a stored row, read back: the loaded track has the columns
    of the written one. *)
Lemma Update_then_FindByID (stamp : Time) (track : TripTrack) (db : DB)
    (stored : TripTrackModel) (distance : float64) :
  pk_unique db -> booking_unique db ->
  List.In stored (trip_tracks db) ->
  m_ID stored = id track -> m_BookingID stored = bookingID track ->
  id track <> uuid_Nil ->
  pg_decimal 10 3 (totalDistanceKm track) = inl distance ->
  exists row,
    Update stamp track db
    = (mkDB (List.map (fun r => if (m_ID r =? id track)%N then row else r)
                      (trip_tracks db))
            (waypoints db), None) /\
    FindByID (id track) (fst (Update stamp track db)) = inl (toDomain row) /\
    (forall other, other <> id track ->
       FindByID other (fst (Update stamp track db)) = FindByID other db) /\
    m_ID row = id track /\ m_BookingID row = bookingID track /\
    m_RunnerID row = runnerID track /\ m_Status row = status track /\
    m_TotalDistanceKm row = distance /\ m_CompletedAt row = completedAt track /\
    m_Version row = version track.
Proof.
  intros Hpk Hbk Hin Hid Hb Hnil Hdec.
  destruct (Update_stored stamp track db stored distance Hpk Hbk Hin Hid Hb Hnil Hdec)
    as (row & HU & Rid & Rrest).
  exists row. rewrite HU. cbn [fst].
  destruct (FindByID_replaced (id track) db stored row Hin Hid Rid) as [Hfind Hother].
  split; [reflexivity |]. split; [exact Hfind |]. split; [exact Hother |].
  split; [exact Rid | exact Rrest].
Qed.

(** [Update] writes the track over the stored row of its id, whatever the
    version of that row.  For a track whose id and booking id are those of a
    stored row (the id not being the zero id, the distance fitting its
    column), [Update] returns [nil]; [FindByID] then loads a track with the
    booking, the runner, the status and the version of the written track
    and the distance as the column holds it; every other track is loaded as
    before, and the waypoints are not touched. *)
Theorem Update_replaces_stored_row (stamp : Time) (track : TripTrack) (db : DB)
    (stored : TripTrackModel) (distance : float64) :
  pk_unique db -> booking_unique db ->
  List.In stored (trip_tracks db) ->
  m_ID stored = id track ->
  m_BookingID stored = bookingID track ->
  id track <> uuid_Nil ->
  pg_decimal 10 3 (totalDistanceKm track) = inl distance ->
  snd (Update stamp track db) = None /\
  (exists loaded,
     FindByID (id track) (fst (Update stamp track db)) = inl loaded /\
     id loaded = id track /\ bookingID loaded = bookingID track /\
     runnerID loaded = runnerID track /\ status loaded = status track /\
     totalDistanceKm loaded = distance /\ version loaded = version track) /\
  (forall other, other <> id track ->
     FindByID other (fst (Update stamp track db)) = FindByID other db) /\
  waypoints (fst (Update stamp track db)) = waypoints db.
Proof.
  intros Hpk Hbk Hin Hid Hb Hnil Hdec.
  destruct (Update_then_FindByID stamp track db stored distance
              Hpk Hbk Hin Hid Hb Hnil Hdec)
    as (row & HU & Hfind & Hother & Rid & Rb & Rr & Rs & Rd & Rc & Rv).
  split; [now rewrite HU |]. split; [| split; [exact Hother | now rewrite HU]].
  exists (toDomain row). split; [exact Hfind |].
  now repeat split.
Qed.

(** [Update] has no lock in effect.  It never returns [ErrOptimisticLock].
    Two writers hold the same stored row and each bumps the version once:
    the first [Update] succeeds, and so does the second, made on the state
    the first has left; the row then holds what the second writer wrote. *)
Theorem Update_lets_stale_writer_through (stamp1 stamp2 : Time)
    (first second : TripTrack) (db : DB) (stored : TripTrackModel)
    (distance1 distance2 : float64) :
  pk_unique db -> booking_unique db ->
  List.In stored (trip_tracks db) ->
  m_ID stored <> uuid_Nil ->
  id first = m_ID stored -> bookingID first = m_BookingID stored ->
  version first = wrap64 (m_Version stored + 1) ->
  id second = m_ID stored -> bookingID second = m_BookingID stored ->
  version second = wrap64 (m_Version stored + 1) ->
  pg_decimal 10 3 (totalDistanceKm first) = inl distance1 ->
  pg_decimal 10 3 (totalDistanceKm second) = inl distance2 ->
  let db1 := fst (Update stamp1 first db) in
  let db2 := fst (Update stamp2 second db1) in
  snd (Update stamp1 first db) = None /\
  snd (Update stamp2 second db1) = None /\
  (exists loaded,
     FindByID (m_ID stored) db2 = inl loaded /\
     runnerID loaded = runnerID second /\ status loaded = status second /\
     totalDistanceKm loaded = distance2 /\ version loaded = version second) /\
  (forall stamp track db0, snd (Update stamp track db0) <> Some ErrOptimisticLock).
Proof.
  intros Hpk Hbk Hin Hnil Hid1 Hb1 Hv1 Hid2 Hb2 Hv2 Hd1 Hd2 db1 db2.
  destruct (Update_then_FindByID stamp1 first db stored distance1)
    as (row1 & HU1 & _ & _ & Rid1 & Rb1 & _); try congruence.
  destruct (replaced_keys (id first) db stored row1) as (Hids & Hbks & Hrow1);
    try congruence.
  assert (Hdb1 : db1 = mkDB (List.map (fun r => if (m_ID r =? id first)%N
                                               then row1 else r) (trip_tracks db))
                            (waypoints db))
    by (unfold db1; now rewrite HU1).
  destruct (Update_then_FindByID stamp2 second db1 row1 distance2)
    as (row2 & HU2 & Hfind2 & _ & Rid2 & Rb2 & Rr2 & Rs2 & Rd2 & Rc2 & Rv2);
    try congruence.
  - unfold pk_unique. rewrite Hdb1. cbn [trip_tracks]. now rewrite Hids.
  - unfold booking_unique. rewrite Hdb1. cbn [trip_tracks]. now rewrite Hbks.
  - rewrite Hdb1. exact Hrow1.
  - split; [now rewrite HU1 |]. split; [now rewrite HU2 |].
    split; [| intros; apply Update_no_lock].
    exists (toDomain row2). rewrite <- Hid2. split; [exact Hfind2 |].
    now repeat split.
Qed.

End writes.

Lemma Update_replaces_stored_row_witness :
  snd (@Update wide_columns 201%Z completed_track db_one_active) = None /\
  List.map (fun r => (m_Status r, m_TotalDistanceKm r, m_Version r))
    (trip_tracks (fst (@Update wide_columns 201%Z completed_track db_one_active)))
  = [("completed", 5%float, 1%Z)].
Proof.
  destruct (@Update_replaces_stored_row wide_columns 201%Z completed_track
              db_one_active (toModel active_track) 5%float)
    as (Herr & _); try reflexivity.
  - repeat constructor. simpl. tauto.
  - repeat constructor. simpl. tauto.
  - now left.
  - discriminate.
  - split; [exact Herr | reflexivity].
Defined.

Lemma Update_lets_stale_writer_through_witness :
  snd (@Update wide_columns 211%Z
         (IncrementVersion 210%Z (fst (Cancel 205%Z active_track)))
         (fst (@Update wide_columns 202%Z
                 (IncrementVersion 201%Z completed_track) db_one_active)))
  = None.
Proof.
  refine (proj1 (proj2
            (@Update_lets_stale_writer_through wide_columns 202%Z 211%Z
               (IncrementVersion 201%Z completed_track)
               (IncrementVersion 210%Z (fst (Cancel 205%Z active_track)))
               db_one_active (toModel active_track) 5%float 0%float
               _ _ _ _ _ _ _ _ _ _ _ _))); try reflexivity.
  - repeat constructor. simpl. tauto.
  - repeat constructor. simpl. tauto.
  - now left.
  - discriminate.
Defined.

(** *** Waypoints *)

Section waypoints.
Context `{Postgres}.

(** [AddWaypoint] of a waypoint with an unused id to a stored track appends
    its row, the speed and the heading as their columns hold them. *)
Lemma AddWaypoint_inserts (createdAt : Time) (trackID : uuid) (wp : Waypoint) (db : DB)
    (speed heading : float64) :
  (exists r, List.In r (trip_tracks db) /\ m_ID r = trackID) ->
  (forall w, List.In w (waypoints db) -> wm_ID w <> wp_ID wp) ->
  pg_decimal 6 2 (wp_Speed wp) = inl speed ->
  pg_decimal 5 2 (wp_Heading wp) = inl heading ->
  AddWaypoint createdAt trackID wp db
  = (mkDB (trip_tracks db)
          (waypoints db
             ++ [with_speed_heading (waypoint_row createdAt trackID wp) speed heading]),
     None).
Proof.
  intros (r & Hr & Hrid) Hfresh Hs Hh. unfold AddWaypoint, insert_waypoint.
  cbn [wm_ID wm_TripTrackID wm_Speed wm_Heading]. rewrite Hs, Hh.
  replace (existsb (fun r0 => (wm_ID r0 =? wp_ID wp)%N) (waypoints db)) with false.
  2:{ symmetry. apply existsb_false_iff. intros w Hw. apply N.eqb_neq. now apply Hfresh. }
  replace (existsb (fun r0 => (m_ID r0 =? trackID)%N) (trip_tracks db)) with true.
  2:{ symmetry. apply existsb_exists. exists r. split; [assumption | now apply N.eqb_eq]. }
  reflexivity.
Qed.

(** [AddWaypoint] fails, and adds no row, on a speed or a heading that its
    column cannot hold. *)
Lemma AddWaypoint_overflow (createdAt : Time) (trackID : uuid) (wp : Waypoint)
    (db : DB) (err : error) :
  pg_decimal 6 2 (wp_Speed wp) = inr err \/
  (exists speed, pg_decimal 6 2 (wp_Speed wp) = inl speed) /\
  pg_decimal 5 2 (wp_Heading wp) = inr err ->
  AddWaypoint createdAt trackID wp db
  = (db, Some (Wrapf "failed to add waypoint: %w" [] err)).
Proof.
  unfold AddWaypoint, insert_waypoint. cbn [wm_Speed wm_Heading].
  intros [-> | [[speed ->] ->]]; reflexivity.
Qed.

(** A waypoint added to a stored track is read back.  [AddWaypoint] with an
    unused waypoint id, a speed and a heading that their columns hold,
    succeeds and changes no track; [GetWaypoints] of the track then returns,
    by ascending recorded time, the waypoints it returned before and one
    more, which has the id and the coordinates of the added one and the
    speed and the heading as stored; every other track has the waypoints it
    had. *)
Theorem AddWaypoint_then_GetWaypoints (createdAt : Time) (trackID : uuid)
    (wp : Waypoint) (db : DB) (speed heading : float64) :
  (exists r, List.In r (trip_tracks db) /\ m_ID r = trackID) ->
  (forall w, List.In w (waypoints db) -> wm_ID w <> wp_ID wp) ->
  pg_decimal 6 2 (wp_Speed wp) = inl speed ->
  pg_decimal 5 2 (wp_Heading wp) = inl heading ->
  let db' := fst (AddWaypoint createdAt trackID wp db) in
  snd (AddWaypoint createdAt trackID wp db) = None /\
  trip_tracks db' = trip_tracks db /\
  (exists read,
     Permutation (read :: fst (GetWaypoints trackID db))
                 (fst (GetWaypoints trackID db')) /\
     wp_ID read = wp_ID wp /\
     wp_Latitude read = wp_Latitude wp /\ wp_Longitude read = wp_Longitude wp /\
     wp_Speed read = speed /\ wp_Heading read = heading) /\
  StronglySorted time_le (fst (GetWaypoints trackID db')) /\
  (forall other, other <> trackID ->
     Permutation (fst (GetWaypoints other db)) (fst (GetWaypoints other db'))).
Proof.
  intros Htrack Hfresh Hs Hh.
  rewrite (AddWaypoint_inserts _ _ _ _ speed heading Htrack Hfresh Hs Hh).
  cbn [fst snd].
  set (row := with_speed_heading (waypoint_row createdAt trackID wp) speed heading).
  set (db' := mkDB (trip_tracks db) (waypoints db ++ [row])).
  assert (Hrows : rows_of trackID db' = rows_of trackID db ++ [row]).
  { unfold rows_of, db'. cbn [waypoints]. rewrite List.filter_app.
    cbn [List.filter row with_speed_heading waypoint_row wm_TripTrackID].
    now rewrite N.eqb_refl. }
  split; [reflexivity |]. split; [reflexivity |].
  destruct (GetWaypoints_ordered trackID db) as (_ & _ & Hp).
  destruct (GetWaypoints_ordered trackID db') as (_ & Hsorted' & Hp').
  split; [| split; [exact Hsorted' |]].
  - exists (of_row row). split; [| now repeat split].
    rewrite <- Hp', Hrows, List.map_app. cbn [List.map].
    rewrite <- Hp. apply Permutation_cons_append.
  - intros other Hother.
    destruct (GetWaypoints_ordered other db) as (_ & _ & Hq).
    destruct (GetWaypoints_ordered other db') as (_ & _ & Hq').
    rewrite <- Hq, <- Hq'. unfold rows_of, db'. cbn [waypoints].
    rewrite List.filter_app.
    cbn [List.filter row with_speed_heading waypoint_row wm_TripTrackID].
    replace (trackID =? other)%N with false by (symmetry; apply N.eqb_neq; congruence).
    now rewrite List.app_nil_r.
Qed.

End waypoints.

(** On the sample database, with columns that refuse a number of 10000 or
    more. *)
Lemma AddWaypoint_then_GetWaypoints_witness :
  List.map wp_ID
    (fst (GetWaypoints 1%N (fst (@AddWaypoint narrow_columns 500%Z 1%N wp_a db_one_active))))
  = [11%N].
Proof.
  destruct (@AddWaypoint_then_GetWaypoints narrow_columns 500%Z 1%N wp_a db_one_active
              0%float 0%float)
    as (_ & _ & (read & Hperm & Hid & _) & _).
  - exists (toModel active_track). split; [now left | reflexivity].
  - intros w [].
  - reflexivity.
  - reflexivity.
  - change (fst (GetWaypoints 1%N db_one_active)) with (@nil Waypoint) in Hperm.
    apply Permutation_length_1_inv in Hperm.
    rewrite Hperm. cbn [List.map]. now rewrite Hid.
Defined.

End store_props.

(** ** Location updates and what the handlers keep *)

Module flow_props.
Import tracking repository application lifecycle samples repository_props.

Lemma FindActiveByRunnerID_found (runnerID : uuid) (db : DB) (t : TripTrack) :
  FindActiveByRunnerID runnerID db = inl t ->
  List.In (toModel t) (trip_tracks db) /\
  tracking.runnerID t = runnerID /\ status t = TrackingActive.
Proof.
  unfold FindActiveByRunnerID.
  destruct (First _ (trip_tracks db)) as [model|] eqn:HF; [| discriminate].
  intros [= <-]. apply First_Some in HF as [Hin Hc].
  apply andb_true_iff in Hc as [Hr Hs].
  apply N.eqb_eq in Hr. apply String.eqb_eq in Hs.
  destruct model. simpl in *. auto.
Qed.

Section flow.
Context `{GoLib} `{Postgres} `{Kafka}.

Lemma publish_keeps (eventType : string) (data : EventData) (w : World) :
  w_db (publish eventType data w) = w_db w /\
  w_broadcast (publish eventType data w) = w_broadcast w.
Proof. unfold publish. destruct (NewCloudEvent _ _ _); now split. Qed.

Lemma publish_published (eventType : string) (data : EventData) (w : World) :
  (forall cloudEvt, NewCloudEvent "service-tracking" eventType data = inl cloudEvt ->
     w_published (publish eventType data w)
     = w_published w ++ [(TopicTrackingEvents, cloudEvt)]) /\
  (forall err, NewCloudEvent "service-tracking" eventType data = inr err ->
     w_published (publish eventType data w) = w_published w).
Proof. unfold publish. split; intros x ->; reflexivity. Qed.

Lemma HandleRunnerLocationUpdate_valid (wpID : uuid) (createdAt occurredAt : Time)
    (event : RunnerLocationUpdateEvent) (w : World) (track : TripTrack)
    (speed heading : float64) :
  FindActiveByRunnerID (lu_RunnerID event) (w_db w) = inl track ->
  lat_inside (lu_Latitude event) -> lng_inside (lu_Longitude event) ->
  (forall x, List.In x (waypoints (w_db w)) -> wm_ID x <> wpID) ->
  pg_decimal 6 2 (stored_speed (lu_Speed event)) = inl speed ->
  pg_decimal 5 2 (stored_heading (lu_Heading event)) = inl heading ->
  HandleRunnerLocationUpdate wpID createdAt occurredAt event w
  = (publish TrackingUpdated
       (DataUpdated (mkTrackingUpdatedEvent (id track) (bookingID track) (runnerID track)
                       (lu_Latitude event) (lu_Longitude event) (lu_Speed event)
                       occurredAt))
       (mkWorld
          (mkDB (trip_tracks (w_db w))
             (waypoints (w_db w)
              ++ [mkWaypointModel wpID (id track) (lu_Latitude event)
                    (lu_Longitude event) speed heading (lu_Timestamp event)
                    createdAt]))
          (w_broadcast w
           ++ [ws.mkTrackingUpdate (bookingID track) (runnerID track)
                 (lu_Latitude event) (lu_Longitude event) (lu_Speed event)
                 (lu_Heading event) (lu_Timestamp event)])
          (w_published w)),
     None).
Proof.
  intros Hfind Hlat Hlng Hfresh Hs Hh.
  unfold HandleRunnerLocationUpdate. rewrite Hfind.
  rewrite (waypoint_props.NewWaypoint_inside _ _ _ _ _ _ Hlat Hlng).
  apply FindActiveByRunnerID_found in Hfind as (Hin & _ & _).
  rewrite (store_props.AddWaypoint_inserts _ _ _ _ speed heading);
    [reflexivity | | exact Hfresh | exact Hs | exact Hh].
  exists (toModel track). now split.
Qed.

(** The same update when a column refuses the speed or the heading. *)
Lemma HandleRunnerLocationUpdate_overflow (wpID : uuid) (createdAt occurredAt : Time)
    (event : RunnerLocationUpdateEvent) (w : World) (track : TripTrack)
    (err : error) :
  FindActiveByRunnerID (lu_RunnerID event) (w_db w) = inl track ->
  lat_inside (lu_Latitude event) -> lng_inside (lu_Longitude event) ->
  pg_decimal 6 2 (stored_speed (lu_Speed event)) = inr err \/
  (exists speed, pg_decimal 6 2 (stored_speed (lu_Speed event)) = inl speed) /\
  pg_decimal 5 2 (stored_heading (lu_Heading event)) = inr err ->
  HandleRunnerLocationUpdate wpID createdAt occurredAt event w
  = (w, Some (Wrapf "failed to add waypoint: %w" []
                (Wrapf "failed to add waypoint: %w" [] err))).
Proof.
  intros Hfind Hlat Hlng Herr.
  unfold HandleRunnerLocationUpdate. rewrite Hfind.
  rewrite (waypoint_props.NewWaypoint_inside _ _ _ _ _ _ Hlat Hlng).
  erewrite store_props.AddWaypoint_overflow; [now destruct w | exact Herr].
Qed.

(** A valid location update of a runner with an active track, the id drawn
    for the waypoint being unused.  When the columns hold the speed and the
    heading that [NewWaypoint] has normalised, the handler returns [nil]; it
    adds one waypoint row, of the track that [FindActiveByRunnerID] returns,
    with the coordinates of the event and with the speed and the heading as
    the columns hold them; it sends one update for the booking of that track
    to the hub, carrying the speed and the heading of the event as they
    came; and it hands one tracking-updated event to the producer when the
    envelope can be built.  When a column refuses the speed or the heading,
    the handler returns the error of the insert, and adds, sends and
    publishes nothing. *)
Theorem HandleRunnerLocationUpdate_appends (wpID : uuid) (createdAt occurredAt : Time)
    (event : RunnerLocationUpdateEvent) (w : World) (track : TripTrack) :
  FindActiveByRunnerID (lu_RunnerID event) (w_db w) = inl track ->
  lat_inside (lu_Latitude event) -> lng_inside (lu_Longitude event) ->
  (forall x, List.In x (waypoints (w_db w)) -> wm_ID x <> wpID) ->
  let r := HandleRunnerLocationUpdate wpID createdAt occurredAt event w in
  let updatedEvt :=
    DataUpdated (mkTrackingUpdatedEvent (id track) (bookingID track) (runnerID track)
                   (lu_Latitude event) (lu_Longitude event) (lu_Speed event)
                   occurredAt) in
  (forall speed heading,
     pg_decimal 6 2 (stored_speed (lu_Speed event)) = inl speed ->
     pg_decimal 5 2 (stored_heading (lu_Heading event)) = inl heading ->
     snd r = None /\
     trip_tracks (w_db (fst r)) = trip_tracks (w_db w) /\
     (exists row,
        waypoints (w_db (fst r)) = waypoints (w_db w) ++ [row] /\
        wm_ID row = wpID /\ wm_TripTrackID row = id track /\
        wm_Latitude row = lu_Latitude event /\
        wm_Longitude row = lu_Longitude event /\
        wm_Speed row = speed /\ wm_Heading row = heading) /\
     w_broadcast (fst r)
     = w_broadcast w
       ++ [ws.mkTrackingUpdate (bookingID track) (runnerID track)
             (lu_Latitude event) (lu_Longitude event) (lu_Speed event)
             (lu_Heading event) (lu_Timestamp event)] /\
     (forall cloudEvt,
        NewCloudEvent "service-tracking" TrackingUpdated updatedEvt = inl cloudEvt ->
        w_published (fst r) = w_published w ++ [(TopicTrackingEvents, cloudEvt)]) /\
     (forall err,
        NewCloudEvent "service-tracking" TrackingUpdated updatedEvt = inr err ->
        w_published (fst r) = w_published w)) /\
  (forall err,
     pg_decimal 6 2 (stored_speed (lu_Speed event)) = inr err \/
     (exists speed, pg_decimal 6 2 (stored_speed (lu_Speed event)) = inl speed) /\
     pg_decimal 5 2 (stored_heading (lu_Heading event)) = inr err ->
     r = (w, Some (Wrapf "failed to add waypoint: %w" []
                     (Wrapf "failed to add waypoint: %w" [] err)))).
Proof.
  intros Hfind Hlat Hlng Hfresh. cbv zeta. split.
  - intros speed heading Hs Hh.
    rewrite (HandleRunnerLocationUpdate_valid _ _ _ _ _ _ speed heading
               Hfind Hlat Hlng Hfresh Hs Hh).
    cbn [fst snd].
    match goal with |- context [publish ?ty ?d ?w0] =>
      destruct (publish_keeps ty d w0) as [Hdb Hbc];
      destruct (publish_published ty d w0) as [Hok Herr]
    end.
    rewrite Hdb, Hbc. cbn [w_db w_broadcast w_published trip_tracks waypoints].
    split; [reflexivity |]. split; [reflexivity |].
    split; [eexists; split; [reflexivity |]; now repeat split |].
    split; [reflexivity |]. split; [exact Hok | exact Herr].
  - intros err Herr.
    now apply (HandleRunnerLocationUpdate_overflow _ _ _ _ _ track).
Qed.

(** A location update with a latitude or a longitude out of range is
    dropped: whatever the world is, the handler returns [nil] and changes
    nothing. *)
Theorem HandleRunnerLocationUpdate_drops_invalid (wpID : uuid)
    (createdAt occurredAt : Time) (event : RunnerLocationUpdateEvent) (w : World) :
  lat_outside (lu_Latitude event) \/ lng_outside (lu_Longitude event) ->
  HandleRunnerLocationUpdate wpID createdAt occurredAt event w = (w, None).
Proof.
  intros Hout. unfold HandleRunnerLocationUpdate.
  destruct (FindActiveByRunnerID _ _); [| reflexivity].
  destruct (waypoint_props.NewWaypoint_outside wpID _ _ (lu_Speed event)
              (lu_Heading event) (lu_Timestamp event) Hout) as [err ->].
  reflexivity.
Qed.

Lemma HandleBookingAccepted_db (newID : uuid) (now occurredAt : Time)
    (event : BookingAcceptedEvent) (w : World) :
  w_db (fst (HandleBookingAccepted newID now occurredAt event w)) = w_db w \/
  w_db (fst (HandleBookingAccepted newID now occurredAt event w))
  = fst (Save (NewTripTrack newID now (ba_BookingID event) (ba_RunnerID event)) (w_db w)).
Proof.
  unfold HandleBookingAccepted.
  destruct (FindByBookingID _ _); [now left |]. right.
  destruct (Save _ (w_db w)) as [db' [err|]]; simpl; [reflexivity |].
  apply publish_keeps.
Qed.

Lemma HandleRunnerLocationUpdate_db (wpID : uuid) (createdAt occurredAt : Time)
    (event : RunnerLocationUpdateEvent) (w : World) :
  w_db (fst (HandleRunnerLocationUpdate wpID createdAt occurredAt event w)) = w_db w \/
  exists trackID wp,
    w_db (fst (HandleRunnerLocationUpdate wpID createdAt occurredAt event w))
    = fst (AddWaypoint createdAt trackID wp (w_db w)).
Proof.
  unfold HandleRunnerLocationUpdate.
  destruct (FindActiveByRunnerID _ _) as [track|]; [| now left].
  destruct (NewWaypoint _ _ _ _ _ _) as [wp [err|]]; [now left |].
  right. exists (id track), wp.
  destruct (AddWaypoint _ _ _ _) as [db' [err|]]; simpl; [reflexivity |].
  apply publish_keeps.
Qed.

Lemma HandleDeliveryConfirmed_db (now stamp occurredAt : Time)
    (event : DeliveryConfirmedEvent) (w : World) :
  w_db (fst (HandleDeliveryConfirmed now stamp occurredAt event w)) = w_db w \/
  exists track,
    w_db (fst (HandleDeliveryConfirmed now stamp occurredAt event w))
    = fst (Update stamp track (w_db w)).
Proof.
  unfold HandleDeliveryConfirmed.
  destruct (FindByBookingID _ _) as [track|]; [| now left].
  destruct (negb (IsActive track)); [now left |].
  destruct (GetWaypoints _ _) as [wps ?].
  destruct (Complete _ _ _) as [track' [err|]]; [now left |].
  right. exists track'.
  destruct (Update _ _ _) as [db' [err|]]; simpl; [reflexivity |].
  apply publish_keeps.
Qed.

(** The three event handlers keep the constraints of the schema: whatever
    the event and whether the handler returns an error or not, ids stay
    unique, no booking has two tracks and every waypoint row belongs to a
    stored track. *)
Theorem handlers_keep_constraints (w : World) :
  constraints_hold (w_db w) ->
  (forall newID now occurredAt event,
     constraints_hold
       (w_db (fst (HandleBookingAccepted newID now occurredAt event w)))) /\
  (forall wpID createdAt occurredAt event,
     constraints_hold
       (w_db (fst (HandleRunnerLocationUpdate wpID createdAt occurredAt event w)))) /\
  (forall now stamp occurredAt event,
     constraints_hold
       (w_db (fst (HandleDeliveryConfirmed now stamp occurredAt event w)))).
Proof.
  intros Hc. split; [| split].
  - intros newID now occurredAt event.
    destruct (HandleBookingAccepted_db newID now occurredAt event w) as [-> | ->];
      [exact Hc | now apply constraint_props.Save_keeps_constraints].
  - intros wpID createdAt occurredAt event.
    destruct (HandleRunnerLocationUpdate_db wpID createdAt occurredAt event w)
      as [-> | (trackID & wp & ->)];
      [exact Hc | now apply constraint_props.AddWaypoint_keeps_constraints].
  - intros now stamp occurredAt event.
    destruct (HandleDeliveryConfirmed_db now stamp occurredAt event w)
      as [-> | (track & ->)];
      [exact Hc | now apply constraint_props.Update_keeps_constraints].
Qed.

(** [HandleBookingAccepted] does not look at the runner.  For a booking
    without a track it saves a new active track even when the runner of the
    event already has an active one: afterwards the runner has two active
    tracks. *)
Theorem HandleBookingAccepted_ignores_runner (newID : uuid) (now occurredAt : Time)
    (event : BookingAcceptedEvent) (w : World) (running : TripTrackModel) :
  List.In running (trip_tracks (w_db w)) ->
  m_RunnerID running = ba_RunnerID event -> m_Status running = TrackingActive ->
  (forall r, List.In r (trip_tracks (w_db w)) -> m_BookingID r <> ba_BookingID event) ->
  (forall r, List.In r (trip_tracks (w_db w)) -> m_ID r <> newID) ->
  let r := HandleBookingAccepted newID now occurredAt event w in
  snd r = None /\
  exists created,
    List.In running (trip_tracks (w_db (fst r))) /\
    List.In created (trip_tracks (w_db (fst r))) /\
    m_ID created = newID /\ m_ID running <> m_ID created /\
    m_RunnerID created = ba_RunnerID event /\ m_Status created = TrackingActive.
Proof.
  intros Hin Hrun Hact Hnone Hfresh. cbv zeta.
  unfold HandleBookingAccepted.
  apply FindByBookingID_not_found in Hnone. rewrite Hnone.
  rewrite Save_fresh;
    [| reflexivity | exact Hfresh | now apply FindByBookingID_not_found].
  cbn [fst snd]. split; [reflexivity |].
  match goal with |- context [publish ?ty ?d ?w0] =>
    destruct (publish_keeps ty d w0) as [-> _] end.
  exists (toModel (NewTripTrack newID now (ba_BookingID event) (ba_RunnerID event))).
  simpl. repeat split.
  - apply List.in_or_app. now left.
  - apply List.in_or_app. right. now left.
  - now apply Hfresh.
Qed.

End flow.

(** On the sample world, with columns that refuse a number of 10000 or
    more: a speed of 20 is stored, and a speed of 20000 makes the handler
    fail without a trace. *)
Lemma HandleRunnerLocationUpdate_appends_witness :
  List.map (fun m => (wm_ID m, wm_TripTrackID m, wm_Speed m, wm_Heading m))
    (waypoints (w_db (fst (@HandleRunnerLocationUpdate narrow_columns plain_kafka
       50%N 300%Z 301%Z
       (mkRunnerLocationUpdateEvent 3%N 1%float 2%float 20%float 400%float 299%Z)
       quiet_world))))
  = [(50%N, 1%N, 20%float, 0%float)] /\
  w_broadcast (fst (@HandleRunnerLocationUpdate narrow_columns plain_kafka
     50%N 300%Z 301%Z
     (mkRunnerLocationUpdateEvent 3%N 1%float 2%float 20%float 400%float 299%Z)
     quiet_world))
  = [ws.mkTrackingUpdate 2%N 3%N 1%float 2%float 20%float 400%float 299%Z] /\
  @HandleRunnerLocationUpdate narrow_columns plain_kafka 50%N 300%Z 301%Z
    (mkRunnerLocationUpdateEvent 3%N 1%float 2%float 20000%float 90%float 299%Z)
    quiet_world
  = (quiet_world,
     Some (Wrapf "failed to add waypoint: %w" []
             (Wrapf "failed to add waypoint: %w" []
                (Errorf "numeric field overflow" [])))).
Proof.
  split; [| split].
  - destruct (@HandleRunnerLocationUpdate_appends narrow_columns plain_kafka
       50%N 300%Z 301%Z
       (mkRunnerLocationUpdateEvent 3%N 1%float 2%float 20%float 400%float 299%Z)
       quiet_world active_track eq_refl (conj eq_refl eq_refl) (conj eq_refl eq_refl)
       (fun x (Hin : False) => match Hin with end)) as [Hok _].
    destruct (Hok 20%float 0%float eq_refl eq_refl)
      as (_ & _ & (row & -> & Hid & Htr & _ & _ & Hs & Hh) & _).
    cbn [List.map quiet_world w_db db_one_active waypoints List.app].
    now rewrite Hid, Htr, Hs, Hh.
  - destruct (@HandleRunnerLocationUpdate_appends narrow_columns plain_kafka
       50%N 300%Z 301%Z
       (mkRunnerLocationUpdateEvent 3%N 1%float 2%float 20%float 400%float 299%Z)
       quiet_world active_track eq_refl (conj eq_refl eq_refl) (conj eq_refl eq_refl)
       (fun x (Hin : False) => match Hin with end)) as [Hok _].
    destruct (Hok 20%float 0%float eq_refl eq_refl) as (_ & _ & _ & Hb & _).
    exact Hb.
  - destruct (@HandleRunnerLocationUpdate_appends narrow_columns plain_kafka
       50%N 300%Z 301%Z
       (mkRunnerLocationUpdateEvent 3%N 1%float 2%float 20000%float 90%float 299%Z)
       quiet_world active_track eq_refl (conj eq_refl eq_refl) (conj eq_refl eq_refl)
       (fun x (Hin : False) => match Hin with end)) as [_ Hfail].
    apply Hfail. left. reflexivity.
Defined.

Lemma HandleRunnerLocationUpdate_drops_invalid_witness :
  @HandleRunnerLocationUpdate wide_columns plain_kafka 50%N 300%Z 301%Z
    (mkRunnerLocationUpdateEvent 3%N 91%float 2%float 10%float 90%float 299%Z)
    quiet_world
  = (quiet_world, None).
Proof.
  apply (@HandleRunnerLocationUpdate_drops_invalid wide_columns plain_kafka).
  left. right. reflexivity.
Defined.

Lemma handlers_keep_constraints_witness :
  constraints_hold
    (w_db (fst (@HandleBookingAccepted wide_columns plain_kafka 8%N 400%Z 401%Z
                  (mkBookingAcceptedEvent 6%N 3%N) quiet_world))) /\
  constraints_hold
    (w_db (fst (@HandleDeliveryConfirmed small_angle_lib wide_columns plain_kafka
                  200%Z 201%Z 203%Z (mkDeliveryConfirmedEvent 2%N) quiet_world))).
Proof.
  destruct (@handlers_keep_constraints small_angle_lib wide_columns plain_kafka
              quiet_world constraint_props.db_one_active_constraints)
    as (Haccepted & _ & Hconfirmed).
  split; [apply Haccepted | apply Hconfirmed].
Defined.

Lemma HandleBookingAccepted_ignores_runner_witness :
  exists created,
    List.In (toModel active_track)
      (trip_tracks (w_db (fst (@HandleBookingAccepted wide_columns plain_kafka 8%N 400%Z 401%Z
                                 (mkBookingAcceptedEvent 6%N 3%N) quiet_world)))) /\
    List.In created
      (trip_tracks (w_db (fst (@HandleBookingAccepted wide_columns plain_kafka 8%N 400%Z 401%Z
                                 (mkBookingAcceptedEvent 6%N 3%N) quiet_world)))) /\
    m_ID created = 8%N /\ m_RunnerID created = 3%N /\ m_Status created = "active".
Proof.
  destruct (@HandleBookingAccepted_ignores_runner wide_columns plain_kafka 8%N 400%Z 401%Z
              (mkBookingAcceptedEvent 6%N 3%N) quiet_world (toModel active_track))
    as (_ & created & Hold & Hnew & Hid & _ & Hrun & Hact); try reflexivity.
  - now left.
  - intros r [<- | []]. vm_compute. discriminate.
  - intros r [<- | []]. vm_compute. discriminate.
  - exists created. repeat split; assumption.
Defined.

End flow_props.

(** ** Lookups, the read side and the export of validated routes *)

Module read_props.
Import tracking repository application lifecycle queries samples.
Import repository_props export_props.

Lemma least_by_id_le (rows : list TripTrackModel) (r : TripTrackModel) :
  least_by_id rows = Some r ->
  forall x, List.In x rows -> (m_ID r <= m_ID x)%N.
Proof.
  revert r. induction rows as [|y rows IH]; simpl; intros r Hl x Hx; [destruct Hx |].
  destruct (least_by_id rows) as [r'|] eqn:Hrest.
  - specialize (IH r' eq_refl).
    destruct (N.leb_spec (m_ID y) (m_ID r')) as [Hle | Hgt]; injection Hl as <-.
    + destruct Hx as [<- | Hx]; [lia |]. specialize (IH x Hx). lia.
    + destruct Hx as [<- | Hx]; [lia |]. now apply IH.
  - injection Hl as <-. apply least_by_id_None in Hrest. subst rows.
    destruct Hx as [<- | []]. lia.
Qed.

(** [FindActiveByRunnerID] finds a track whenever the runner has an active
    one, and the track it returns is stored, is active, is the runner's and
    has the least id among the runner's active tracks. *)
Theorem FindActiveByRunnerID_least (runnerID : uuid) (db : DB) :
  (forall row, List.In row (trip_tracks db) -> m_RunnerID row = runnerID ->
     m_Status row = TrackingActive ->
     exists t, FindActiveByRunnerID runnerID db = inl t) /\
  (forall t, FindActiveByRunnerID runnerID db = inl t ->
     List.In (toModel t) (trip_tracks db) /\
     tracking.runnerID t = runnerID /\ status t = TrackingActive /\
     forall row, List.In row (trip_tracks db) -> m_RunnerID row = runnerID ->
       m_Status row = TrackingActive -> (id t <= m_ID row)%N).
Proof.
  split.
  - intros row Hin Hr Hs. unfold FindActiveByRunnerID.
    destruct (First_is_Some
                (fun r => (m_RunnerID r =? runnerID)%N
                          && String.eqb (m_Status r) TrackingActive)
                (trip_tracks db) row Hin) as [r' ->]; [| eauto].
    now rewrite Hr, Hs, N.eqb_refl, String.eqb_refl.
  - intros t Hfind.
    destruct (flow_props.FindActiveByRunnerID_found runnerID db t Hfind)
      as (Hin & Hr & Hs).
    repeat split; try assumption.
    intros row Hrow Hrr Hrs. revert Hfind. unfold FindActiveByRunnerID, First.
    destruct (least_by_id _) as [model|] eqn:Hl; [| discriminate].
    intros [= <-]. simpl.
    apply (least_by_id_le _ _ Hl). apply List.filter_In. split; [assumption |].
    now rewrite Hrr, Hrs, N.eqb_refl, String.eqb_refl.
Qed.

Lemma FindActiveByRunnerID_least_witness :
  exists t, FindActiveByRunnerID 3%N db_one_active = inl t.
Proof.
  apply (FindActiveByRunnerID_least 3%N db_one_active) with (row := toModel active_track);
    [now left | reflexivity | reflexivity].
Defined.

Lemma First_snoc_only (cond : TripTrackModel -> bool) (rows : list TripTrackModel)
    (x : TripTrackModel) :
  (forall r, List.In r rows -> cond r = false) -> cond x = true ->
  First cond (rows ++ [x]) = Some x.
Proof.
  intros Hno Hx. unfold First. rewrite List.filter_app.
  rewrite (filter_no_hit _ _ Hno). simpl. now rewrite Hx.
Qed.

Section end_to_end.
Context `{GoLib} `{Postgres} `{Kafka}.

(** From the accepted booking to the first position.  In a world where the
    constraints hold, the booking has no track and the runner no active
    one, [HandleBookingAccepted] followed by a valid location update of
    the runner, whose normalised speed and heading the columns hold as
    [speed] and [heading], leaves a state in which [GetTracking] of the
    booking shows the new track, active, at distance 0 and not completed,
    with exactly one waypoint: that of the update, at its coordinates, with
    the speed and the heading as stored; and the hub has received one
    update, addressed to that booking, with the speed and the heading of
    the event. *)
Theorem accepted_then_located (newID wpID : uuid) (now occurred1 createdAt occurred2 : Time)
    (accepted : BookingAcceptedEvent) (located : RunnerLocationUpdateEvent)
    (w : World) (speed heading : float64) :
  constraints_hold (w_db w) ->
  newID <> uuid_Nil ->
  (forall r, List.In r (trip_tracks (w_db w)) -> m_BookingID r <> ba_BookingID accepted) ->
  (forall r, List.In r (trip_tracks (w_db w)) -> m_ID r <> newID) ->
  (forall r, List.In r (trip_tracks (w_db w)) ->
     ~ (m_RunnerID r = ba_RunnerID accepted /\ m_Status r = TrackingActive)) ->
  (forall x, List.In x (waypoints (w_db w)) -> wm_ID x <> wpID) ->
  lu_RunnerID located = ba_RunnerID accepted ->
  lat_inside (lu_Latitude located) -> lng_inside (lu_Longitude located) ->
  pg_decimal 6 2 (stored_speed (lu_Speed located)) = inl speed ->
  pg_decimal 5 2 (stored_heading (lu_Heading located)) = inl heading ->
  let w1 := fst (HandleBookingAccepted newID now occurred1 accepted w) in
  let r2 := HandleRunnerLocationUpdate wpID createdAt occurred2 located w1 in
  snd r2 = None /\
  (exists dto point,
     GetTracking (ba_BookingID accepted) (w_db (fst r2)) = inl dto /\
     dto_TrackID dto = newID /\ dto_BookingID dto = ba_BookingID accepted /\
     dto_RunnerID dto = ba_RunnerID accepted /\ dto_Status dto = TrackingActive /\
     dto_TotalDistanceKm dto = 0%float /\ dto_CompletedAt dto = None /\
     dto_Waypoints dto = [point] /\
     dto_ID point = wpID /\
     dto_Latitude point = lu_Latitude located /\
     dto_Longitude point = lu_Longitude located /\
     dto_Speed point = speed /\ dto_Heading point = heading) /\
  w_broadcast (fst r2)
  = w_broadcast w
    ++ [ws.mkTrackingUpdate (ba_BookingID accepted) (ba_RunnerID accepted)
          (lu_Latitude located) (lu_Longitude located) (lu_Speed located)
          (lu_Heading located) (lu_Timestamp located)].
Proof.
  intros Hc _ Hnone Hfresh Hidle Hwfresh Hrunner Hlat Hlng Hs Hh. cbv zeta.
  set (track := NewTripTrack newID now (ba_BookingID accepted) (ba_RunnerID accepted)).
  set (w1 := fst (HandleBookingAccepted newID now occurred1 accepted w)).
  assert (Hw1 : w_db w1 = mkDB (trip_tracks (w_db w) ++ [toModel track])
                               (waypoints (w_db w))
                /\ w_broadcast w1 = w_broadcast w).
  { unfold w1, HandleBookingAccepted.
    pose proof Hnone as Hnf. apply FindByBookingID_not_found in Hnf. rewrite Hnf.
    rewrite Save_fresh; [| reflexivity | exact Hfresh | exact Hnone].
    cbn [fst].
    match goal with |- context [publish ?ty ?d ?w0] =>
      destruct (flow_props.publish_keeps ty d w0) as [-> ->] end.
    now split. }
  destruct Hw1 as [Hdb1 Hb1].
  assert (Hactive : FindActiveByRunnerID (lu_RunnerID located) (w_db w1) = inl track).
  { unfold FindActiveByRunnerID. rewrite Hdb1. simpl. rewrite First_snoc_only.
    - unfold track. reflexivity.
    - intros r Hr. specialize (Hidle r Hr).
      destruct (N.eqb_spec (m_RunnerID r) (lu_RunnerID located)); [| reflexivity].
      destruct (String.eqb_spec (m_Status r) TrackingActive); [| reflexivity].
      exfalso. apply Hidle. split; congruence.
    - simpl. now rewrite Hrunner, N.eqb_refl. }
  rewrite (flow_props.HandleRunnerLocationUpdate_valid wpID createdAt occurred2
             located w1 track speed heading Hactive Hlat Hlng)
    by (try rewrite Hdb1; assumption).
  cbn [fst snd].
  match goal with |- context [publish ?ty ?d ?w0] =>
    destruct (flow_props.publish_keeps ty d w0) as [-> ->] end.
  split; [reflexivity |]. split; [| now rewrite Hb1].
  rewrite Hdb1.
  unfold GetTracking, FindByBookingID, GetWaypoints. cbn [trip_tracks waypoints w_db].
  rewrite First_snoc_only.
  2:{ intros r Hr. apply N.eqb_neq. now apply Hnone. }
  2:{ simpl. apply N.eqb_refl. }
  cbn [toDomain toModel track NewTripTrack Reconstruct id m_ID m_BookingID m_RunnerID
       m_Status m_TotalDistanceKm m_StartedAt m_CompletedAt m_Version m_CreatedAt
       m_UpdatedAt tracking.bookingID runnerID status totalDistanceKm startedAt
       completedAt].
  rewrite List.filter_app.
  assert (Hnorows : List.filter (fun m => (wm_TripTrackID m =? newID)%N)
                      (waypoints (w_db w)) = []).
  { apply filter_no_hit. intros x Hx. apply N.eqb_neq. intros Heq.
    destruct Hc as (_ & _ & _ & Hfk). destruct (Hfk x Hx) as (r & Hr & Hrid).
    apply (Hfresh r Hr). congruence. }
  rewrite Hnorows. simpl. rewrite N.eqb_refl.
  eexists. eexists. split; [reflexivity |]. now repeat split.
Qed.

End end_to_end.

(** On the empty sample world, with columns that refuse a number of 10000
    or more. *)
Lemma accepted_then_located_witness :
  exists dto,
    GetTracking 2%N
      (w_db (fst (@HandleRunnerLocationUpdate narrow_columns plain_kafka
         50%N 300%Z 301%Z
         (mkRunnerLocationUpdateEvent 3%N 1%float 2%float 20%float 400%float 299%Z)
         (fst (@HandleBookingAccepted narrow_columns plain_kafka 1%N 100%Z 101%Z
                 (mkBookingAcceptedEvent 2%N 3%N) empty_world)))))
    = inl dto /\
    dto_Status dto = "active" /\
    List.map (fun p => (dto_ID p, dto_Speed p, dto_Heading p)) (dto_Waypoints dto)
    = [(50%N, 20%float, 0%float)].
Proof.
  destruct (@accepted_then_located narrow_columns plain_kafka
              1%N 50%N 100%Z 101%Z 300%Z 301%Z
              (mkBookingAcceptedEvent 2%N 3%N)
              (mkRunnerLocationUpdateEvent 3%N 1%float 2%float 20%float 400%float 299%Z)
              empty_world 20%float 0%float)
    as (_ & (dto & point & Hget & _ & _ & _ & Hst & _ & _ & Hw & Hid & _ & _ & Hs & Hh)
          & _);
    [ repeat split; try constructor; intros ? []
    | discriminate
    | intros ? [] | intros ? [] | intros ? [] | intros ? []
    | reflexivity | split; reflexivity | split; reflexivity
    | reflexivity | reflexivity
    | ].
  exists dto. split; [exact Hget |]. split; [exact Hst |].
  rewrite Hw. cbn [List.map]. now rewrite Hid, Hs, Hh.
Defined.

(** *** Validated coordinates can always be exported *)

Lemma SFcompare_refl_not_nan (x : spec_float) :
  x <> S754_nan -> SFcompare x x = Some Eq.
Proof.
  destruct x as [s|s| |s m e]; simpl; try congruence; intros _.
  - now destruct s.
  - destruct s; rewrite Z.compare_refl, Pos.compare_cont_refl; reflexivity.
Qed.

(** A float between two finite floats is finite. *)
Lemma between_is_finite (lo hi x : float64) :
  is_finite lo = true -> is_finite hi = true ->
  (lo <=? x)%float = true -> (x <=? hi)%float = true -> is_finite x = true.
Proof.
  unfold is_finite, is_nan, is_infinity.
  rewrite !FloatAxioms.leb_spec, !FloatAxioms.eqb_spec, !FloatAxioms.abs_spec.
  assert (Hinf : Prim2SF infinity = S754_infinity false) by reflexivity.
  rewrite Hinf. unfold SFleb, SFeqb.
  destruct (Prim2SF lo) as [sl|sl| |sl ml el], (Prim2SF hi) as [sh|sh| |sh mh eh],
    (Prim2SF x) as [sx|sx| |sx mx ex]; simpl; try discriminate; try reflexivity;
    try (destruct sl; discriminate); try (destruct sh; discriminate);
    try (destruct sx; discriminate);
    try (destruct sx, sl; discriminate); try (destruct sx, sh; discriminate);
    intros _ _ _ _;
    rewrite ?Z.compare_refl, ?Pos.compare_cont_refl; try (destruct sx; reflexivity).
Qed.

Lemma inside_is_finite (wp : Waypoint) :
  lat_inside (wp_Latitude wp) -> lng_inside (wp_Longitude wp) ->
  finite_point wp = true.
Proof.
  intros [Hlat1 Hlat2] [Hlng1 Hlng2]. unfold finite_point.
  rewrite (between_is_finite (-180)%float 180%float (wp_Longitude wp)); try assumption;
    try reflexivity.
  rewrite (between_is_finite (-90)%float 90%float (wp_Latitude wp)); try assumption;
    reflexivity.
Qed.

Lemma forallb_false_exists {A : Type} (f : A -> bool) (l : list A) :
  forallb f l = false -> exists x, List.In x l /\ f x = false.
Proof.
  induction l as [|a l IH]; simpl; [discriminate |].
  destruct (f a) eqn:Hfa; simpl.
  - intros Hl. destruct (IH Hl) as (x & Hx & Hfx). eauto.
  - intros _. eauto.
Qed.

Section validated.
Context `{GoLib} `{SpatialEngine}.

(** A route of validated waypoints always exports.  When every waypoint of
    a non-empty list has its latitude in [-90,90] and its longitude in
    [-180,180], as [NewWaypoint] checks, [buildGeoJSONLineString] returns
    the LineString of the list and no error. *)
Theorem validated_route_exports (waypoints : list Waypoint) :
  waypoints <> [] ->
  List.Forall (fun wp => lat_inside (wp_Latitude wp) /\ lng_inside (wp_Longitude wp))
    waypoints ->
  buildGeoJSONLineString waypoints = (lineString_text waypoints, None).
Proof.
  intros Hne Hall. destruct waypoints as [|wp l]; [congruence |].
  rewrite buildGeoJSONLineString_cons.
  replace (forallb finite_point (wp :: l)) with true; [reflexivity |].
  symmetry. apply forallb_forall. intros x Hx.
  rewrite List.Forall_forall in Hall. destruct (Hall x Hx) as [Hlat Hlng].
  now apply inside_is_finite.
Qed.

(** [GetRouteAsGeoJSON] fails only on a coordinate that JSON cannot hold:
    it returns an error exactly when the spatial query gave no text and
    some waypoint of the track has a NaN or infinite coordinate, and the
    text it returns with the error is empty. *)
Theorem GetRouteAsGeoJSON_fails_only_on_non_finite (trackID : uuid) (db : DB) :
  (snd (GetRouteAsGeoJSON trackID db) <> None <->
   (snd (raw_route_query db trackID) <> None \/
    fst (raw_route_query db trackID) = EmptyString) /\
   exists wp, List.In wp (fst (GetWaypoints trackID db)) /\ finite_point wp = false) /\
  (snd (GetRouteAsGeoJSON trackID db) <> None ->
   fst (GetRouteAsGeoJSON trackID db) = EmptyString).
Proof.
  unfold GetRouteAsGeoJSON.
  destruct (raw_route_query db trackID) as [geoJSON err]. cbn [fst snd].
  assert (Hbuild : forall wps,
            (snd (buildGeoJSONLineString wps) <> None <->
             exists wp, List.In wp wps /\ finite_point wp = false) /\
            (snd (buildGeoJSONLineString wps) <> None ->
             fst (buildGeoJSONLineString wps) = EmptyString)).
  { intros [|wp l].
    - simpl. split; [| congruence]. split; [congruence | intros (? & [] & _)].
    - rewrite buildGeoJSONLineString_cons.
      destruct (forallb finite_point (wp :: l)) eqn:Hf; cbn [fst snd].
      + split; [| congruence]. split; [congruence |].
        intros (x & Hx & Hfx). rewrite forallb_forall in Hf.
        rewrite (Hf x Hx) in Hfx. discriminate.
      + split; [| reflexivity]. split; [| discriminate]. intros _.
        now apply forallb_false_exists. }
  destruct (match err with None => true | Some _ => false end
            && negb (String.eqb geoJSON EmptyString)) eqn:Hcond.
  - cbn [fst snd]. split; [| congruence]. split; [congruence |].
    intros [[Herr | Hempty] _].
    + destruct err; [discriminate | congruence].
    + subst geoJSON. destruct err; discriminate.
  - assert (Hraw : err <> None \/ geoJSON = EmptyString).
    { destruct err; [left; discriminate |]. right.
      simpl in Hcond. apply negb_false_iff in Hcond. now apply String.eqb_eq. }
    destruct (Hbuild (fst (GetWaypoints trackID db))) as [Hiff Htext].
    unfold GetWaypoints in *. cbn [fst snd] in *.
    split; [| exact Htext]. rewrite Hiff. tauto.
Qed.

End validated.

Lemma validated_route_exports_witness :
  @buildGeoJSONLineString small_angle_lib [wp_a; wp_b]
  = (@lineString_text small_angle_lib [wp_a; wp_b], None).
Proof.
  apply (@validated_route_exports small_angle_lib); [discriminate |].
  repeat constructor.
Defined.

Lemma GetRouteAsGeoJSON_fails_only_on_non_finite_witness :
  snd (@GetRouteAsGeoJSON small_angle_lib no_postgis 1%N service_samples.db_with_nan)
  <> None.
Proof.
  destruct (@GetRouteAsGeoJSON_fails_only_on_non_finite
              small_angle_lib no_postgis 1%N service_samples.db_with_nan) as [Hiff _].
  apply Hiff. split.
  - left. discriminate.
  - exists service_samples.wp_nan. split; [now left | reflexivity].
Defined.

End read_props.

(** ** Connections, broadcasts in sequence and the write pump *)

Module session_props.
Import ws session hub_props.

Lemma string_app_assoc (a b c : string) : (a +:+ b) +:+ c = a +:+ (b +:+ c).
Proof.
  induction a as [|x a IH]; [reflexivity |].
  change (String x ((a +:+ b) +:+ c) = String x (a +:+ (b +:+ c))).
  now rewrite IH.
Qed.

Lemma drain_all (l : list bytes) (written : bytes) (capacity : nat) (closed : bool) :
  drain (length l) written (mkChan l capacity closed)
  = (String.concat newline (written :: l), mkChan [] capacity closed).
Proof.
  revert written. induction l as [|m l IH]; intros written; [reflexivity |].
  cbn [length drain recv ch_buf ch_cap ch_closed]. rewrite IH.
  f_equal. destruct l as [|m' l]; cbn [String.concat];
    rewrite ?string_app_assoc; reflexivity.
Qed.

(** One turn of the write pump empties the queue into one frame.  With
    messages queued and a writer at hand, the turn writes all of them in
    one frame, oldest first and separated by a newline, and leaves the queue
    empty; that also holds for a queue the hub has closed, whose messages
    are still written before the pump sees the close.  On an empty queue
    the pump waits while the queue is open and ends with a close frame once
    it is closed. *)
Theorem WritePump_turn_drains (closeOk : bool) (ch : Chan) :
  (ch_buf ch <> [] ->
   WritePump_turn true closeOk ch
   = PumpWrote (String.concat newline (ch_buf ch))
       (mkChan [] (ch_cap ch) (ch_closed ch)) closeOk) /\
  (ch_buf ch = [] -> ch_closed ch = false ->
   WritePump_turn true closeOk ch = PumpWaits) /\
  (ch_buf ch = [] -> ch_closed ch = true ->
   WritePump_turn true closeOk ch = PumpCloses).
Proof.
  destruct ch as [buf capacity closed]. simpl. split; [| split].
  - intros Hne. destruct buf as [|m rest]; [congruence |].
    unfold WritePump_turn. cbn [recv ch_buf ch_cap ch_closed negb].
    now rewrite drain_all.
  - intros -> ->. reflexivity.
  - intros -> ->. reflexivity.
Qed.

Lemma WritePump_turn_drains_witness :
  WritePump_turn true true (mkChan ["a"; "b"; "c"] 4 true)
  = PumpWrote ("a" +:+ newline +:+ "b" +:+ newline +:+ "c") (mkChan [] 4 true) true.
Proof.
  destruct (WritePump_turn_drains true (mkChan ["a"; "b"; "c"] 4 true)) as [Hfull _].
  rewrite Hfull; [reflexivity | discriminate].
Defined.

(** *** The hub under any sequence of inputs *)

Lemma try_send_bounded (data : bytes) (c : Client) :
  (length (ch_buf (c_Send c)) <= ch_cap (c_Send c))%nat ->
  (length (ch_buf (c_Send (delivered data c))) <= ch_cap (c_Send (delivered data c)))%nat.
Proof.
  intros Hb. unfold delivered, queue_full.
  destruct (Nat.ltb_spec (length (ch_buf (c_Send c))) (ch_cap (c_Send c))); simpl.
  - rewrite List.length_app. simpl. lia.
  - exact Hb.
Qed.

Lemma broadcastToRoom_bounded (bookingID : uuid) (data : bytes) (h h' : Hub) :
  hub_wf h -> queues_bounded h -> broadcastToRoom bookingID data h = Some h' ->
  queues_bounded h'.
Proof.
  intros Hwf Hb. unfold broadcastToRoom.
  destruct (rooms h !! bookingID) as [clients|] eqn:Hroom; [| now intros [= <-]].
  destruct (broadcastToRoom_run bookingID data h clients Hwf Hroom)
    as (h1 & -> & Hin & Hout & _). intros [= <-].
  intros x cx Hx. destruct (decide (x ∈ clients)) as [Hmem | Hmem].
  - destruct Hwf as [Hmemb _]. destruct (Hmemb _ _ _ Hroom Hmem) as (c & Hc & _).
    rewrite (Hin x c Hmem Hc) in Hx. injection Hx as <-.
    apply try_send_bounded. now apply (Hb x).
  - rewrite (Hout x Hmem) in Hx. now apply (Hb x).
Qed.

Lemma broadcastToRoom_dom (bookingID : uuid) (data : bytes) (h h' : Hub) :
  hub_wf h -> broadcastToRoom bookingID data h = Some h' ->
  dom (heap h') = dom (heap h).
Proof.
  intros Hwf. unfold broadcastToRoom.
  destruct (rooms h !! bookingID) as [clients|] eqn:Hroom; [| now intros [= <-]].
  destruct (broadcastToRoom_run bookingID data h clients Hwf Hroom)
    as (h1 & -> & Hin & Hout & _). intros [= <-].
  apply set_eq. intros x. rewrite !elem_of_dom.
  destruct (decide (x ∈ clients)) as [Hmem | Hmem].
  - destruct Hwf as [Hmemb _]. destruct (Hmemb _ _ _ Hroom Hmem) as (c & Hc & _).
    rewrite (Hin x c Hmem Hc), Hc. split; eauto.
  - now rewrite (Hout x Hmem).
Qed.

Lemma pumped_shape (nextWriterOk closeOk : bool) (c : Client) :
  c_BookingID (pumped nextWriterOk closeOk c) = c_BookingID c /\
  ch_closed (c_Send (pumped nextWriterOk closeOk c)) = ch_closed (c_Send c) /\
  ch_cap (c_Send (pumped nextWriterOk closeOk c)) = ch_cap (c_Send c) /\
  (length (ch_buf (c_Send (pumped nextWriterOk closeOk c)))
   <= length (ch_buf (c_Send c)))%nat.
Proof.
  destruct c as [b [buf capacity closed]]. unfold pumped, WritePump_turn. simpl.
  destruct buf as [|m rest]; simpl.
  - destruct closed; simpl; repeat split; lia.
  - destruct nextWriterOk; simpl.
    + rewrite drain_all. simpl. repeat split; lia.
    + repeat split; lia.
Qed.

Section serving.
Context `{WireFormat}.

Lemma serve_keeps (h : Hub) (i : input) :
  hub_wf h -> queues_bounded h -> addressed [i] (dom (heap h)) ->
  exists h', serve h i = Some h' /\ hub_wf h' /\ queues_bounded h' /\
    dom (heap h') = match i with
                    | Connect client _ => {[client]} ∪ dom (heap h)
                    | _ => dom (heap h)
                    end.
Proof.
  intros Hwf Hb Haddr.
  destruct i as [client bookingID | client | update | chatMsg | client nw cl];
    cbn [serve Run_step].
  - destruct Haddr as [Hfresh _]. apply not_elem_of_dom in Hfresh.
    set (h0 := mkHub (rooms h) (<[client := new_client bookingID]> (heap h))).
    assert (Hwf0 : hub_wf h0).
    { destruct Hwf as [Hmem Hne]. split; [| exact Hne].
      intros b s x Hs Hx. destruct (Hmem b s x Hs Hx) as (c & Hc & Hrest).
      exists c. split; [| exact Hrest]. simpl.
      rewrite lookup_insert_ne; [exact Hc | congruence]. }
    destruct (on_register_wf client (new_client bookingID) h0 Hwf0)
      as (h' & Hreg & Hwf' & _); [apply lookup_insert_eq | reflexivity |].
    exists h'. split; [exact Hreg |]. split; [exact Hwf' |].
    unfold on_register in Hreg. simpl in Hreg. rewrite lookup_insert_eq in Hreg.
    injection Hreg as <-. simpl. split.
    + intros x cx Hx. simpl in Hx. destruct (decide (x = client)) as [-> | Hxc].
      * rewrite lookup_insert_eq in Hx. injection Hx as <-. simpl. lia.
      * rewrite lookup_insert_ne in Hx by congruence. now apply (Hb x).
    + apply dom_insert_L.
  - destruct Haddr as [Halloc _]. apply elem_of_dom in Halloc as [c Hc].
    destruct (on_unregister_wf client c h Hwf Hc) as (h' & Hun & Hwf' & _).
    exists h'. split; [exact Hun |]. split; [exact Hwf' |].
    revert Hun. unfold on_unregister. rewrite Hc.
    destruct (rooms h !! c_BookingID c) as [clients|]; [| intros [= <-]; split; [exact Hb | reflexivity]].
    destruct (bool_decide (client ∈ clients)); [| intros [= <-]; split; [exact Hb | reflexivity]].
    unfold remove_client. destruct (close_chan (c_Send c)) as [closed|] eqn:Hcl;
      [| discriminate].
    intros [= <-]. simpl. split.
    + intros x cx Hx. simpl in Hx. destruct (decide (x = client)) as [-> | Hxc].
      * rewrite lookup_insert_eq in Hx. injection Hx as <-. simpl.
        unfold close_chan in Hcl. destruct (ch_closed (c_Send c)); [discriminate |].
        injection Hcl as <-. simpl. now apply (Hb client).
      * rewrite lookup_insert_ne in Hx by congruence. now apply (Hb x).
    + rewrite dom_insert_L. apply elem_of_dom_2 in Hc.
      now apply subseteq_union_1_L, singleton_subseteq_l.
  - destruct (marshal_location_update update) as [data|].
    + destruct (broadcastToRoom_wf (u_BookingID update) data h Hwf) as (h' & Hrun & Hwf').
      exists h'. split; [exact Hrun |]. split; [exact Hwf' |].
      split; [now apply (broadcastToRoom_bounded _ _ _ _ Hwf Hb Hrun) |].
      now apply (broadcastToRoom_dom _ _ _ _ Hwf Hrun).
    + exists h. split; [reflexivity |]. split; [exact Hwf |]. now split.
  - destruct (marshal_chat_message chatMsg) as [data|].
    + destruct (broadcastToRoom_wf (cm_BookingID chatMsg) data h Hwf) as (h' & Hrun & Hwf').
      exists h'. split; [exact Hrun |]. split; [exact Hwf' |].
      split; [now apply (broadcastToRoom_bounded _ _ _ _ Hwf Hb Hrun) |].
      now apply (broadcastToRoom_dom _ _ _ _ Hwf Hrun).
    + exists h. split; [reflexivity |]. split; [exact Hwf |]. now split.
  - eexists. split; [reflexivity |]. simpl. split; [| split].
    + destruct Hwf as [Hmem Hne]. split; [| exact Hne].
      intros b s x Hs Hx. destruct (Hmem b s x Hs Hx) as (c & Hc & Hbid & Hopen).
      simpl. destruct (decide (x = client)) as [-> | Hxc].
      * exists (pumped nw cl c). rewrite lookup_alter_eq, Hc. simpl.
        destruct (pumped_shape nw cl c) as (-> & -> & _). auto.
      * exists c. rewrite lookup_alter_ne by congruence. auto.
    + intros x cx Hx. simpl in Hx. destruct (decide (x = client)) as [-> | Hxc].
      * rewrite lookup_alter_eq in Hx.
        destruct (heap h !! client) as [c|] eqn:Hc; [| discriminate].
        simpl in Hx. injection Hx as <-.
        destruct (pumped_shape nw cl c) as (_ & _ & -> & Hlen).
        specialize (Hb client c Hc). lia.
      * rewrite lookup_alter_ne in Hx by congruence. now apply (Hb x).
    + apply dom_alter_L.
Qed.

(** The hub never panics and never overfills a queue.  From a well-formed
    hub with bounded queues, in particular from [NewHub], every sequence of
    connections, unregistrations, location and chat broadcasts and pump
    turns is served to the end: no send goes to a closed queue, no queue is
    closed twice, and afterwards every member of a room still has an open
    queue, no room is empty and no queue is longer than its capacity. *)
Theorem hub_serves_every_sequence (inputs : list input) (h : Hub) :
  hub_wf h -> queues_bounded h -> addressed inputs (dom (heap h)) ->
  exists h', serve_all inputs h = Some h' /\ hub_wf h' /\ queues_bounded h'.
Proof.
  revert h. induction inputs as [|i rest IH]; intros h Hwf Hb Haddr.
  - exists h. split; [reflexivity |]. now split.
  - assert (Hone : addressed [i] (dom (heap h))).
    { destruct i; simpl in *; tauto. }
    destruct (serve_keeps h i Hwf Hb Hone) as (h1 & Hs & Hwf1 & Hb1 & Hdom).
    destruct (IH h1 Hwf1 Hb1) as (h' & Hrun & Hwf' & Hb').
    { rewrite Hdom. destruct i; simpl in *; tauto. }
    exists h'. simpl. rewrite Hs. auto.
Qed.

(** A connection that comes and goes leaves the rooms as they were.  A
    client that connects with an unused address and is unregistered right
    away is no longer in any room: the rooms map is the one before the
    connection (a room created for the client is deleted again), and what
    stays of the client is its empty, closed queue of capacity 256. *)
Theorem connect_disconnect_restores_rooms (client : ClientPtr) (bookingID : uuid)
    (h : Hub) :
  hub_wf h -> client ∉ dom (heap h) ->
  serve_all [Connect client bookingID; Disconnect client] h
  = Some (mkHub (rooms h)
            (<[client := mkClient bookingID (mkChan [] 256 true)]> (heap h))).
Proof.
  intros [Hmem Hne] Hfresh. apply not_elem_of_dom in Hfresh.
  cbn [serve_all serve Run_step]. unfold on_register.
  cbn [heap rooms]. rewrite lookup_insert_eq.
  cbn [new_client c_BookingID]. unfold on_unregister.
  cbn [heap rooms]. rewrite !lookup_insert_eq. cbn [c_BookingID].
  set (room := default ∅ (rooms h !! bookingID)).
  assert (Hout : client ∉ room).
  { unfold room. intros Hin.
    destruct (rooms h !! bookingID) as [s|] eqn:Hs; simpl in Hin.
    - destruct (Hmem _ _ _ Hs Hin) as (c & Hc & _). congruence.
    - now apply not_elem_of_empty in Hin. }
  rewrite bool_decide_eq_true_2
    by (apply elem_of_union; right; now apply elem_of_singleton).
  unfold remove_client, new_client, make_chan, close_chan.
  cbn [c_Send c_BookingID ch_closed ch_buf ch_cap heap rooms].
  rewrite lookup_insert_eq.
  change (default ∅ (Some (room ∪ {[client]}))) with (room ∪ {[client]}).
  assert (Hback : (room ∪ {[client]}) ∖ {[client]} = room).
  { apply set_eq. intros x. rewrite elem_of_difference, elem_of_union,
      elem_of_singleton. split; [intros [[Hx | Hx] Hn]; tauto |].
    intros Hx. split; [now left |]. intros ->. contradiction. }
  rewrite Hback, !insert_insert_eq. f_equal. f_equal.
  destruct (Nat.eqb (size room) 0) eqn:Hsz.
  - apply size_zero_empty in Hsz. apply delete_insert_id.
    unfold room in Hsz.
    destruct (rooms h !! bookingID) as [s|] eqn:Hs; [| reflexivity].
    simpl in Hsz. subst s. now destruct (Hne bookingID).
  - apply insert_id.
    unfold room in *.
    destruct (rooms h !! bookingID) as [s|] eqn:Hs; [reflexivity |].
    change (default ∅ None) with (∅ : gset ClientPtr) in Hsz.
    rewrite size_empty in Hsz. discriminate.
Qed.

End serving.

Lemma hub_serves_every_sequence_witness :
  exists h', @serve_all session_samples.plain_wire session_samples.busy_session NewHub
             = Some h' /\ hub_wf h' /\ queues_bounded h'.
Proof.
  apply (@hub_serves_every_sequence session_samples.plain_wire).
  - exact NewHub_wf.
  - intros client c Hc. unfold NewHub in Hc. simpl in Hc.
    rewrite lookup_empty in Hc. discriminate.
  - unfold NewHub. cbn [heap]. rewrite dom_empty_L.
    cbn [session_samples.busy_session addressed].
    repeat split; compute_done.
Defined.

Lemma connect_disconnect_restores_rooms_witness :
  @serve_all session_samples.plain_wire [Connect 3%positive 2%N; Disconnect 3%positive]
    samples.sample_hub
  = Some (mkHub (rooms samples.sample_hub)
            (<[3%positive := mkClient 2%N (mkChan [] 256 true)]>
               (heap samples.sample_hub))).
Proof.
  apply (@connect_disconnect_restores_rooms session_samples.plain_wire).
  - exact sample_hub_wf.
  - unfold samples.sample_hub. cbn [heap].
    rewrite !dom_insert_L, dom_empty_L. compute_done.
Defined.

(** *** Messages of a room arrive in the order they were broadcast *)

Lemma broadcastToRoom_queues (bookingID : uuid) (data : bytes) (h : Hub)
    (client : ClientPtr) (c : Client) :
  hub_wf h -> client ∈ room_of bookingID h -> heap h !! client = Some c ->
  (length (ch_buf (c_Send c)) < ch_cap (c_Send c))%nat ->
  exists h', broadcastToRoom bookingID data h = Some h' /\ hub_wf h' /\
    client ∈ room_of bookingID h' /\
    heap h' !! client = Some (sent_client data c).
Proof.
  intros Hwf Hin Hc Hroom.
  destruct (broadcastToRoom_wf bookingID data h Hwf) as (h' & Hrun & Hwf').
  exists h'. split; [exact Hrun |]. split; [exact Hwf' |].
  revert Hrun. unfold broadcastToRoom.
  destruct (rooms h !! bookingID) as [clients|] eqn:Hs.
  2:{ unfold room_of in Hin. rewrite Hs in Hin. simpl in Hin.
      now apply not_elem_of_empty in Hin. }
  rewrite (room_of_lookup _ _ _ Hs) in Hin.
  destruct (broadcastToRoom_run bookingID data h clients Hwf Hs)
    as (h1 & -> & Hdel & _ & Hmem & _).
  intros [= <-].
  assert (Hfull : queue_full c = false).
  { unfold queue_full. apply negb_false_iff. now apply Nat.ltb_lt. }
  split.
  - apply Hmem. split; [exact Hin |].
    intros (c' & Hc' & Hf). congruence.
  - rewrite (Hdel client c Hin Hc). unfold delivered. now rewrite Hfull.
Qed.

(** Messages reach a viewer in the order they were broadcast.  When the
    queue of a member of a room has room for all of them, a run of
    broadcasts to the room appends the messages to that queue in the order
    of the broadcasts, behind what was queued before, and the client stays
    in the room with its queue open, whatever happens to the other members
    of the room. *)
Theorem broadcasts_arrive_in_order (bookingID : uuid) (msgs : list bytes) (h : Hub)
    (client : ClientPtr) (c : Client) :
  hub_wf h -> client ∈ room_of bookingID h -> heap h !! client = Some c ->
  (length (ch_buf (c_Send c)) + length msgs <= ch_cap (c_Send c))%nat ->
  exists h', broadcast_all bookingID msgs h = Some h' /\ hub_wf h' /\
    client ∈ room_of bookingID h' /\
    heap h' !! client
    = Some (mkClient (c_BookingID c)
              (mkChan (ch_buf (c_Send c) ++ msgs) (ch_cap (c_Send c)) false)).
Proof.
  revert h c. induction msgs as [|m rest IH]; intros h c Hwf Hin Hc Hroom.
  - exists h. split; [reflexivity |]. split; [exact Hwf |]. split; [exact Hin |].
    rewrite Hc, List.app_nil_r. f_equal.
    assert (Hopen : ch_closed (c_Send c) = false).
    { destruct Hwf as [Hmem _]. unfold room_of in Hin.
      destruct (rooms h !! bookingID) as [s|] eqn:Hs; simpl in Hin;
        [| now apply not_elem_of_empty in Hin].
      destruct (Hmem _ _ _ Hs Hin) as (c' & Hc' & _ & Hop). congruence. }
    destruct c as [b [buf capacity closed]]. simpl in *. now subst closed.
  - simpl in Hroom.
    destruct (broadcastToRoom_queues bookingID m h client c Hwf Hin Hc)
      as (h1 & Hrun & Hwf1 & Hin1 & Hc1); [lia |].
    destruct (IH h1 (sent_client m c) Hwf1 Hin1 Hc1) as (h' & Hall & Hwf' & Hin' & Hc').
    { simpl. rewrite List.length_app. simpl. lia. }
    exists h'. cbn [broadcast_all]. rewrite Hrun.
    split; [exact Hall |]. split; [exact Hwf' |]. split; [exact Hin' |].
    rewrite Hc'. simpl. now rewrite <- List.app_assoc.
Qed.

Lemma broadcasts_arrive_in_order_witness :
  exists h', broadcast_all 2%N ["p1"; "p2"] samples.sample_hub = Some h' /\
    heap h' !! 2%positive
    = Some (mkClient 2%N (mkChan ["p1"; "p2"] 2 false)).
Proof.
  destruct (broadcasts_arrive_in_order 2%N ["p1"; "p2"] samples.sample_hub
              2%positive samples.ready_client)
    as (h' & Hall & _ & _ & Hc).
  - exact sample_hub_wf.
  - unfold room_of, samples.sample_hub. cbn [rooms].
    rewrite lookup_singleton_eq. simpl. compute_done.
  - unfold samples.sample_hub. cbn [heap].
    rewrite lookup_insert_ne by discriminate. apply lookup_insert_eq.
  - simpl. lia.
  - exists h'. split; [exact Hall | exact Hc].
Defined.

End session_props.

(** ** What [NewWaypoint] rejects, and the route of a booking *)

Module query_props.
Import tracking repository application lifecycle queries samples.
Import repository_props export_props.

Lemma nan_ltb (x y : float64) :
  is_nan x = true -> (x <? y)%float = false /\ (y <? x)%float = false.
Proof.
  unfold is_nan. rewrite negb_true_iff, FloatAxioms.eqb_spec, !FloatAxioms.ltb_spec.
  unfold SFeqb, SFltb. intros Hx.
  assert (Hnan : Prim2SF x = S754_nan).
  { destruct (Prim2SF x) as [s|s| |s m e] eqn:Hp; [| | reflexivity |];
      rewrite read_props.SFcompare_refl_not_nan in Hx by discriminate; discriminate. }
  rewrite Hnan. split; [reflexivity |].
  now destruct (Prim2SF y).
Qed.

(** [NewWaypoint] returns an error exactly when the latitude is below -90
    or above 90 or the longitude is below -180 or above 180.  A coordinate
    that is not a number is neither, so it passes the two checks and is
    kept in the waypoint. *)
Theorem NewWaypoint_rejects_only_outside (id : uuid) (lat lng speed heading : float64)
    (recordedAt : Time) :
  (snd (NewWaypoint id lat lng speed heading recordedAt) <> None <->
   lat_outside lat \/ lng_outside lng) /\
  (is_nan lat = true -> is_nan lng = true ->
   snd (NewWaypoint id lat lng speed heading recordedAt) = None /\
   wp_Latitude (fst (NewWaypoint id lat lng speed heading recordedAt)) = lat /\
   wp_Longitude (fst (NewWaypoint id lat lng speed heading recordedAt)) = lng).
Proof.
  split.
  - unfold NewWaypoint, lat_outside, lng_outside.
    destruct (lat <? -90)%float eqn:H1; simpl; [split; [auto | discriminate] |].
    destruct (90 <? lat)%float eqn:H2; simpl; [split; [auto | discriminate] |].
    destruct (lng <? -180)%float eqn:H3; simpl; [split; [auto | discriminate] |].
    destruct (180 <? lng)%float eqn:H4; simpl; [split; [auto | discriminate] |].
    split; [congruence |]. intros [[H | H] | [H | H]]; discriminate.
  - intros Hlat Hlng. unfold NewWaypoint.
    destruct (nan_ltb lat (-90)%float Hlat) as [-> _].
    destruct (nan_ltb lat 90%float Hlat) as [_ ->].
    destruct (nan_ltb lng (-180)%float Hlng) as [-> _].
    destruct (nan_ltb lng 180%float Hlng) as [_ ->].
    simpl. auto.
Qed.

Lemma NewWaypoint_rejects_only_outside_witness :
  snd (NewWaypoint 14%N nan nan 0%float 0%float 140%Z) = None /\
  wp_Latitude (fst (NewWaypoint 14%N nan nan 0%float 0%float 140%Z)) = nan.
Proof.
  destruct (NewWaypoint_rejects_only_outside 14%N nan nan 0%float 0%float 140%Z)
    as [_ Hnan].
  destruct Hnan as (Hok & Hlat & _); [reflexivity | reflexivity |].
  split; [exact Hok | exact Hlat].
Defined.

Lemma lineString_text_not_empty `{GoLib} (waypoints : list Waypoint) :
  lineString_text waypoints <> EmptyString.
Proof. unfold lineString_text. discriminate. Qed.

Lemma empty_LineString_not_empty : empty_LineString <> EmptyString.
Proof. unfold empty_LineString. discriminate. Qed.

Section route.
Context `{GoLib} `{SpatialEngine}.

(** The route of a booking.  [GetRouteGeoJSON] answers a booking without a
    track with the not-found error of the booking and an empty text.  For a
    booking with a track whose stored waypoints all have their coordinates
    in range, it returns a text that is not empty and no error, whether
    the spatial query of the database answers or not. *)
Theorem GetRouteGeoJSON_answers (bookingID : uuid) (db : DB) :
  ((forall r, List.In r (trip_tracks db) -> m_BookingID r <> bookingID) ->
   GetRouteGeoJSON bookingID db
   = (EmptyString, Some (NotFoundError "tracking" bookingID))) /\
  (forall track, FindByBookingID bookingID db = inl track ->
     (forall m, List.In m (waypoints db) -> wm_TripTrackID m = tracking.id track ->
        lat_inside (wm_Latitude m) /\ lng_inside (wm_Longitude m)) ->
     snd (GetRouteGeoJSON bookingID db) = None /\
     fst (GetRouteGeoJSON bookingID db) <> EmptyString).
Proof.
  split.
  - intros Hnone. apply FindByBookingID_not_found in Hnone.
    unfold GetRouteGeoJSON. now rewrite Hnone.
  - intros track Hfind Hvalid. unfold GetRouteGeoJSON. rewrite Hfind.
    unfold GetRouteAsGeoJSON.
    destruct (raw_route_query db (tracking.id track)) as [geoJSON err].
    destruct (match err with None => true | Some _ => false end
              && negb (String.eqb geoJSON EmptyString)) eqn:Hcond.
    + cbn [fst snd]. split; [reflexivity |].
      apply andb_true_iff in Hcond as [_ Hne]. apply negb_true_iff in Hne.
      now apply String.eqb_neq.
    + destruct (GetWaypoints_ordered (tracking.id track) db) as (_ & _ & Hperm).
      unfold GetWaypoints in *. cbn [fst snd] in *.
      match goal with |- context [buildGeoJSONLineString ?l] => set (wps := l) in * end.
      assert (Hfin : forallb finite_point wps = true).
      { apply forallb_forall. intros wp Hwp.
        apply (Permutation_in _ (Permutation_sym Hperm)) in Hwp.
        apply List.in_map_iff in Hwp as (m & <- & Hm).
        unfold rows_of in Hm. apply List.filter_In in Hm as [Hm Hid].
        apply N.eqb_eq in Hid. destruct (Hvalid m Hm Hid) as [Hlat Hlng].
        now apply read_props.inside_is_finite. }
      destruct wps as [|wp l].
      * cbn [buildGeoJSONLineString length Nat.eqb fst snd].
        split; [reflexivity | apply empty_LineString_not_empty].
      * rewrite buildGeoJSONLineString_cons, Hfin. cbn [fst snd].
        split; [reflexivity | apply lineString_text_not_empty].
Qed.

End route.

Lemma GetRouteGeoJSON_answers_witness :
  snd (@GetRouteGeoJSON small_angle_lib no_postgis 2%N db_with_route) = None /\
  fst (@GetRouteGeoJSON small_angle_lib no_postgis 2%N db_with_route) <> EmptyString.
Proof.
  destruct (@GetRouteGeoJSON_answers small_angle_lib no_postgis 2%N db_with_route)
    as [_ Hfound].
  apply (Hfound active_track); [reflexivity |].
  intros m [<- | [<- | [<- | []]]] _; split; split; reflexivity.
Defined.

End query_props.

(** ** Chat messages *)

Module chat_props.
Import ws session chat chat_application hub_props.

Lemma IsValid_cases (m : MessageType) :
  IsValid m = true <->
  m = MessageTypeText \/ m = MessageTypeImage \/ m = MessageTypeQuickReply.
Proof.
  unfold IsValid. rewrite !orb_true_iff, !String.eqb_eq. tauto.
Qed.

(** [NewChatMessage] builds a message exactly for one of the three message
    types with a content that is not empty, and the message holds the
    arguments, the drawn id and the clock.  The type is checked first: an
    unknown type is reported also when the content is empty. *)
Theorem NewChatMessage_accepts_iff (id : uuid) (now : Time) (bookingID senderID : uuid)
    (senderRole : string) (msgType : MessageType) (content : string) :
  (forall msg,
     NewChatMessage id now bookingID senderID senderRole msgType content = inl msg <->
     (msgType = "text" \/ msgType = "image" \/ msgType = "quick_reply") /\
     content <> EmptyString /\
     msg = mkMessage id bookingID senderID senderRole msgType content now) /\
  (msgType <> "text" -> msgType <> "image" -> msgType <> "quick_reply" ->
   NewChatMessage id now bookingID senderID senderRole msgType content
   = inr (InvalidMessageType msgType)) /\
  (msgType = "text" \/ msgType = "image" \/ msgType = "quick_reply" ->
   content = EmptyString ->
   NewChatMessage id now bookingID senderID senderRole msgType content
   = inr ContentRequired).
Proof.
  pose proof (IsValid_cases msgType) as Hv. unfold NewChatMessage.
  destruct (IsValid msgType) eqn:Hvalid; cbn [negb].
  - assert (Hty : msgType = "text" \/ msgType = "image" \/ msgType = "quick_reply")
      by now apply Hv.
    destruct (String.eqb_spec content EmptyString) as [Hc | Hc].
    + split; [| split].
      * intros msg. split; [discriminate | tauto].
      * intros H1 H2 H3. tauto.
      * reflexivity.
    + split; [| split].
      * intros msg. split; [intros [= <-]; auto | intros (_ & _ & ->); reflexivity].
      * intros H1 H2 H3. tauto.
      * intros _ Hempty. contradiction.
  - assert (Hty : ~ (msgType = "text" \/ msgType = "image" \/ msgType = "quick_reply")).
    { intros Hty. apply Hv in Hty. discriminate. }
    split; [| split].
    + intros msg. split; [discriminate | tauto].
    + reflexivity.
    + tauto.
Qed.

Lemma NewChatMessage_accepts_iff_witness :
  NewChatMessage 70%N 300%Z 2%N 4%N "owner" "sticker" EmptyString
  = inr (InvalidMessageType "sticker").
Proof.
  destruct (NewChatMessage_accepts_iff 70%N 300%Z 2%N 4%N "owner" "sticker" EmptyString)
    as (_ & Hbad & _).
  apply Hbad; discriminate.
Defined.

Section sending.
Context `{ChatRepository}.

Lemma SendMessage_cases (newID : uuid) (now : Time) (bookingID senderID : uuid)
    (senderRole : string) (req : SendMessageRequest) (w : ChatWorld) :
  let msg := mkMessage newID bookingID senderID senderRole
               (req_MessageType req) (req_Content req) now in
  let chatMsg := ws.mkChatMessage "chat_message" bookingID newID senderID senderRole
                   (req_MessageType req) (req_Content req) now in
  (exists err, SendMessage newID now bookingID senderID senderRole req w = (w, inr err) /\
     (IsValid (req_MessageType req) = false \/ req_Content req = EmptyString)) \/
  (IsValid (req_MessageType req) = true /\ req_Content req <> EmptyString /\
   exists err, snd (chat_Save msg (cw_store w)) = Some err /\
     SendMessage newID now bookingID senderID senderRole req w
     = (mkChatWorld (fst (chat_Save msg (cw_store w))) (cw_chatBcast w),
        inr (RepositoryError err))) \/
  (IsValid (req_MessageType req) = true /\ req_Content req <> EmptyString /\
   snd (chat_Save msg (cw_store w)) = None /\
   SendMessage newID now bookingID senderID senderRole req w
   = (mkChatWorld (fst (chat_Save msg (cw_store w))) (cw_chatBcast w ++ [chatMsg]),
      inl (toChatDTO msg))).
Proof.
  cbv zeta. unfold SendMessage, NewChatMessage.
  destruct (IsValid (req_MessageType req)) eqn:Hvalid; cbn [negb];
    [| left; eauto].
  destruct (String.eqb_spec (req_Content req) EmptyString) as [Hc | Hc];
    [left; eauto |].
  right.
  destruct (chat_Save _ (cw_store w)) as [store' [err|]]; cbn [fst snd].
  - left. eauto.
  - right. auto.
Qed.

(** [SendMessage] broadcasts what it has saved and nothing else.  When it
    returns a message, the repository has accepted exactly that message and
    the hub has been sent one chat message, for the booking, with the id,
    the type, the content and the time of the returned message.  When it
    returns an error nothing is sent to the hub, and for a request that
    does not pass [NewChatMessage] the repository is not called. *)
Theorem SendMessage_broadcasts_iff_saved (newID : uuid) (now : Time)
    (bookingID senderID : uuid) (senderRole : string) (req : SendMessageRequest)
    (w : ChatWorld) :
  let r := SendMessage newID now bookingID senderID senderRole req w in
  let msg := mkMessage newID bookingID senderID senderRole
               (req_MessageType req) (req_Content req) now in
  (forall dto, snd r = inl dto ->
     dto = mkChatMessageDTO newID bookingID senderID senderRole
             (req_MessageType req) (req_Content req) now /\
     chat_Save msg (cw_store w) = (cw_store (fst r), None) /\
     cw_chatBcast (fst r)
     = cw_chatBcast w
       ++ [ws.mkChatMessage "chat_message" bookingID (cd_ID dto) senderID senderRole
             (cd_MsgType dto) (cd_Content dto) (cd_CreatedAt dto)]) /\
  (forall err, snd r = inr err -> cw_chatBcast (fst r) = cw_chatBcast w) /\
  (IsValid (req_MessageType req) = false \/ req_Content req = EmptyString ->
   fst r = w).
Proof.
  cbv zeta.
  destruct (SendMessage_cases newID now bookingID senderID senderRole req w)
    as [(err & -> & Hbad) | [(Hv & Hc & err & Herr & ->) | (Hv & Hc & Hok & ->)]];
    cbn [fst snd cw_store cw_chatBcast].
  - split; [discriminate |]. split; reflexivity.
  - split; [discriminate |]. split; [reflexivity |].
    intros [Hbad | Hbad]; congruence.
  - split; [| split].
    + intros dto [= <-]. split; [reflexivity |]. split; [| reflexivity].
      destruct (chat_Save _ (cw_store w)) as [store' e]. simpl in *. now subst e.
    + discriminate.
    + intros [Hbad | Hbad]; congruence.
Qed.

Lemma wrap64_small (z : Z) : (- 2 ^ 63 <= z < 2 ^ 63)%Z -> wrap64 z = z.
Proof. intros Hz. unfold wrap64. rewrite Z.mod_small; lia. Qed.

(** The page window of the chat history.  Whatever the two query
    parameters are, [parseChatPagination] gives a page of at least 1 and a
    limit between 1 and 100; and up to page 92233720368547758 the offset
    that [GetMessages] computes from them does not overflow: the
    repository is asked for [limit] rows from row [(page - 1) * limit]. *)
Theorem parseChatPagination_bounds_the_query (rawPage rawLimit : Z)
    (bookingID : uuid) (store : chat_store) :
  let page := fst (parseChatPagination rawPage rawLimit) in
  let limit := snd (parseChatPagination rawPage rawLimit) in
  (1 <= page)%Z /\ (1 <= limit <= 100)%Z /\
  ((rawPage <= 92233720368547758)%Z ->
   (0 <= (page - 1) * limit < 2 ^ 63)%Z /\
   GetMessages bookingID page limit store
   = match chat_FindByBookingID bookingID limit ((page - 1) * limit) store with
     | (_, _, Some err) => ([], 0%Z, Some err)
     | (messages, total, None) => (List.map toChatDTO messages, total, None)
     end).
Proof.
  cbv zeta. unfold parseChatPagination. cbn [fst snd].
  set (page := if (rawPage <? 1)%Z then 1%Z else rawPage).
  set (limit0 := if (rawLimit <? 1)%Z then 50%Z else rawLimit).
  set (limit := if (100 <? limit0)%Z then 100%Z else limit0).
  assert (Hpage : (1 <= page)%Z /\ (rawPage <= 92233720368547758 ->
                                    page <= 92233720368547758)%Z).
  { unfold page. destruct (Z.ltb_spec rawPage 1); lia. }
  assert (Hlimit : (1 <= limit <= 100)%Z).
  { unfold limit, limit0. destruct (Z.ltb_spec rawLimit 1).
    - simpl. lia.
    - destruct (Z.ltb_spec 100 rawLimit); lia. }
  split; [tauto |]. split; [exact Hlimit |]. intros Hraw.
  assert (Hoff : (0 <= (page - 1) * limit < 2 ^ 63)%Z) by nia.
  split; [exact Hoff |].
  unfold GetMessages. rewrite (wrap64_small (page - 1)) by lia.
  now rewrite (wrap64_small ((page - 1) * limit)) by lia.
Qed.

Context `{WireFormat}.

(** From [SendMessage] to the viewer's socket.  A chat message that
    [SendMessage] has accepted is the last one on the hub's chat channel;
    when the hub takes it, it is queued for every viewer of the booking
    whose queue has room, and the next turn of that viewer's write pump
    writes a frame that ends with the message. *)
Theorem sent_chat_reaches_viewer (newID : uuid) (now : Time)
    (bookingID senderID : uuid) (senderRole : string) (req : SendMessageRequest)
    (w : ChatWorld) (dto : ChatMessageDTO) (data : bytes) (h : Hub)
    (client : ClientPtr) (c : Client) (closeOk : bool) :
  let chatMsg := ws.mkChatMessage "chat_message" bookingID newID senderID senderRole
                   (req_MessageType req) (req_Content req) now in
  snd (SendMessage newID now bookingID senderID senderRole req w) = inl dto ->
  marshal_chat_message chatMsg = inl data ->
  hub_wf h -> client ∈ room_of bookingID h -> heap h !! client = Some c ->
  (length (ch_buf (c_Send c)) < ch_cap (c_Send c))%nat ->
  cw_chatBcast (fst (SendMessage newID now bookingID senderID senderRole req w))
  = cw_chatBcast w ++ [chatMsg] /\
  exists h' c',
    Run_step (MsgChat chatMsg) h = Some h' /\ hub_wf h' /\
    client ∈ room_of bookingID h' /\ heap h' !! client = Some c' /\
    ch_buf (c_Send c') = ch_buf (c_Send c) ++ [data] /\
    WritePump_turn true closeOk (c_Send c')
    = PumpWrote (String.concat newline (ch_buf (c_Send c) ++ [data]))
        (mkChan [] (ch_cap (c_Send c)) false) closeOk.
Proof.
  cbv zeta. intros Hsent Hdata Hwf Hin Hc Hroom.
  split.
  - destruct (SendMessage_cases newID now bookingID senderID senderRole req w)
      as [(err & Heq & _) | [(_ & _ & err & _ & Heq) | (_ & _ & _ & Heq)]];
      rewrite Heq in *; cbn [fst snd] in *; try discriminate. reflexivity.
  - cbn [Run_step cm_BookingID]. rewrite Hdata.
    destruct (session_props.broadcastToRoom_queues bookingID data h client c
                Hwf Hin Hc Hroom) as (h' & Hrun & Hwf' & Hin' & Hc').
    exists h', (sent_client data c). repeat (split; [assumption |]).
    split; [reflexivity |].
    unfold WritePump_turn, sent_client. cbn [c_Send].
    destruct (ch_buf (c_Send c) ++ [data]) as [|m rest] eqn:Hbuf.
    { now destruct (ch_buf (c_Send c)). }
    cbn [recv ch_buf ch_cap ch_closed negb].
    now rewrite session_props.drain_all.
Qed.

End sending.

Lemma SendMessage_broadcasts_iff_saved_witness :
  cw_chatBcast
    (fst (@SendMessage service_samples.list_chat_repo 70%N 300%Z 2%N 4%N "owner"
            (mkSendMessageRequest "sticker" "hello")
            (@mkChatWorld service_samples.list_chat_repo [] [])))
  = [].
Proof.
  destruct (@SendMessage_broadcasts_iff_saved service_samples.list_chat_repo
              70%N 300%Z 2%N 4%N "owner" (mkSendMessageRequest "sticker" "hello")
              (@mkChatWorld service_samples.list_chat_repo [] [])) as (_ & Herr & _).
  apply (Herr (InvalidMessageType "sticker")). reflexivity.
Defined.

Lemma parseChatPagination_bounds_the_query_witness :
  (0 <= (fst (parseChatPagination 3 500) - 1) * snd (parseChatPagination 3 500)
   < 2 ^ 63)%Z.
Proof.
  destruct (@parseChatPagination_bounds_the_query service_samples.list_chat_repo
              3%Z 500%Z 2%N []) as (_ & _ & Hwindow).
  destruct Hwindow as [Hoff _]; [lia | exact Hoff].
Defined.

Lemma sent_chat_reaches_viewer_witness :
  exists h' c',
    @Run_step session_samples.plain_wire
      (MsgChat (session_samples.chat_of_booking 2%N "hello")) samples.sample_hub
    = Some h' /\
    heap h' !! 2%positive = Some c' /\ ch_buf (c_Send c') = ["hello"].
Proof.
  destruct (@sent_chat_reaches_viewer service_samples.list_chat_repo
              session_samples.plain_wire 70%N 300%Z 2%N 4%N "owner"
              (mkSendMessageRequest "text" "hello")
              (@mkChatWorld service_samples.list_chat_repo [] [])
              (mkChatMessageDTO 70%N 2%N 4%N "owner" "text" "hello" 300%Z)
              "hello" samples.sample_hub 2%positive samples.ready_client true)
    as (_ & h' & c' & Hrun & _ & _ & Hc' & Hbuf & _).
  - reflexivity.
  - reflexivity.
  - exact sample_hub_wf.
  - unfold room_of, samples.sample_hub. cbn [rooms].
    rewrite lookup_singleton_eq. simpl. compute_done.
  - unfold samples.sample_hub. cbn [heap].
    rewrite lookup_insert_ne by discriminate. apply lookup_insert_eq.
  - simpl. lia.
  - exists h', c'. split; [exact Hrun |]. split; [exact Hc' | exact Hbuf].
Defined.

End chat_props.

(** ** Share links *)

Module share_props.
Import tracking repository share share_application repository_props export_props.

Lemma hextable_inj (x y : N) :
  (x < 16)%N -> (y < 16)%N -> hextable x = hextable y -> x = y.
Proof.
  intros Hx Hy.
  assert (Hxs : List.In x (List.map N.of_nat (List.seq 0 16))).
  { apply List.in_map_iff. exists (N.to_nat x). split; [apply N2Nat.id |].
    apply List.in_seq. lia. }
  assert (Hys : List.In y (List.map N.of_nat (List.seq 0 16))).
  { apply List.in_map_iff. exists (N.to_nat y). split; [apply N2Nat.id |].
    apply List.in_seq. lia. }
  simpl in Hxs, Hys.
  repeat (destruct Hxs as [<- | Hxs]); try contradiction;
    repeat (destruct Hys as [<- | Hys]); try contradiction;
    intros Heq; try reflexivity; discriminate Heq.
Qed.

Lemma byte_halves (v : N) :
  (v < 256)%N ->
  (N.shiftr v 4 < 16)%N /\ (N.land v 15 < 16)%N /\
  v = (16 * N.shiftr v 4 + N.land v 15)%N.
Proof.
  intros Hv. rewrite N.shiftr_div_pow2.
  change 15%N with (N.ones 4). rewrite N.land_ones.
  change (2 ^ 4)%N with 16%N.
  pose proof (N.div_mod v 16). pose proof (N.mod_upper_bound v 16).
  assert (v / 16 < 16)%N by (apply N.Div0.div_lt_upper_bound; lia).
  lia.
Qed.

Lemma hex_EncodeToString_length (src : list N) :
  String.length (hex_EncodeToString src) = (2 * length src)%nat.
Proof. induction src as [|v rest IH]; simpl; [reflexivity | rewrite IH; lia]. Qed.

Lemma hex_EncodeToString_inj (a b : list N) :
  List.Forall (fun v => (v < 256)%N) a -> List.Forall (fun v => (v < 256)%N) b ->
  hex_EncodeToString a = hex_EncodeToString b -> a = b.
Proof.
  intros Ha. revert b. induction Ha as [|x a Hx Ha IH]; intros b Hb Heq.
  - destruct b; [reflexivity | discriminate].
  - destruct Hb as [|y b Hy Hb]; [discriminate |].
    simpl in Heq. injection Heq as Hhi Hlo Hrest.
    destruct (byte_halves x Hx) as (Hx1 & Hx2 & Hxv).
    destruct (byte_halves y Hy) as (Hy1 & Hy2 & Hyv).
    apply hextable_inj in Hhi; [| assumption | assumption].
    apply hextable_inj in Hlo; [| assumption | assumption].
    f_equal; [lia | now apply IH].
Qed.

Lemma hex_EncodeToString_digits (src : list N) :
  List.Forall (fun ch => List.In ch (list_ascii_of_string "0123456789abcdef"))
    (list_ascii_of_string (hex_EncodeToString src)).
Proof.
  assert (Hd : forall v, List.In (hextable v) (list_ascii_of_string "0123456789abcdef")).
  { intros v. unfold hextable.
    destruct v as [|p]; [simpl; tauto |].
    do 5 (try (destruct p as [p|p|]; try (simpl; tauto))). }
  induction src as [|v rest IH]; simpl; [constructor |].
  constructor; [apply Hd |]. constructor; [apply Hd | exact IH].
Qed.

(** The token of a share link.  From a buffer of 16 random bytes
    [generateToken] makes a text of 32 characters, all of them digits or
    the letters a to f, and two different buffers give two different
    tokens. *)
Theorem generateToken_is_32_hex_digits (b : list N) :
  length b = 16%nat -> List.Forall (fun v => (v < 256)%N) b ->
  exists token,
    generateToken (inl b) = inl token /\
    String.length token = 32%nat /\
    List.Forall (fun ch => List.In ch (list_ascii_of_string "0123456789abcdef"))
      (list_ascii_of_string token) /\
    (forall b', List.Forall (fun v => (v < 256)%N) b' ->
       generateToken (inl b') = inl token -> b' = b).
Proof.
  intros Hlen Hb. exists (hex_EncodeToString b).
  split; [reflexivity |]. split; [| split].
  - rewrite hex_EncodeToString_length, Hlen. reflexivity.
  - apply hex_EncodeToString_digits.
  - intros b' Hb' [= Heq]. now apply hex_EncodeToString_inj.
Qed.

Lemma generateToken_is_32_hex_digits_witness :
  exists token,
    generateToken (inl service_samples.sixteen_bytes) = inl token /\
    String.length token = 32%nat.
Proof.
  destruct (generateToken_is_32_hex_digits service_samples.sixteen_bytes)
    as (token & Hgen & Hlen & _).
  - reflexivity.
  - repeat constructor.
  - exists token. split; [exact Hgen | exact Hlen].
Defined.

Section sharing.
Context `{SharedTripRepository}.

Lemma GetSharedTracking_found (now : Time) (token : string) (store : share_store)
    (db : DB) (st : SharedTrip) (track : TripTrack) :
  share_FindByToken token store = inl st ->
  FindByBookingID (st_bookingID st) db = inl track ->
  GetSharedTracking now token store db
  = if (st_expiresAt st <? now)%Z then inr (Errorf "share link has expired" [])
    else inl (mkSharedTrackingDTO (st_bookingID st) (status track)
                (List.map shared_waypoint (fst (GetWaypoints (tracking.id track) db)))
                (st_expiresAt st)).
Proof.
  intros Hst Htrack. unfold GetSharedTracking, IsExpired. rewrite Hst.
  destruct (st_expiresAt st <? now)%Z; [reflexivity |].
  now rewrite Htrack.
Qed.

(** A share link is checked before anything is shown.  [GetSharedTracking]
    answers an unknown token with [share link not found].  For a known
    token it answers an instant after the expiry with
    [share link has expired], whatever is stored for the booking; up to and
    at the expiry it returns the status of the booking's track and its
    waypoints by ascending recorded time, or [tracking data not found] when
    the booking has no track. *)
Theorem GetSharedTracking_checks_the_link (now : Time) (token : string)
    (store : share_store) (db : DB) :
  (forall err, share_FindByToken token store = inr err ->
     GetSharedTracking now token store db = inr (Errorf "share link not found" [])) /\
  (forall st, share_FindByToken token store = inl st ->
     ((st_expiresAt st < now)%Z ->
      GetSharedTracking now token store db = inr (Errorf "share link has expired" [])) /\
     ((now <= st_expiresAt st)%Z ->
      (forall r, List.In r (trip_tracks db) -> m_BookingID r <> st_bookingID st) ->
      GetSharedTracking now token store db
      = inr (Errorf "tracking data not found" [])) /\
     ((now <= st_expiresAt st)%Z ->
      forall track, FindByBookingID (st_bookingID st) db = inl track ->
      exists dto,
        GetSharedTracking now token store db = inl dto /\
        sh_BookingID dto = st_bookingID st /\ sh_Status dto = status track /\
        sh_ExpiresAt dto = st_expiresAt st /\
        sh_Waypoints dto
        = List.map shared_waypoint (fst (GetWaypoints (tracking.id track) db)) /\
        StronglySorted (fun a b => (sw_RecordedAt a <= sw_RecordedAt b)%Z)
          (sh_Waypoints dto))).
Proof.
  split.
  - intros err Herr. unfold GetSharedTracking. now rewrite Herr.
  - intros st Hst. split; [| split].
    + intros Hlate. unfold GetSharedTracking, IsExpired. rewrite Hst.
      now replace (st_expiresAt st <? now)%Z with true by (symmetry; apply Z.ltb_lt; lia).
    + intros Hok Hnone. apply FindByBookingID_not_found in Hnone.
      unfold GetSharedTracking, IsExpired. rewrite Hst.
      replace (st_expiresAt st <? now)%Z with false by (symmetry; apply Z.ltb_ge; lia).
      now rewrite Hnone.
    + intros Hok track Htrack.
      rewrite (GetSharedTracking_found now token store db st track Hst Htrack).
      replace (st_expiresAt st <? now)%Z with false by (symmetry; apply Z.ltb_ge; lia).
      eexists. split; [reflexivity |]. cbn [sh_BookingID sh_Status sh_ExpiresAt sh_Waypoints].
      repeat (split; [reflexivity |]).
      destruct (GetWaypoints_ordered (tracking.id track) db) as (_ & Hsorted & _).
      induction Hsorted as [|wp l Hl IH Hall]; simpl; constructor; [exact IH |].
      rewrite List.Forall_forall in *. intros x Hx.
      apply List.in_map_iff in Hx as (y & <- & Hy). apply (Hall y Hy).
Qed.

(** A new link opens the tracking for 24 hours.  When [CreateShareLink]
    succeeds at the instant [created], the link it returns carries the token
    made from the random bytes, the path [/api/v1/tracking/shared/] followed
    by that token, and an expiry 24 hours after [created]; and with a
    repository that finds the trip that was saved under that token,
    [GetSharedTracking] shows the booking's track at every instant up to
    and at the expiry and answers [share link has expired] afterwards. *)
Theorem created_link_opens_for_24_hours (b : list N) (id : uuid) (created : Time)
    (bookingID : uuid) (store store' : share_store) (dto : SharedTripDTO)
    (db : DB) (track : TripTrack) :
  CreateShareLink (inl b) id created bookingID store = (store', inl dto) ->
  share_FindByToken (sd_ShareToken dto) store'
  = inl (mkSharedTrip id bookingID (sd_ShareToken dto)
           (created + 24 * time_Hour)%Z created) ->
  FindByBookingID bookingID db = inl track ->
  dto = mkSharedTripDTO id bookingID (hex_EncodeToString b)
          ("/api/v1/tracking/shared/" +:+ hex_EncodeToString b)
          (created + 86400000000000)%Z /\
  share_Save (mkSharedTrip id bookingID (hex_EncodeToString b)
                (created + 86400000000000)%Z created) store = (store', None) /\
  (forall now, (now <= created + 86400000000000)%Z ->
     GetSharedTracking now (sd_ShareToken dto) store' db
     = inl (mkSharedTrackingDTO bookingID (status track)
              (List.map shared_waypoint (fst (GetWaypoints (tracking.id track) db)))
              (created + 86400000000000)%Z)) /\
  (forall now, (created + 86400000000000 < now)%Z ->
     GetSharedTracking now (sd_ShareToken dto) store' db
     = inr (Errorf "share link has expired" [])).
Proof.
  intros Hcreate Hfind Htrack.
  change (created + 24 * time_Hour)%Z with (created + 86400000000000)%Z in Hfind.
  revert Hcreate. unfold CreateShareLink, NewSharedTrip, generateToken.
  change (created + 24 * time_Hour)%Z with (created + 86400000000000)%Z.
  destruct (share_Save _ store) as [store1 [err|]] eqn:Hsave; [discriminate |].
  cbn [st_id st_bookingID st_shareToken st_expiresAt].
  intros [= <- <-]. cbn [sd_ShareToken] in *.
  split; [reflexivity |]. split; [reflexivity |].
  split; intros now Hnow;
    rewrite (GetSharedTracking_found now _ _ db _ track Hfind Htrack);
    cbn [st_expiresAt st_bookingID].
  - now replace (created + 86400000000000 <? now)%Z with false
      by (symmetry; apply Z.ltb_ge; lia).
  - now replace (created + 86400000000000 <? now)%Z with true
      by (symmetry; apply Z.ltb_lt; lia).
Qed.

End sharing.

Lemma GetSharedTracking_checks_the_link_witness :
  @GetSharedTracking service_samples.list_share_repo 90000000000000%Z "00ff"
    [mkSharedTrip 80%N 2%N "00ff" 86400000000100%Z 100%Z] samples.db_one_active
  = inr (Errorf "share link has expired" []).
Proof.
  destruct (@GetSharedTracking_checks_the_link service_samples.list_share_repo
              90000000000000%Z "00ff"
              [mkSharedTrip 80%N 2%N "00ff" 86400000000100%Z 100%Z]
              samples.db_one_active) as [_ Hknown].
  destruct (Hknown (mkSharedTrip 80%N 2%N "00ff" 86400000000100%Z 100%Z) eq_refl)
    as (Hlate & _).
  apply Hlate. simpl. lia.
Defined.

Lemma created_link_opens_for_24_hours_witness :
  @GetSharedTracking service_samples.list_share_repo 86400000000100%Z
    (hex_EncodeToString service_samples.sixteen_bytes)
    (fst (@CreateShareLink service_samples.list_share_repo
            (inl service_samples.sixteen_bytes) 80%N 100%Z 2%N []))
    samples.db_one_active
  = inl (mkSharedTrackingDTO 2%N "active" [] 86400000000100%Z).
Proof.
  destruct (@created_link_opens_for_24_hours service_samples.list_share_repo
              service_samples.sixteen_bytes 80%N 100%Z 2%N []
              (fst (@CreateShareLink service_samples.list_share_repo
                      (inl service_samples.sixteen_bytes) 80%N 100%Z 2%N []))
              (mkSharedTripDTO 80%N 2%N
                 (hex_EncodeToString service_samples.sixteen_bytes)
                 ("/api/v1/tracking/shared/"
                  +:+ hex_EncodeToString service_samples.sixteen_bytes)
                 86400000000100%Z)
              samples.db_one_active samples.active_track)
    as (_ & _ & Hopen & _); [reflexivity | reflexivity | reflexivity |].
  apply (Hopen 86400000000100%Z). simpl. lia.
Defined.

End share_props.

(** ** The rows of chat messages and share links *)

Module row_props.
Import chat share chat_repository share_repository.

(** The conversions between a chat message or a share link and its row lose
    nothing: building the row and reading it back gives the value, and
    reading a row and building it again gives the row. *)
Theorem rows_round_trip :
  (forall m : ChatMessage, toChatDomain (toChatModel m) = m) /\
  (forall r : ChatMessageModel, toChatModel (toChatDomain r) = r) /\
  (forall s : SharedTrip, toShareDomain (toShareModel s) = s) /\
  (forall r : SharedTripModel, toShareModel (toShareDomain r) = r).
Proof.
  repeat split; intros []; reflexivity.
Qed.

End row_props.
